(** * Multidimensional Hermite tensors: index flattening, position
      enumeration and the recurrence engine of
      [include/hermite_multidimensional.hpp].

    Conventions of the embedding.
    - [std::vector<int>] is [list Z]; a subscript [v[i]] is stdpp's list
      lookup and fails ([None]) out of range, where the C++ has undefined
      behaviour.  Loop counters and sizes ([dim], [ii], [k], [jump]) are
      natural numbers.
    - [int] is 32 bits wide.  Coordinates and [resolution] are [int]s kept
      in [Z]; the additions that can leave the [int] range
      ([forwardStep[ii] + nextPos[ii]], [nextPos[ii] + 1],
      [jumpFrom[jump] += 1], [resolution + 1]) go through [int_add], which
      fails ([None]) on overflow, undefined behaviour in the C++.  The
      other [int] arithmetic of a loop body (the sums of the acceptance
      test, [k*dim+ii], differences and remainders of coordinates) is
      exact: with [resolution >= 1] a body runs only when
      [resolution >= 2], and then, with at most [2^53] cells, there are
      at most 53 axes and the sums stay below [INT_MAX] (lemmas
      [axes_few] and [acceptance_sums_fit]).
    - [ullint] and [size_t] are [Z]s in [0, 2^64) and every operation on
      them is followed by [wrap64].
    - the template parameter [T] is a type with the operations the code
      uses on it and the size of its cells.
    - [malloc] hands out a block whose content the caller does not choose;
      the fills take that content as their first argument [mem].  The code
      never tests the pointer it gets: a run in which [malloc] returns
      [NULL] stops at the [memset] that follows, and one in which a
      [std::vector] cannot be built ends in [std::bad_alloc].  The model
      describes the runs whose allocations succeed: the block was handed
      out and the vectors were built.
    - what a fill writes to [std::cout] is returned next to its tensor. *)

From Stdlib Require Import ZArith Lia.
From Stdlib Require Import Floats.
From stdpp Require Import base numbers option list.

Local Open Scope Z_scope.
#[local] Unset Default Proof Using.

(** ** Machine integers *)

Definition ullint_modulus : Z := 2 ^ 64.

Definition wrap64 (z : Z) : Z := z mod ullint_modulus.

(** [INT_MAX] and [INT_MIN] of a 32-bit [int]. *)
Definition int_max : Z := 2 ^ 31 - 1.

Definition int_min : Z := - 2 ^ 31.

(** [a + b] in [int]: signed overflow is undefined. *)
Definition int_add (a b : Z) : option Z :=
  if bool_decide (int_min <= a + b <= int_max) then Some (a + b) else None.

(** Every integer up to [2^53] is a [double], and none of the odd ones
    above is. *)
Definition exact_double_max : Z := 2 ^ 53.

(** [sizeof(T* )] *)
Definition sizeof_pointer : Z := 8.

(** ** Index flattener *)

(** [vec2index]: [nextCoordinate = pos[0]-1], then for every further axis
    [nextCoordinate = nextCoordinate*resolution + (pos[ii+1]-1)], all in
    [ullint].  Reading [pos[0]] of an empty vector is out of range. *)
Definition vec2index (pos : list Z) (resolution : Z) : option Z :=
  match pos with
  | [] => None
  | p0 :: rest =>
      Some (fold_left (fun nextCoordinate p =>
                         wrap64 (nextCoordinate * resolution + (p - 1)))
                      rest (wrap64 (p0 - 1)))
  end.

(** A multi-index lies in [[1,resolution]^dim]. *)
Definition in_box (resolution : Z) (pos : list Z) : Prop :=
  Forall (fun p => 1 <= p <= resolution) pos.

(** The mixed-radix value [sum_i (pos[i]-1) * resolution^(dim-1-i)], axis 0
    most significant, as the specification writes it. *)
Fixpoint mixed_radix (resolution : Z) (pos : list Z) : Z :=
  match pos with
  | [] => 0
  | p :: rest =>
      (p - 1) * resolution ^ Z.of_nat (length rest) + mixed_radix resolution rest
  end.

(** The specification's unflattening: the digits of an offset, most
    significant first, each shifted back to the 1-based range. *)
Fixpoint index2vec (dim : nat) (resolution : Z) (offset : Z) : list Z :=
  match dim with
  | O => []
  | S d =>
      (offset / resolution ^ Z.of_nat d + 1)
        :: index2vec d resolution (offset mod resolution ^ Z.of_nat d)
  end.

(** ** Vectors with checked subscripts *)

(** [v[i]] for an [int] or [ullint] subscript. *)
Definition vec_at {A : Type} (v : list A) (i : Z) : option A :=
  if bool_decide (0 <= i) then v !! Z.to_nat i else None.

(** [v[i] = x] for an [int] or [ullint] subscript. *)
Definition vec_put {A : Type} (v : list A) (i : Z) (x : A) : option (list A) :=
  _ ← vec_at v i; Some (<[Z.to_nat i := x]> v).

(** [v[i] = x] for a loop counter. *)
Definition vec_set {A : Type} (v : list A) (i : nat) (x : A) : option (list A) :=
  _ ← v !! i; Some (<[i := x]> v).

(** A loop that runs its body [n] times, stopping at the first failure. *)
Fixpoint repeat_body {S : Type} (body : S -> option S) (n : nat) (s : S)
  : option S :=
  match n with
  | O => Some s
  | S m => body s ≫= repeat_body body m
  end.

(** ** Position enumerator *)

Record iterator : Type := Iterator {
  nextPos : list Z;
  jumpFrom : list Z;
  jump : nat
}.

(** The carry loop [for (ii = 0; ii < dim; ii++)] of [update_iterator];
    [todo] counts the iterations that remain.  The test is
    [forwardStep[ii] + nextPos[ii] > resolution] with [forwardStep[ii] = 1],
    an [int] addition, as is [nextPos[ii] + 1]. *)
Fixpoint carry_loop (resolution : Z) (todo ii : nat) (it : iterator)
  : option iterator :=
  match todo with
  | O => Some it
  | S todo' =>
      n ← nextPos it !! ii;
      stepped_to ← int_add 1 n;
      if bool_decide (stepped_to > resolution) then
        np ← vec_set (nextPos it) ii 1;
        jf ← vec_set (jumpFrom it) ii 1;
        carry_loop resolution todo' (S ii)
                   {| nextPos := np; jumpFrom := jf; jump := S ii |}
      else
        jf ← vec_set (jumpFrom it) ii n;
        n1 ← int_add n 1;
        np ← vec_set (nextPos it) ii n1;
        Some {| nextPos := np; jumpFrom := jf; jump := jump it |}
  end.

(** [for (; k < dim; k++) if (nextPos[k] != jumpFrom[k]) break;] *)
Fixpoint first_difference (todo k : nat) (a b : list Z) : option nat :=
  match todo with
  | O => Some k
  | S todo' =>
      x ← a !! k;
      y ← b !! k;
      if bool_decide (x ≠ y) then Some k
      else first_difference todo' (S k) a b
  end.

(** [if (jump > 0) { jumpFrom[jump] += 1; jump = 0; }] *)
Definition deferred_jump (it : iterator) : option iterator :=
  if bool_decide (0 < jump it)%nat then
    v ← jumpFrom it !! jump it;
    v1 ← int_add v 1;
    Some {| nextPos := nextPos it;
            jumpFrom := <[jump it := v1]> (jumpFrom it);
            jump := 0 |}
  else Some it.

Definition update_iterator (it : iterator) (resolution : Z) (dim : nat)
  : option (iterator * nat) :=
  it1 ← deferred_jump it;
  it2 ← carry_loop resolution dim 0 it1;
  k ← first_difference dim 0 (nextPos it2) (jumpFrom it2);
  Some (it2, k).

(** [nextPos(dim, 1)], [jumpFrom(dim, 1)], [jump = 0]. *)
Definition initial_iterator (dim : nat) : iterator :=
  {| nextPos := replicate dim 1; jumpFrom := replicate dim 1; jump := 0 |}.

(** The enumerator on its own: the state after [n] calls. *)
Definition iterator_run (resolution : Z) (dim n : nat) : option iterator :=
  repeat_body (fun it => fst <$> update_iterator it resolution dim)
              n (initial_iterator dim).

(** Position of a multi-index in odometer order, axis 0 least significant:
    [sum_i (pos[i]-1) * resolution^i]. *)
Fixpoint odometer_value (resolution : Z) (pos : list Z) : Z :=
  match pos with
  | [] => 0
  | p :: rest => (p - 1) + resolution * odometer_value resolution rest
  end.

(** Coordinate [i] of a multi-index, and the multi-index [pos - e_i]. *)
Definition coordinate (pos : list Z) (i : nat) : Z := default 0 (pos !! i).

Definition decrement (pos : list Z) (i : nat) : list Z :=
  <[i := coordinate pos i - 1]> pos.

(** The shape of the enumerator's state right after a call that stepped
    axis [k]: the axes below [k] were reset, axis [k] was stepped from [p]
    to [p+1], the axes above are as they were; [jumpFrom] is behind by one
    on axis [k] only, and [jump] names that axis. *)
Definition stepped (resolution : Z) (it : iterator) (k : nat) : Prop :=
  exists (p : Z) (rest : list Z),
    nextPos it = replicate k 1 ++ (p + 1) :: rest /\
    jumpFrom it = replicate k 1 ++ p :: rest /\
    jump it = k /\ 1 <= p < resolution /\ in_box resolution rest.

(** [jumpFrom] agrees with [nextPos] on every axis but the first. *)
Definition aligned (np jf : list Z) : Prop :=
  length jf = length np /\ drop 1 jf = drop 1 np.

(** No [int] addition of the first [n] calls of a fill overflows:
    [resolution] is an [int], and either [resolution + 1] is one too or no
    axis is full yet when those calls are made. *)
Definition no_overflow_before (resolution : Z) (n : nat) : Prop :=
  resolution <= int_max /\ (resolution < int_max \/ Z.of_nat n < resolution).

(** The tensor of [resolution^dim] cells is one the code can size:
    [resolution] is an [int] and [pow] gives the number of cells exactly. *)
Definition machine_fits (resolution : Z) (dim : nat) : Prop :=
  resolution <= int_max /\ resolution ^ Z.of_nat dim <= exact_double_max.

(** ** Scalars *)

(** The operations the engine uses on its template parameter [T], and the
    size of a cell.  [intsqrt] holds [double]s; they are read as scalars
    here.  The scalars are the floating-point types the fills are used
    at, [double] and [std::complex<double>] (8 and 16 bytes): a cell is at
    least as wide as a pointer and at most 32 bytes.  For such a cell
    [memset(H, sizeof(val), sizeof(H))] writes the byte [sizeof(T)] over
    the first [sizeof(T* )] bytes of [H[0]] and reaches no other cell;
    [pointer_fill x] is the cell [x] after that.  (For a narrower cell, a
    [float] say, the same call would reach [H[1]] as well; such types are
    not scalars in this sense.) *)
Class Scalar (T : Type) : Type := {
  tzero : T;
  tone : T;
  tadd : T -> T -> T;
  tsub : T -> T -> T;
  tmul : T -> T -> T;
  tdiv : T -> T -> T;
  topp : T -> T;
  of_int : Z -> T;
  sqrt_of_int : Z -> T;
  tsqrt : T -> T;
  pointer_fill : T -> T;
  sizeof_T : Z;
  sizeof_T_range : sizeof_pointer <= sizeof_T <= 32
}.

(** The two laws that turn repeated subtraction into one subtraction of a
    sum. *)
Class ScalarLaws (T : Type) `{Scalar T} : Prop := {
  tsub_zero : forall a : T, tsub a tzero = a;
  tsub_tsub : forall a b c : T, tsub (tsub a b) c = tsub a (tadd b c)
}.

(** Integers as scalars, for evaluating the fills on concrete inputs: an
    integral [T] of eight bytes whose arithmetic does not overflow.
    Division truncates, the square roots are integer square roots (exact
    on the perfect squares the examples use), and [pointer_fill] is the
    64-bit value whose eight bytes are all [8]. *)
#[export] Instance Z_scalar : Scalar Z := {|
  tzero := 0;
  tone := 1;
  tadd := Z.add;
  tsub := Z.sub;
  tmul := Z.mul;
  tdiv := Z.quot;
  topp := Z.opp;
  of_int := fun z => z;
  sqrt_of_int := Z.sqrt;
  tsqrt := Z.sqrt;
  pointer_fill := fun _ => 578721382704613384;
  sizeof_T := 8;
  sizeof_T_range := conj (Z.le_refl 8) (Zle_bool_imp_le 8 32 eq_refl)
|}.

(** [double] itself as a scalar, with the machine's arithmetic (IEEE 754
    binary64, round to nearest even): what the fills compute when [T] is
    [double].  [pointer_fill] gives the [double] whose eight bytes are all
    [8]. *)
Definition double_of_int (z : Z) : PrimFloat.float :=
  if z <? 0 then PrimFloat.opp (PrimFloat.of_uint63 (Uint63.of_Z (- z)))
  else PrimFloat.of_uint63 (Uint63.of_Z z).

#[export] Instance double_scalar : Scalar PrimFloat.float := {|
  tzero := double_of_int 0;
  tone := double_of_int 1;
  tadd := PrimFloat.add;
  tsub := PrimFloat.sub;
  tmul := PrimFloat.mul;
  tdiv := PrimFloat.div;
  topp := PrimFloat.opp;
  of_int := double_of_int;
  sqrt_of_int := fun z => PrimFloat.sqrt (double_of_int z);
  tsqrt := PrimFloat.sqrt;
  pointer_fill := fun _ => 0x1.8080808080808p-895%float;
  sizeof_T := 8;
  sizeof_T_range := conj (Z.le_refl 8) (Zle_bool_imp_le 8 32 eq_refl)
|}.

(** ** Recurrence engine *)

Section Engine.
Context {T : Type} `{Scalar T}.

(** [ullint Hdim = pow(resolution, dim)]: the [int] [resolution] is
    converted to [double], [pow] works in [double] and its result is
    converted to [ullint].  The model follows the code as long as the
    power is an integer from [0] to [2^53], which the [double] holds
    exactly.  Beyond, the [double] is a rounded value (and out of the
    [ullint] range from [2^64] on, as a negative one is); the model is not
    defined there. *)
Definition pow_to_ullint (resolution : Z) (dim : nat) : option Z :=
  let v := resolution ^ Z.of_nat dim in
  if bool_decide (int_min <= resolution <= int_max /\
                  0 <= v <= exact_double_max)
  then Some v else None.

(** The first [n] cells of what the allocator hands out. *)
Definition block (mem : nat -> T) (n : nat) : list T := mem <$> seq 0 n.

(** [malloc(bytes)]: a block of [bytes] bytes, that is of as many whole
    cells as fit in them, with the content [mem]. *)
Definition malloc (mem : nat -> T) (bytes : Z) : list T :=
  block mem (Z.to_nat (bytes / sizeof_T)).

(** [H = malloc(sizeof(T)*Hdim); memset(H, sizeof(val), sizeof(H));]
    The product is a [size_t].  The [memset] writes [sizeof(T* )] bytes,
    all inside [H[0]] for a scalar cell, and outside the block if the
    block has no cell. *)
Definition allocate (mem : nat -> T) (resolution : Z) (dim : nat)
  : option (Z * list T) :=
  Hdim ← pow_to_ullint resolution dim;
  let H0 := malloc mem (wrap64 (sizeof_T * Hdim)) in
  h0 ← vec_at H0 0;
  H1 ← vec_put H0 0 (pointer_fill h0);
  Some (Hdim, H1).

(** [int dim = std::sqrt(static_cast<double>(R.size()))] *)
Definition dim_of (R : list T) : nat := Z.to_nat (Z.sqrt (Z.of_nat (length R))).

(** The table [sqrt(0), ..., sqrt(resolution)]. *)
Definition intsqrt_table (resolution : Z) : list T :=
  (fun ii => sqrt_of_int (Z.of_nat ii)) <$> seq 0 (Z.to_nat (resolution + 1)).

(** [std::vector<double> intsqrt(resolution+1, 0);] and
    [intsqrt[ii] = std::sqrt(ii)] for [ii = 0 .. resolution].  The size is
    an [int] sum; a negative size is no size of a vector. *)
Definition build_intsqrt (resolution : Z) : option (list T) :=
  size ← int_add resolution 1;
  if bool_decide (0 <= size) then Some (intsqrt_table resolution) else None.

(** [prevJump(dim, 0); prevJump[ii] = 1;] and the [std::transform] with
    [std::minus] that fills [tmpjump]. *)
Definition unit_vector (dim ii : nat) : option (list Z) :=
  vec_set (replicate dim 0) ii 1.

Definition vec_minus (a b : list Z) : list Z := zip_with Z.sub a b.

(** The correction loop [for (ii = low; ii < high; ii++)] shared by the
    fills; [coef] is the factor in front of [R[k*dim+ii]], computed from
    [jumpFrom[ii]]. *)
Fixpoint correction_loop (coef : Z -> option T) (R : list T)
    (resolution : Z) (dim k : nat) (jumpFrom : list Z) (nextCoordinate : Z)
    (todo ii : nat) (H : list T) : option (list T) :=
  match todo with
  | O => Some H
  | S todo' =>
      jf ← jumpFrom !! ii;
      H' ← (if bool_decide (jf > 1) then
              prevJump ← unit_vector dim ii;
              let tmpjump := vec_minus jumpFrom prevJump in
              prevCoordinate ← vec2index tmpjump resolution;
              c ← coef jf;
              r ← R !! (k * dim + ii)%nat;
              hp ← vec_at H prevCoordinate;
              hn ← vec_at H nextCoordinate;
              vec_put H nextCoordinate (tsub hn (tmul (tmul c r) hp))
            else Some H);
      correction_loop coef R resolution dim k jumpFrom nextCoordinate
                      todo' (S ii) H'
  end.

(** [static_cast<T>(jumpFrom[ii]-1)] *)
Definition plain_coef (jf : Z) : option T := Some (of_int (jf - 1)).

(** [intsqrt[jumpFrom[ii]-1]/intsqrt[nextPos[k]-1]] *)
Definition normalized_coef (intsqrt : list T) (nextPos : list Z) (k : nat)
    (jf : Z) : option T :=
  a ← vec_at intsqrt (jf - 1);
  nk ← nextPos !! k;
  b ← vec_at intsqrt (nk - 1);
  Some (tdiv a b).

(** *** [hermite_multidimensional_cpp] *)

Definition hermite_body (R y : list T) (resolution : Z) (dim : nat)
    (s : iterator * list T) : option (iterator * list T) :=
  '(it, k) ← update_iterator (fst s) resolution dim;
  nextCoordinate ← vec2index (nextPos it) resolution;
  fromCoordinate ← vec2index (jumpFrom it) resolution;
  hfrom ← vec_at (snd s) fromCoordinate;
  yk ← y !! k;
  H1 ← vec_put (snd s) nextCoordinate (tmul hfrom yk);
  H2 ← correction_loop plain_coef R resolution dim k (jumpFrom it)
                       nextCoordinate dim 0 H1;
  Some (it, H2).

(** The state at the head of the fill loop. *)
Definition hermite_start (mem : nat -> T) (R : list T) (resolution : Z)
  : option (Z * (iterator * list T)) :=
  '(Hdim, H0) ← allocate mem resolution (dim_of R);
  H1 ← vec_put H0 0 tone;
  Some (Hdim, (initial_iterator (dim_of R), H1)).

(** The state after [n] iterations of the fill loop. *)
Definition hermite_run (mem : nat -> T) (R y : list T) (resolution : Z)
    (n : nat) : option (iterator * list T) :=
  '(_, s) ← hermite_start mem R resolution;
  repeat_body (hermite_body R y resolution (dim_of R)) n s.

Definition hermite_multidimensional_cpp (mem : nat -> T) (R y : list T)
    (resolution : Z) : option (list T) :=
  '(Hdim, _) ← hermite_start mem R resolution;
  snd <$> hermite_run mem R y resolution (Z.to_nat (wrap64 (Hdim - 1))).

(** *** The fills with a selection rule *)

(** [for (ii = lo; ii < lo + todo; ii++) acc += v[ii];] on an [int]
    accumulator, which lemma [acceptance_sums_fit] keeps below [INT_MAX]. *)
Fixpoint sum_axes (v : list Z) (todo ii : nat) (acc : Z) : option Z :=
  match todo with
  | O => Some acc
  | S todo' => x ← v !! ii; sum_axes v todo' (S ii) (acc + x)
  end.

(** The loop body that [interferometer_cpp], [squeezing_cpp] and
    [two_mode_squeezing_cpp] share: advance the enumerator, test the
    selection rule on [nextPos] and, when it holds, run the correction loop
    over [low_lim .. high_lim-1] on [H[nextCoordinate]] as it stands.
    [fromCoordinate] is computed and not used.  The three fills differ in
    the rule [accepts] and in the limits. *)
Definition selective_body (accepts : list Z -> option bool)
    (limits : nat -> nat * nat) (R intsqrt : list T) (resolution : Z)
    (dim : nat) (s : iterator * list T) : option (iterator * list T) :=
  '(it, k) ← update_iterator (fst s) resolution dim;
  accepted ← accepts (nextPos it);
  if accepted : bool then
    nextCoordinate ← vec2index (nextPos it) resolution;
    fromCoordinate ← vec2index (jumpFrom it) resolution;
    H' ← correction_loop (normalized_coef intsqrt (nextPos it) k) R
                         resolution dim k (jumpFrom it) nextCoordinate
                         (snd (limits k) - fst (limits k)) (fst (limits k))
                         (snd s);
    Some (it, H')
  else Some (it, snd s).

(** *** [interferometer_cpp] *)

(** [bran == ketn], the sums of [nextPos] over the first and the second
    half of the axes. *)
Definition interferometer_accepts (num_modes dim : nat) (nextPos : list Z)
  : option bool :=
  bran ← sum_axes nextPos num_modes 0 0;
  ketn ← sum_axes nextPos (dim - num_modes) num_modes 0;
  Some (bool_decide (bran = ketn)).

(** [if (k > num_modes) { low_lim = 0; high_lim = num_modes; }
     else { low_lim = num_modes; high_lim = dim; }] *)
Definition interferometer_limits (num_modes dim k : nat) : nat * nat :=
  if bool_decide (num_modes < k)%nat then (0%nat, num_modes)
  else (num_modes, dim).

Definition interferometer_body (R intsqrt : list T) (resolution : Z)
    (dim : nat) : iterator * list T -> option (iterator * list T) :=
  selective_body (interferometer_accepts (dim / 2) dim)
                 (interferometer_limits (dim / 2) dim)
                 R intsqrt resolution dim.

Definition interferometer_start (mem : nat -> T) (R : list T)
    (resolution : Z) : option (Z * (iterator * list T)) :=
  if bool_decide (dim_of R mod 2 = 0)%nat then
    '(Hdim, H0) ← allocate mem resolution (dim_of R);
    H1 ← vec_put H0 0 tone;
    Some (Hdim, (initial_iterator (dim_of R), H1))
  else None.

Definition interferometer_run (mem : nat -> T) (R : list T) (resolution : Z)
    (n : nat) : option (iterator * list T) :=
  '(_, s) ← interferometer_start mem R resolution;
  intsqrt ← build_intsqrt resolution;
  repeat_body (interferometer_body R intsqrt resolution
                                   (dim_of R)) n s.

Definition interferometer_cpp (mem : nat -> T) (R : list T) (resolution : Z)
  : option (list T) :=
  '(Hdim, _) ← interferometer_start mem R resolution;
  snd <$> interferometer_run mem R resolution (Z.to_nat (wrap64 (Hdim - 1))).

(** *** [squeezing_cpp] *)

(** [bran % 2 == ketn % 2] with [bran = nextPos[0]], [ketn = nextPos[1]]. *)
Definition squeezing_accepts (nextPos : list Z) : option bool :=
  bran ← nextPos !! 0%nat;
  ketn ← nextPos !! 1%nat;
  Some (bool_decide (Z.rem bran 2 = Z.rem ketn 2)).

Definition all_axes (dim k : nat) : nat * nat := (0%nat, dim).

Definition squeezing_body (R intsqrt : list T) (resolution : Z) (dim : nat)
  : iterator * list T -> option (iterator * list T) :=
  selective_body squeezing_accepts (all_axes dim) R intsqrt resolution dim.

(** The source stores the seed, builds the table of square roots and only
    then asserts [dim == 2]; here the table is built in [squeezing_run],
    after the assertion.  A run that fails either way has no result, so
    the order of the two does not show. *)
Definition squeezing_start (mem : nat -> T) (R : list T) (resolution : Z)
  : option (Z * (iterator * list T)) :=
  '(Hdim, H0) ← allocate mem resolution (dim_of R);
  r1 ← R !! 1%nat;
  H1 ← vec_put H0 0 (tsqrt (topp r1));
  if bool_decide (dim_of R = 2%nat) then
    Some (Hdim, (initial_iterator (dim_of R), H1))
  else None.

Definition squeezing_run (mem : nat -> T) (R : list T) (resolution : Z)
    (n : nat) : option (iterator * list T) :=
  '(_, s) ← squeezing_start mem R resolution;
  intsqrt ← build_intsqrt resolution;
  repeat_body (squeezing_body R intsqrt resolution
                              (dim_of R)) n s.

Definition squeezing_cpp (mem : nat -> T) (R : list T) (resolution : Z)
  : option (list T) :=
  '(Hdim, _) ← squeezing_start mem R resolution;
  snd <$> squeezing_run mem R resolution (Z.to_nat (wrap64 (Hdim - 1))).

(** *** [two_mode_squeezing_cpp] *)

(** [for (jj = 0; jj < Hdim; jj++) { H[jj] = 0.0; std::cout << H[jj]; }];
    [out] is what was written to [std::cout] so far. *)
Fixpoint zero_and_print (todo : nat) (jj : Z) (H : list T) (out : list T)
  : option (list T * list T) :=
  match todo with
  | O => Some (H, out)
  | S todo' =>
      H' ← vec_put H jj tzero;
      h ← vec_at H' jj;
      zero_and_print todo' (wrap64 (jj + 1)) H' (out ++ [h])
  end.

(** [bran == ketn] with [bran = nextPos[0]-nextPos[1]] and
    [ketn = nextPos[2]-nextPos[3]]. *)
Definition two_mode_accepts (nextPos : list Z) : option bool :=
  n0 ← nextPos !! 0%nat;
  n1 ← nextPos !! 1%nat;
  n2 ← nextPos !! 2%nat;
  n3 ← nextPos !! 3%nat;
  Some (bool_decide (n0 - n1 = n2 - n3)).

Definition two_mode_body (R intsqrt : list T) (resolution : Z) (dim : nat)
  : iterator * list T -> option (iterator * list T) :=
  selective_body two_mode_accepts (all_axes dim) R intsqrt resolution dim.

(** The state at the head of the fill loop, with the text written to
    [std::cout] on the way there. *)
Definition two_mode_start (mem : nat -> T) (R : list T) (resolution : Z)
  : option (Z * list T * (iterator * list T)) :=
  if bool_decide (dim_of R = 4%nat) then
    '(Hdim, H0) ← allocate mem resolution (dim_of R);
    '(H1, out) ← zero_and_print (Z.to_nat Hdim) 0 H0 [];
    r2 ← R !! 2%nat;
    H2 ← vec_put H1 0 (topp r2);
    Some (Hdim, out, (initial_iterator (dim_of R), H2))
  else None.

Definition two_mode_run (mem : nat -> T) (R : list T) (resolution : Z)
    (n : nat) : option (iterator * list T) :=
  '(_, _, s) ← two_mode_start mem R resolution;
  intsqrt ← build_intsqrt resolution;
  repeat_body (two_mode_body R intsqrt resolution (dim_of R)) n s.

(** The result is the pair of what was written to [std::cout] and the
    tensor returned. *)
Definition two_mode_squeezing_cpp (mem : nat -> T) (R : list T)
    (resolution : Z) : option (list T * list T) :=
  '(Hdim, out, _) ← two_mode_start mem R resolution;
  '(_, H) ← two_mode_run mem R resolution (Z.to_nat (wrap64 (Hdim - 1)));
  Some (out, H).

(** ** Specification-level readings of a tensor *)

(** What the recurrence [H_{p+e_k} = y_k H_p - sum_i p_i R_{k,i} H_{p-e_i}]
    prescribes for the entry after [p] along axis [k], read off a tensor
    [H]; coordinates are photon counts plus one. *)
Definition entry (H : list T) (resolution : Z) (pos : list Z) : T :=
  default tzero (vec2index pos resolution ≫= vec_at H).

Definition scalar_sum (ts : list T) : T := foldr tadd tzero ts.

Definition active_axes (p : list Z) (lo n : nat) : list nat :=
  filter (fun i => coordinate p i > 1) (seq lo n).

(** One correction term [c * R[k*dim+i] * H[flatten(jumpFrom - e_i)]],
    read off a tensor [H]; [cval] gives the factor [c] from [jumpFrom[i]]. *)
Definition correction_term (cval : Z -> T) (R : list T) (resolution : Z)
    (dim k : nat) (jumpFrom : list Z) (H : list T) (i : nat) : T :=
  tmul (tmul (cval (coordinate jumpFrom i))
             (default tzero (R !! (k * dim + i)%nat)))
       (entry H resolution (decrement jumpFrom i)).

(** [a] after the terms of the axes [lo .. lo+n-1] on which [jumpFrom]
    exceeds one were subtracted from it, one after the other. *)
Definition subtract_corrections (cval : Z -> T) (R : list T) (resolution : Z)
    (dim k : nat) (jumpFrom : list Z) (H : list T) (lo n : nat) (a : T) : T :=
  fold_left (fun acc i =>
               tsub acc (correction_term cval R resolution dim k jumpFrom H i))
            (active_axes jumpFrom lo n) a.

Definition plain_val (jf : Z) : T := of_int (jf - 1).

(** The factor [sqrt(jumpFrom[i]-1)/sqrt(nextPos[k]-1)] of the normalized
    fills. *)
Definition normalized_val (nextPos : list Z) (k : nat) (jf : Z) : T :=
  tdiv (sqrt_of_int (jf - 1)) (sqrt_of_int (coordinate nextPos k - 1)).

Definition hermite_rhs (R y : list T) (resolution : Z) (dim k : nat)
    (H : list T) (p : list Z) : T :=
  tsub (tmul (entry H resolution p) (default tzero (y !! k)))
       (scalar_sum
          (correction_term plain_val R resolution dim k p H
             <$> active_axes p 0 dim)).

(** What an accepted step of a fill with a selection rule leaves in the
    tensor: entry [flatten(nextPos)] becomes the value it held minus the
    corrections of the axes in the limits; nothing else changes. *)
Definition after_accepted (limits : nat -> nat * nat) (R : list T)
    (resolution : Z) (dim : nat) (it : iterator) (k : nat) (H : list T)
  : list T :=
  <[Z.to_nat (mixed_radix resolution (nextPos it)) :=
      subtract_corrections (normalized_val (nextPos it) k) R resolution dim k
        (jumpFrom it) H (fst (limits k)) (snd (limits k) - fst (limits k))
        (entry H resolution (nextPos it))]> H.

(** The base term the specification describes for the fills without a
    source vector: [H[fromCoord] * 1], from which the corrections are then
    subtracted. *)
Definition after_accepted_from_predecessor (limits : nat -> nat * nat)
    (R : list T) (resolution : Z) (dim : nat) (it : iterator) (k : nat)
    (H : list T) : list T :=
  <[Z.to_nat (mixed_radix resolution (nextPos it)) :=
      subtract_corrections (normalized_val (nextPos it) k) R resolution dim k
        (jumpFrom it) H (fst (limits k)) (snd (limits k) - fst (limits k))
        (tmul (entry H resolution (jumpFrom it)) tone)]> H.

(** The half of the axes that does not contain axis [k], as the
    specification describes the correction range of the interferometer:
    the second half for [k] in the first, the first half for [k] in the
    second. *)
Definition complementary_half (num_modes dim k : nat) : nat * nat :=
  if bool_decide (k < num_modes)%nat then (num_modes, dim)
  else (0%nat, num_modes).

(** Iteration [n+1] of a fill with a selection rule, started from the
    tensor [start] and run by [run]: when the rule accepts the new
    position, the entry written is the value stored at that offset minus
    the corrections, which is still the value the tensor held there at the
    head of the loop; when the rule rejects it, the tensor is unchanged. *)
Definition subtracts_from_stored (start : option (list T))
    (run : nat -> option (iterator * list T))
    (accepts : list Z -> option bool) (limits : nat -> nat * nat)
    (R : list T) (resolution : Z) (dim n : nat) : Prop :=
  exists (Hinit : list T) (it it' : iterator) (k : nat) (H0 H1 : list T)
         (b : bool),
    start = Some Hinit /\
    run n = Some (it, H0) /\
    update_iterator it resolution dim = Some (it', k) /\
    run (S n) = Some (it', H1) /\
    accepts (nextPos it') = Some b /\
    (if b then
       H1 = after_accepted limits R resolution dim it' k H0 /\
       entry H0 resolution (nextPos it')
       = entry Hinit resolution (nextPos it')
     else H1 = H0).

(** A tensor that is zero everywhere but at offset [0]: what a zero-filled
    tensor is once the seed is stored. *)
Definition cleared (H : list T) : Prop :=
  forall i : nat, (1 <= i < length H)%nat -> H !! i = Some tzero.

(** Iteration [n+1] of a fill with a selection rule, as the specification
    describes it: when the rule accepts the new position, the entry
    written is the base term [H[fromCoord] * 1] minus the corrections;
    when the rule rejects it, the tensor is unchanged. *)
Definition starts_from_predecessor (start : option (list T))
    (run : nat -> option (iterator * list T))
    (accepts : list Z -> option bool) (limits : nat -> nat * nat)
    (R : list T) (resolution : Z) (dim n : nat) : Prop :=
  exists (Hinit : list T) (it it' : iterator) (k : nat) (H0 H1 : list T)
         (b : bool),
    start = Some Hinit /\
    run n = Some (it, H0) /\
    update_iterator it resolution dim = Some (it', k) /\
    run (S n) = Some (it', H1) /\
    accepts (nextPos it') = Some b /\
    (if b then
       H1 = after_accepted_from_predecessor limits R resolution dim it' k H0
     else H1 = H0).

(** The three fills without a source vector, as the specification's table
    lists them, with the shape each requires of [dim] and the pieces each
    is made of. *)
Inductive variant : Type := Interferometer | Squeezer | TwoModeSqueezer.

Definition variant_shape (v : variant) (dim : nat) : Prop :=
  match v with
  | Interferometer => (dim mod 2 = 0)%nat
  | Squeezer => dim = 2%nat
  | TwoModeSqueezer => dim = 4%nat
  end.

(** The tensor at the head of the fill loop. *)
Definition variant_start (v : variant) (mem : nat -> T) (R : list T)
    (resolution : Z) : option (list T) :=
  match v with
  | Interferometer =>
      (fun x => snd (snd x)) <$> interferometer_start mem R resolution
  | Squeezer => (fun x => snd (snd x)) <$> squeezing_start mem R resolution
  | TwoModeSqueezer =>
      (fun x => snd (snd x)) <$> two_mode_start mem R resolution
  end.

Definition variant_run (v : variant) (mem : nat -> T) (R : list T)
    (resolution : Z) : nat -> option (iterator * list T) :=
  match v with
  | Interferometer => interferometer_run mem R resolution
  | Squeezer => squeezing_run mem R resolution
  | TwoModeSqueezer => two_mode_run mem R resolution
  end.

Definition variant_accepts (v : variant) (dim : nat)
  : list Z -> option bool :=
  match v with
  | Interferometer => interferometer_accepts (dim / 2) dim
  | Squeezer => squeezing_accepts
  | TwoModeSqueezer => two_mode_accepts
  end.

Definition variant_limits (v : variant) (dim : nat) : nat -> nat * nat :=
  match v with
  | Interferometer => interferometer_limits (dim / 2) dim
  | Squeezer => all_axes dim
  | TwoModeSqueezer => all_axes dim
  end.

End Engine.


(** ** The remaining fills *)

(** What [displacement_cpp] needs beyond [Scalar]: the constant [0.5] and
    [std::exp]. *)
Class ScalarExp (T : Type) `{Scalar T} : Type := {
  thalf : T;
  texp : T -> T
}.

Section OtherFills.
Context {T : Type} `{Scalar T}.

(** *** [renorm_hermite_multidimensional_cpp] *)

Definition renorm_body (R y intsqrt : list T) (resolution : Z) (dim : nat)
    (s : iterator * list T) : option (iterator * list T) :=
  '(it, k) ← update_iterator (fst s) resolution dim;
  nextCoordinate ← vec2index (nextPos it) resolution;
  fromCoordinate ← vec2index (jumpFrom it) resolution;
  hfrom ← vec_at (snd s) fromCoordinate;
  yk ← y !! k;
  nk ← nextPos it !! k;
  sq ← vec_at intsqrt (nk - 1);
  H1 ← vec_put (snd s) nextCoordinate (tdiv (tmul hfrom yk) sq);
  H2 ← correction_loop (normalized_coef intsqrt (nextPos it) k) R resolution
                       dim k (jumpFrom it) nextCoordinate dim 0 H1;
  Some (it, H2).

Definition renorm_start (mem : nat -> T) (R : list T) (resolution : Z)
  : option (Z * (iterator * list T)) :=
  '(Hdim, H0) ← allocate mem resolution (dim_of R);
  H1 ← vec_put H0 0 tone;
  Some (Hdim, (initial_iterator (dim_of R), H1)).

Definition renorm_run (mem : nat -> T) (R y : list T) (resolution : Z)
    (n : nat) : option (iterator * list T) :=
  '(_, s) ← renorm_start mem R resolution;
  intsqrt ← build_intsqrt resolution;
  repeat_body (renorm_body R y intsqrt resolution (dim_of R)) n s.

Definition renorm_hermite_multidimensional_cpp (mem : nat -> T)
    (R y : list T) (resolution : Z) : option (list T) :=
  '(Hdim, _) ← renorm_start mem R resolution;
  snd <$> renorm_run mem R y resolution (Z.to_nat (wrap64 (Hdim - 1))).

(** *** [displacement_cpp] *)

(** [int dim = 2]; there is no [R], and the one correction is on the axis
    other than [k]: [ii = 0; if (k == 0) ii = 1;]. *)
Definition displacement_body (y intsqrt : list T) (resolution : Z)
    (s : iterator * list T) : option (iterator * list T) :=
  '(it, k) ← update_iterator (fst s) resolution 2;
  nextCoordinate ← vec2index (nextPos it) resolution;
  fromCoordinate ← vec2index (jumpFrom it) resolution;
  hfrom ← vec_at (snd s) fromCoordinate;
  yk ← y !! k;
  nk ← nextPos it !! k;
  sq ← vec_at intsqrt (nk - 1);
  H1 ← vec_put (snd s) nextCoordinate (tdiv (tmul hfrom yk) sq);
  let ii := if bool_decide (k = 0%nat) then 1%nat else 0%nat in
  jf ← jumpFrom it !! ii;
  H2 ← (if bool_decide (jf > 1) then
          prevJump ← unit_vector 2 ii;
          let tmpjump := vec_minus (jumpFrom it) prevJump in
          prevCoordinate ← vec2index tmpjump resolution;
          c ← normalized_coef intsqrt (nextPos it) k jf;
          hp ← vec_at H1 prevCoordinate;
          hn ← vec_at H1 nextCoordinate;
          vec_put H1 nextCoordinate (tsub hn (tmul c hp))
        else Some H1);
  Some (it, H2).

Definition displacement_start `{!ScalarExp T} (mem : nat -> T) (y : list T)
    (resolution : Z) : option (Z * (iterator * list T)) :=
  '(Hdim, H0) ← allocate mem resolution 2;
  y0 ← y !! 0%nat;
  y1 ← y !! 1%nat;
  H1 ← vec_put H0 0 (texp (tmul (tmul thalf y0) y1));
  Some (Hdim, (initial_iterator 2, H1)).

Definition displacement_run `{!ScalarExp T} (mem : nat -> T) (y : list T)
    (resolution : Z) (n : nat) : option (iterator * list T) :=
  '(_, s) ← displacement_start mem y resolution;
  intsqrt ← build_intsqrt resolution;
  repeat_body (displacement_body y intsqrt resolution) n s.

Definition displacement_cpp `{!ScalarExp T} (mem : nat -> T) (y : list T)
    (resolution : Z) : option (list T) :=
  '(Hdim, _) ← displacement_start mem y resolution;
  snd <$> displacement_run mem y resolution (Z.to_nat (wrap64 (Hdim - 1))).

(** *** What a step writes, read off a tensor *)

(** The lowest axis on which a multi-index exceeds one: the number of its
    leading ones. *)
Fixpoint leading_ones (pos : list Z) : nat :=
  match pos with
  | [] => 0%nat
  | p :: rest => if bool_decide (p = 1) then S (leading_ones rest) else 0%nat
  end.

(** The enumerator's state when it has just reached [pos]. *)
Definition iterator_at (pos : list Z) : iterator :=
  {| nextPos := pos;
     jumpFrom := decrement pos (leading_ones pos);
     jump := leading_ones pos |}.

(** The entry the unnormalized fill writes at [nextPos it]: the base term,
    then the corrections subtracted one after the other. *)
Definition hermite_value (R y : list T) (resolution : Z) (dim : nat)
    (it : iterator) (k : nat) (H : list T) : T :=
  subtract_corrections plain_val R resolution dim k (jumpFrom it) H 0 dim
    (tmul (entry H resolution (jumpFrom it)) (default tzero (y !! k))).

(** The same for the normalized fill. *)
Definition renorm_value (R y : list T) (resolution : Z) (dim : nat)
    (it : iterator) (k : nat) (H : list T) : T :=
  subtract_corrections (normalized_val (nextPos it) k) R resolution dim k
    (jumpFrom it) H 0 dim
    (tdiv (tmul (entry H resolution (jumpFrom it)) (default tzero (y !! k)))
          (sqrt_of_int (coordinate (nextPos it) k - 1))).

(** The same for the displacement fill. *)
Definition displacement_value (y : list T) (resolution : Z) (it : iterator)
    (k : nat) (H : list T) : T :=
  let ii := if bool_decide (k = 0%nat) then 1%nat else 0%nat in
  let base :=
    tdiv (tmul (entry H resolution (jumpFrom it)) (default tzero (y !! k)))
         (sqrt_of_int (coordinate (nextPos it) k - 1)) in
  if bool_decide (coordinate (jumpFrom it) ii > 1) then
    tsub base
         (tmul (normalized_val (nextPos it) k (coordinate (jumpFrom it) ii))
               (entry H resolution (decrement (jumpFrom it) ii)))
  else base.

(** The entry a fill with a selection rule leaves at [nextPos it] when the
    offset held [a] before: [a] minus the corrections if the position is
    accepted, [a] itself if it is rejected. *)
Definition selective_value (accepts : list Z -> option bool)
    (limits : nat -> nat * nat) (R : list T) (resolution : Z) (dim : nat)
    (it : iterator) (k : nat) (H : list T) (a : T) : T :=
  match accepts (nextPos it) with
  | Some true =>
      subtract_corrections (normalized_val (nextPos it) k) R resolution dim k
        (jumpFrom it) H (fst (limits k)) (snd (limits k) - fst (limits k)) a
  | _ => a
  end.

(** The tensor a fill without a source vector returns. *)
Definition variant_result (v : variant) (mem : nat -> T) (R : list T)
    (resolution : Z) : option (list T) :=
  match v with
  | Interferometer => interferometer_cpp mem R resolution
  | Squeezer => squeezing_cpp mem R resolution
  | TwoModeSqueezer => snd <$> two_mode_squeezing_cpp mem R resolution
  end.

End OtherFills.

(** Scalars as the expressions the code builds: every operation is a
    constructor, so a fill evaluated on them shows what it computes for an
    arbitrary [T].  [Cell i] is the content of cell [i] of a fresh block. *)
Inductive term : Type :=
  | Lit (z : Z)
  | Cell (i : nat)
  | Add (a b : term)
  | Sub (a b : term)
  | Mul (a b : term)
  | Div (a b : term)
  | Opp (a : term)
  | SqrtInt (z : Z)
  | Sqrt (a : term)
  | PointerFill (a : term)
  | Half
  | Exp (a : term).

#[export] Instance term_scalar : Scalar term := {|
  tzero := Lit 0;
  tone := Lit 1;
  tadd := Add;
  tsub := Sub;
  tmul := Mul;
  tdiv := Div;
  topp := Opp;
  of_int := Lit;
  sqrt_of_int := SqrtInt;
  tsqrt := Sqrt;
  pointer_fill := PointerFill;
  sizeof_T := 16;
  sizeof_T_range := conj (Zle_bool_imp_le 8 16 eq_refl)
                         (Zle_bool_imp_le 16 32 eq_refl)
|}.

#[export] Instance term_scalar_exp : ScalarExp term := {|
  thalf := Half;
  texp := Exp
|}.
(** * Properties *)

(** ** Flattening lemmas *)

Lemma pow_succ_nat (r : Z) (n : nat) :
  r ^ Z.of_nat (S n) = r * r ^ Z.of_nat n.
Proof. rewrite Nat2Z.inj_succ. apply Z.pow_succ_r. lia. Qed.

Lemma pow_nat_pos (r : Z) (n : nat) : 1 <= r -> 1 <= r ^ Z.of_nat n.
Proof.
  intros Hr. induction n as [|n IH]; [reflexivity|].
  rewrite pow_succ_nat. nia.
Qed.

Lemma int_add_fits (a b : Z) :
  int_min <= a + b <= int_max -> int_add a b = Some (a + b).
Proof. intros Hab. unfold int_add. rewrite bool_decide_eq_true_2; done. Qed.

Lemma int_min_neg : int_min < 0.
Proof. reflexivity. Qed.

Lemma exact_double_max_small : exact_double_max < ullint_modulus.
Proof. reflexivity. Qed.

Lemma machine_representable (res : Z) (dim : nat) :
  machine_fits res dim -> res ^ Z.of_nat dim < ullint_modulus.
Proof. intros [_ Hv]. pose proof exact_double_max_small. lia. Qed.

Lemma wrap64_small (z : Z) : 0 <= z < ullint_modulus -> wrap64 z = z.
Proof. intros Hz. unfold wrap64. apply Z.mod_small. exact Hz. Qed.

Lemma in_box_cons (r p : Z) (ps : list Z) :
  in_box r (p :: ps) <-> 1 <= p <= r /\ in_box r ps.
Proof. unfold in_box. apply (Forall_cons (fun x => 1 <= x <= r)). Qed.

Lemma mixed_radix_range (r : Z) (pos : list Z) :
  1 <= r -> in_box r pos ->
  0 <= mixed_radix r pos < r ^ Z.of_nat (length pos).
Proof.
  intros Hr. induction pos as [|p ps IH]; intros Hb.
  - simpl. lia.
  - apply in_box_cons in Hb as [Hp Hps]. specialize (IH Hps).
    cbn [mixed_radix length]. rewrite pow_succ_nat.
    pose proof (pow_nat_pos r (length ps) Hr). nia.
Qed.

(** The accumulation loop of [vec2index] computes a Horner scheme; as long
    as the final value fits in [ullint] no step wraps. *)
Lemma vec2index_loop (r : Z) (rest : list Z) (acc : Z) :
  1 <= r -> in_box r rest -> 0 <= acc ->
  (acc + 1) * r ^ Z.of_nat (length rest) <= ullint_modulus ->
  fold_left (fun nextCoordinate p => wrap64 (nextCoordinate * r + (p - 1)))
            rest acc
  = acc * r ^ Z.of_nat (length rest) + mixed_radix r rest.
Proof.
  intros Hr. revert acc.
  induction rest as [|p ps IH]; intros acc Hb Hacc Hfit.
  - simpl. lia.
  - apply in_box_cons in Hb as [Hp Hps].
    cbn [fold_left mixed_radix length] in *.
    rewrite pow_succ_nat in *.
    pose proof (pow_nat_pos r (length ps) Hr) as Hpow.
    assert (Hstep : 0 <= acc * r + (p - 1) < ullint_modulus) by nia.
    rewrite (wrap64_small _ Hstep).
    rewrite IH; [ring | exact Hps | lia | nia].
Qed.

Lemma vec2index_mixed_radix (r : Z) (pos : list Z) :
  1 <= r -> pos <> [] -> in_box r pos ->
  r ^ Z.of_nat (length pos) <= ullint_modulus ->
  vec2index pos r = Some (mixed_radix r pos).
Proof.
  intros Hr Hne Hb Hfit. destruct pos as [|p ps]; [congruence|].
  apply in_box_cons in Hb as [Hp Hps].
  cbn [vec2index mixed_radix length] in *. rewrite pow_succ_nat in Hfit.
  pose proof (pow_nat_pos r (length ps) Hr) as Hpow.
  f_equal. rewrite wrap64_small by nia.
  apply vec2index_loop; [exact Hr | exact Hps | lia | nia].
Qed.

Lemma length_index2vec (dim : nat) (r off : Z) :
  length (index2vec dim r off) = dim.
Proof. revert off. induction dim as [|d IH]; intros off; simpl; auto. Qed.

Lemma index2vec_mixed_radix (r : Z) (pos : list Z) :
  1 <= r -> in_box r pos ->
  index2vec (length pos) r (mixed_radix r pos) = pos.
Proof.
  intros Hr. induction pos as [|p ps IH]; intros Hb; [reflexivity|].
  apply in_box_cons in Hb as [Hp Hps].
  pose proof (mixed_radix_range r ps Hr Hps) as Hrng.
  pose proof (pow_nat_pos r (length ps) Hr) as Hpow.
  cbn [index2vec mixed_radix length].
  assert (Hq : ((p - 1) * r ^ Z.of_nat (length ps) + mixed_radix r ps)
                 / r ^ Z.of_nat (length ps) = p - 1).
  { rewrite Z.add_comm, Z.div_add by lia. rewrite Z.div_small by lia. lia. }
  assert (Hm : ((p - 1) * r ^ Z.of_nat (length ps) + mixed_radix r ps)
                 mod r ^ Z.of_nat (length ps) = mixed_radix r ps).
  { rewrite Z.add_comm, Z.mod_add by lia. apply Z.mod_small. lia. }
  rewrite Hq, Hm, IH by exact Hps. f_equal. lia.
Qed.

Lemma index2vec_in_box (dim : nat) (r off : Z) :
  1 <= r -> 0 <= off < r ^ Z.of_nat dim ->
  in_box r (index2vec dim r off).
Proof.
  intros Hr. revert off. induction dim as [|d IH]; intros off Hoff.
  - constructor.
  - cbn [index2vec]. rewrite pow_succ_nat in Hoff.
    pose proof (pow_nat_pos r d Hr) as Hpow.
    apply in_box_cons. split.
    + assert (0 <= off / r ^ Z.of_nat d) by (apply Z.div_pos; lia).
      assert (off / r ^ Z.of_nat d < r).
      { apply Z.div_lt_upper_bound; lia. }
      lia.
    + apply IH. apply Z.mod_pos_bound. lia.
Qed.

Lemma mixed_radix_index2vec (dim : nat) (r off : Z) :
  1 <= r -> 0 <= off < r ^ Z.of_nat dim ->
  mixed_radix r (index2vec dim r off) = off.
Proof.
  intros Hr. revert off. induction dim as [|d IH]; intros off Hoff.
  - simpl in *. lia.
  - cbn [index2vec mixed_radix]. rewrite length_index2vec.
    pose proof (pow_nat_pos r d Hr) as Hpow.
    rewrite IH by (apply Z.mod_pos_bound; lia).
    pose proof (Z.div_mod off (r ^ Z.of_nat d)). lia.
Qed.

Lemma mixed_radix_inj (r : Z) (p q : list Z) :
  1 <= r -> in_box r p -> in_box r q -> length p = length q ->
  mixed_radix r p = mixed_radix r q -> p = q.
Proof.
  intros Hr Hp Hq Hlen Heq.
  rewrite <- (index2vec_mixed_radix r p Hr Hp).
  rewrite <- (index2vec_mixed_radix r q Hr Hq).
  rewrite Hlen, Heq. reflexivity.
Qed.

(** ** Checked subscripts *)

Lemma vec_set_middle {A : Type} (pre rest : list A) (x v : A) (n : nat) :
  n = length pre ->
  vec_set (pre ++ x :: rest) n v = Some (pre ++ v :: rest).
Proof.
  intros ->. unfold vec_set. rewrite list_lookup_middle by reflexivity. simpl.
  rewrite insert_app_r_alt by lia. rewrite Nat.sub_diag. reflexivity.
Qed.

Lemma repeat_body_snoc {S : Type} (body : S -> option S) (n : nat) (s : S) :
  repeat_body body (Datatypes.S n) s = repeat_body body n s ≫= body.
Proof.
  revert s. induction n as [|n IH]; intros s.
  - simpl. destruct (body s); reflexivity.
  - change (repeat_body body (Datatypes.S (Datatypes.S n)) s)
      with (body s ≫= repeat_body body (Datatypes.S n)).
    change (repeat_body body (Datatypes.S n) s)
      with (body s ≫= repeat_body body n).
    destruct (body s) as [s'|]; simpl; [apply IH | reflexivity].
Qed.

(** ** The enumerator, one call *)

(** The carry loop started at axis [length pre] on a position whose next
    [c] axes are full and whose axis after those is not: the full axes are
    reset, the free one is stepped, and [jumpFrom] records where it came
    from. *)
Lemma carry_loop_spec (res : Z) (c : nat) :
  forall (pre qre qover : list Z) (p q : Z) (rest qrest : list Z) (j : nat),
    length qre = length pre -> length qover = c -> 1 + p <= res ->
    1 <= p -> res <= int_max -> (c = 0%nat \/ res < int_max) ->
    carry_loop res (c + Datatypes.S (length rest)) (length pre)
      {| nextPos := pre ++ replicate c res ++ p :: rest;
         jumpFrom := qre ++ qover ++ q :: qrest;
         jump := j |}
    = Some {| nextPos := pre ++ replicate c 1 ++ (p + 1) :: rest;
              jumpFrom := qre ++ replicate c 1 ++ p :: qrest;
              jump := match c with O => j | _ => (length pre + c)%nat end |}.
Proof.
  pose proof int_min_neg as Hmin.
  induction c as [|c IH];
    intros pre qre qover p q rest qrest j Hq Hover Hp Hp1 Hint Hcarry.
  - destruct qover; [|discriminate]. cbn [replicate app Nat.add carry_loop nextPos jumpFrom jump].
    rewrite list_lookup_middle by reflexivity. cbn [mbind option_bind].
    rewrite !int_add_fits by lia. cbn [mbind option_bind].
    rewrite bool_decide_eq_false_2 by lia.
    rewrite !vec_set_middle by congruence. reflexivity.
  - destruct qover as [|q0 qover]; [discriminate|]. injection Hover as Hover.
    destruct Hcarry as [Hcarry|Hcarry]; [discriminate|].
    cbn [replicate app Nat.add carry_loop nextPos jumpFrom jump].
    rewrite list_lookup_middle by reflexivity. cbn [mbind option_bind].
    rewrite (int_add_fits 1 res) by lia. cbn [mbind option_bind].
    rewrite bool_decide_eq_true_2 by lia.
    rewrite !vec_set_middle by congruence.
    cbn [mbind option_bind].
    pose proof (IH (pre ++ [1]) (qre ++ [1]) qover p q rest qrest
                   (Datatypes.S (length pre))) as IH'.
    rewrite !length_app in IH'. cbn [length] in IH'.
    rewrite <- !app_assoc in IH'. cbn [app] in IH'.
    replace (length pre + 1)%nat with (Datatypes.S (length pre)) in IH' by lia.
    rewrite IH' by (lia || (right; lia)). f_equal. f_equal. destruct c; lia.
Qed.

Lemma first_difference_spec (c : nat) :
  forall (pre qre : list Z) (x y : Z) (ra rb : list Z) (m : nat),
    length qre = length pre -> x <> y ->
    first_difference (c + Datatypes.S m) (length pre)
      (pre ++ replicate c 1 ++ x :: ra) (qre ++ replicate c 1 ++ y :: rb)
    = Some (length pre + c)%nat.
Proof.
  induction c as [|c IH]; intros pre qre x y ra rb m Hq Hxy.
  - cbn [replicate app Nat.add first_difference].
    rewrite (list_lookup_middle pre) by reflexivity.
    rewrite (list_lookup_middle qre) by congruence.
    cbn [mbind option_bind]. rewrite bool_decide_eq_true_2 by exact Hxy.
    f_equal. lia.
  - cbn [replicate app Nat.add first_difference].
    rewrite (list_lookup_middle pre) by reflexivity.
    rewrite (list_lookup_middle qre) by congruence.
    cbn [mbind option_bind]. rewrite bool_decide_eq_false_2 by tauto.
    pose proof (IH (pre ++ [1]) (qre ++ [1]) x y ra rb m) as IH'.
    rewrite !length_app in IH'. cbn [length] in IH'.
    rewrite <- !app_assoc in IH'. cbn [app] in IH'.
    replace (length pre + 1)%nat with (Datatypes.S (length pre)) in IH' by lia.
    rewrite IH' by (lia || exact Hxy). f_equal. lia.
Qed.

Lemma carry_loop_aligned (res : Z) (c : nat) (p : Z) (rest jf : list Z) :
  1 + p <= res ->
  1 <= p -> res <= int_max -> (c = 0%nat \/ res < int_max) ->
  aligned (replicate c res ++ p :: rest) jf ->
  carry_loop res (c + S (length rest)) 0
    {| nextPos := replicate c res ++ p :: rest; jumpFrom := jf; jump := 0 |}
  = Some {| nextPos := replicate c 1 ++ (p + 1) :: rest;
            jumpFrom := replicate c 1 ++ p :: rest;
            jump := c |}.
Proof.
  intros Hp Hp1 Hint Hcarry [Hlen Hdrop].
  rewrite length_app, length_replicate in Hlen. cbn [length] in Hlen.
  destruct (lookup_lt_is_Some_2 jf c) as [q Hq]; [lia|].
  assert (Hrest : drop (S c) jf = rest).
  { change (drop (S c) jf) with (drop (1 + c) jf).
    rewrite <- (drop_drop jf c 1), Hdrop, drop_drop. cbn [Nat.add].
    clear. induction c as [|c IH]; [reflexivity | exact IH]. }
  rewrite <- (take_drop_middle jf c q Hq), Hrest.
  pose proof (carry_loop_spec res c [] [] (take c jf) p q rest rest 0%nat) as Hc.
  cbn [app length Nat.add] in Hc. rewrite Hc.
  - f_equal. f_equal. destruct c; reflexivity.
  - reflexivity.
  - rewrite length_take. lia.
  - exact Hp.
  - exact Hp1.
  - exact Hint.
  - exact Hcarry.
Qed.

(** After the deferred adjustment of [jumpFrom[jump]], a state left by an
    earlier call (or the initial one) is aligned. *)
Lemma stepped_aligned (res : Z) (it : iterator) (k : nat) :
  res <= int_max -> stepped res it k ->
  exists it1,
    deferred_jump it = Some it1 /\
    nextPos it1 = nextPos it /\ jump it1 = 0%nat /\
    aligned (nextPos it1) (jumpFrom it1).
Proof.
  intros Hint (p & rest & Hnp & Hjf & Hj & Hp & Hrest).
  pose proof int_min_neg as Hmin. unfold deferred_jump.
  destruct it as [np jf j]. cbn [nextPos jumpFrom jump] in *. subst np jf j.
  destruct k as [|k].
  - rewrite bool_decide_eq_false_2 by lia. eexists. split; [reflexivity|].
    cbn [nextPos jumpFrom jump replicate app]. repeat split.
  - rewrite bool_decide_eq_true_2 by lia.
    rewrite list_lookup_middle by (rewrite length_replicate; reflexivity).
    cbn [mbind option_bind]. rewrite int_add_fits by lia.
    cbn [mbind option_bind]. eexists. split; [reflexivity|].
    cbn [nextPos jumpFrom jump]. repeat split.
    + rewrite length_insert, !length_app. reflexivity.
    + f_equal. rewrite insert_app_r_alt by (rewrite length_replicate; lia).
      rewrite length_replicate, Nat.sub_diag. reflexivity.
Qed.

Lemma update_iterator_step (res : Z) (it it1 : iterator) (c : nat) (p : Z)
    (rest : list Z) :
  deferred_jump it = Some it1 ->
  nextPos it1 = replicate c res ++ p :: rest -> jump it1 = 0%nat ->
  aligned (nextPos it1) (jumpFrom it1) ->
  1 + p <= res ->
  1 <= p -> res <= int_max -> (c = 0%nat \/ res < int_max) ->
  update_iterator it res (c + S (length rest))
  = Some ({| nextPos := replicate c 1 ++ (p + 1) :: rest;
             jumpFrom := replicate c 1 ++ p :: rest;
             jump := c |}, c).
Proof.
  intros Hfix Hnp Hj Hal Hp Hp1 Hint Hcarry. unfold update_iterator.
  rewrite Hfix. cbn [mbind option_bind].
  destruct it1 as [np jf j]. cbn [nextPos jumpFrom jump] in *. subst np j.
  rewrite (carry_loop_aligned res c p rest jf Hp Hp1 Hint Hcarry Hal).
  cbn [mbind option_bind nextPos jumpFrom].
  pose proof (first_difference_spec c [] [] (p + 1) p rest rest (length rest))
    as Hk.
  cbn [app length Nat.add] in Hk. rewrite Hk by (reflexivity || lia).
  reflexivity.
Qed.

(** ** Odometer order *)

Lemma in_box_app (r : Z) (a b : list Z) :
  in_box r (a ++ b) <-> in_box r a /\ in_box r b.
Proof. unfold in_box. apply Forall_app. Qed.

Lemma in_box_replicate (r v : Z) (n : nat) :
  1 <= v <= r -> in_box r (replicate n v).
Proof. intros Hv. unfold in_box. apply Forall_replicate. exact Hv. Qed.

Lemma odometer_value_range (r : Z) (pos : list Z) :
  1 <= r -> in_box r pos ->
  0 <= odometer_value r pos < r ^ Z.of_nat (length pos).
Proof.
  intros Hr. induction pos as [|p ps IH]; intros Hb.
  - simpl. lia.
  - apply in_box_cons in Hb as [Hp Hps]. specialize (IH Hps).
    cbn [odometer_value length]. rewrite pow_succ_nat. nia.
Qed.

Lemma odometer_value_ones (r : Z) (n : nat) :
  odometer_value r (replicate n 1) = 0.
Proof. induction n as [|n IH]; simpl; [reflexivity | rewrite IH; lia]. Qed.

Lemma odometer_value_full (r : Z) (n : nat) :
  odometer_value r (replicate n r) = r ^ Z.of_nat n - 1.
Proof.
  induction n as [|n IH]; [reflexivity|].
  cbn [replicate odometer_value]. rewrite IH, pow_succ_nat. ring.
Qed.

(** Stepping the first free axis and resetting the full ones below it is
    the successor in odometer order. *)
Lemma odometer_value_step (r : Z) (c : nat) (p : Z) (rest : list Z) :
  odometer_value r (replicate c 1 ++ (p + 1) :: rest)
  = odometer_value r (replicate c r ++ p :: rest) + 1.
Proof.
  induction c as [|c IH]; cbn [replicate app odometer_value].
  - ring.
  - rewrite IH. ring.
Qed.

(** The same-axis predecessor sits [r^c] places earlier. *)
Lemma odometer_value_back (r : Z) (c : nat) (p : Z) (rest : list Z) :
  odometer_value r (replicate c 1 ++ (p + 1) :: rest)
  = odometer_value r (replicate c 1 ++ p :: rest) + r ^ Z.of_nat c.
Proof.
  induction c as [|c IH]; cbn [replicate app odometer_value].
  - change (Z.of_nat 0) with 0. rewrite Z.pow_0_r. ring.
  - rewrite IH, pow_succ_nat. ring.
Qed.

(** A position in the box is either the last one or has a first axis that
    is not full. *)
Lemma in_box_split (r : Z) (pos : list Z) :
  in_box r pos ->
  pos = replicate (length pos) r \/
  exists (c : nat) (p : Z) (rest : list Z),
    pos = replicate c r ++ p :: rest /\ 1 <= p < r /\ in_box r rest.
Proof.
  induction pos as [|p ps IH]; intros Hb; [left; reflexivity|].
  apply in_box_cons in Hb as [Hp Hps].
  destruct (decide (p = r)) as [->|Hne].
  - destruct (IH Hps) as [Hfull | (c & q & rest & Heq & Hq & Hrest)].
    + left. cbn [length replicate]. f_equal. exact Hfull.
    + right. exists (S c), q, rest. cbn [replicate app].
      split; [f_equal; exact Heq | split; assumption].
  - right. exists 0%nat, p, ps. cbn [replicate app].
    split; [reflexivity | split; [lia | exact Hps]].
Qed.

Lemma odometer_value_inj (r : Z) (p q : list Z) :
  1 <= r -> in_box r p -> in_box r q -> length p = length q ->
  odometer_value r p = odometer_value r q -> p = q.
Proof.
  intros Hr. revert q. induction p as [|x p IH]; intros [|y q] Hp Hq Hlen Heq;
    try discriminate; [reflexivity|].
  apply in_box_cons in Hp as [Hx Hp]. apply in_box_cons in Hq as [Hy Hq].
  cbn [odometer_value length] in *.
  assert (x = y /\ odometer_value r p = odometer_value r q) as [-> Hv].
  { destruct (Z.lt_trichotomy (odometer_value r p) (odometer_value r q))
      as [Hlt | [Heq' | Hgt]]; [nia | lia | nia]. }
  f_equal. apply IH; [exact Hp | exact Hq | lia | exact Hv].
Qed.

(** ** The enumerator over a whole fill *)

Lemma stepped_length (res : Z) (it : iterator) (k : nat) :
  stepped res it k ->
  length (jumpFrom it) = length (nextPos it) /\ (k < length (nextPos it))%nat.
Proof.
  intros (p & rest & -> & -> & _). rewrite !length_app, length_replicate.
  cbn [length]. lia.
Qed.

Lemma stepped_in_box (res : Z) (it : iterator) (k : nat) :
  1 <= res -> stepped res it k ->
  in_box res (nextPos it) /\ in_box res (jumpFrom it).
Proof.
  intros Hr (p & rest & -> & -> & _ & Hp & Hrest).
  split; apply in_box_app; (split; [apply in_box_replicate; lia|]);
    apply in_box_cons; (split; [lia | exact Hrest]).
Qed.

(** One call from a state the fill can be in, as long as the position is
    not the last one. *)
Lemma update_iterator_next (res : Z) (dim : nat) (it : iterator) :
  1 <= res ->
  res <= int_max ->
  res < int_max \/ odometer_value res (nextPos it) + 1 < res ->
  length (nextPos it) = dim -> in_box res (nextPos it) ->
  odometer_value res (nextPos it) < res ^ Z.of_nat dim - 1 ->
  it = initial_iterator dim \/ (exists k, stepped res it k) ->
  exists (it' : iterator) (k : nat),
    update_iterator it res dim = Some (it', k) /\
    stepped res it' k /\
    length (nextPos it') = dim /\
    odometer_value res (nextPos it')
    = odometer_value res (nextPos it) + 1.
Proof.
  intros Hr Hint Hov Hlen Hbox Hval Hst.
  destruct (in_box_split res (nextPos it) Hbox)
    as [Hfull | (c & p & rest & Hnp & Hp & Hrest)].
  { rewrite Hfull, odometer_value_full, Hlen in Hval. lia. }
  assert (Hfix : exists it1,
    deferred_jump it = Some it1 /\
    nextPos it1 = nextPos it /\ jump it1 = 0%nat /\
    aligned (nextPos it1) (jumpFrom it1)).
  { destruct Hst as [-> | [k Hk]].
    - exists (initial_iterator dim). unfold deferred_jump.
      cbn [initial_iterator jump].
      rewrite bool_decide_eq_false_2 by lia. repeat split.
    - exact (stepped_aligned res it k Hint Hk). }
  destruct Hfix as (it1 & Hfix & Hnp1 & Hj1 & Hal).
  assert (Hdim : dim = (c + S (length rest))%nat).
  { rewrite <- Hlen, Hnp, length_app, length_replicate. reflexivity. }
  assert (Hcarry : c = 0%nat \/ res < int_max).
  { destruct c as [|c]; [left; reflexivity | right].
    destruct Hov as [Hov|Hov]; [exact Hov | exfalso].
    rewrite Hnp in Hov, Hbox. cbn [replicate app odometer_value] in Hov, Hbox.
    apply in_box_cons in Hbox as [_ Hbox].
    pose proof (odometer_value_range res _ Hr Hbox) as [Hrng _].
    pose proof (Z.mul_nonneg_nonneg res _ ltac:(lia) Hrng). lia. }
  rewrite Hnp in Hnp1.
  pose proof (update_iterator_step res it it1 c p rest Hfix Hnp1 Hj1 Hal
                ltac:(lia) ltac:(lia) Hint Hcarry) as Hcall.
  rewrite <- Hdim in Hcall.
  eexists _, c. split; [exact Hcall|]. cbn [nextPos].
  split; [|split].
  - exists p, rest. cbn [nextPos jumpFrom jump]. repeat split; (lia || done).
  - rewrite length_app, length_replicate. cbn [length]. lia.
  - rewrite Hnp. apply odometer_value_step.
Qed.

Lemma iterator_run_S (res : Z) (dim n : nat) :
  iterator_run res dim (S n)
  = iterator_run res dim n
      ≫= (fun it => fst <$> update_iterator it res dim).
Proof. unfold iterator_run. apply repeat_body_snoc. Qed.

(** The state after [n] calls, for every [n] a fill makes: the position is
    the [n]-th of the box in odometer order. *)
Lemma iterator_run_inv (res : Z) (dim n : nat) :
  1 <= res -> no_overflow_before res n -> Z.of_nat n < res ^ Z.of_nat dim ->
  exists it : iterator,
    iterator_run res dim n = Some it /\
    length (nextPos it) = dim /\ in_box res (nextPos it) /\
    odometer_value res (nextPos it) = Z.of_nat n /\
    (n = 0%nat /\ it = initial_iterator dim \/ exists k, stepped res it k).
Proof.
  intros Hr. induction n as [|n IH]; intros [Hint Hov] Hn.
  - exists (initial_iterator dim). cbn [initial_iterator nextPos].
    split; [reflexivity|]. split; [apply length_replicate|].
    split; [apply in_box_replicate; lia|].
    split; [apply odometer_value_ones|]. left. split; reflexivity.
  - destruct IH as (it & Hrun & Hlen & Hbox & Hval & Hst);
      [split; [exact Hint | lia] | lia |].
    destruct (update_iterator_next res dim it Hr Hint ltac:(lia) Hlen Hbox) as
      (it' & k & Hcall & Hstep & Hlen' & Hval'); [lia | |].
    { destruct Hst as [[_ ->] | Hk]; [left; reflexivity | right; exact Hk]. }
    exists it'. rewrite iterator_run_S, Hrun. cbn [mbind option_bind].
    rewrite Hcall. split; [reflexivity|]. split; [exact Hlen'|].
    split; [exact (proj1 (stepped_in_box res it' k Hr Hstep))|].
    split; [lia|]. right. exists k. exact Hstep.
Qed.

(** The [(n+1)]-th call of a fill. *)
Lemma iterator_call (res : Z) (dim n : nat) :
  1 <= res -> no_overflow_before res (S n) ->
  Z.of_nat (S n) < res ^ Z.of_nat dim ->
  exists (it it' : iterator) (k : nat),
    iterator_run res dim n = Some it /\
    update_iterator it res dim = Some (it', k) /\
    iterator_run res dim (S n) = Some it' /\
    stepped res it' k /\ length (nextPos it') = dim /\
    odometer_value res (nextPos it') = Z.of_nat (S n).
Proof.
  intros Hr [Hint Hov] Hn.
  destruct (iterator_run_inv res dim n Hr) as
    (it & Hrun & Hlen & Hbox & Hval & Hst); [split; [exact Hint | lia] | lia |].
  destruct (update_iterator_next res dim it Hr Hint ltac:(lia) Hlen Hbox) as
    (it' & k & Hcall & Hstep & Hlen' & Hval'); [lia | |].
  { destruct Hst as [[_ ->] | Hk]; [left; reflexivity | right; exact Hk]. }
  exists it, it', k. rewrite iterator_run_S, Hrun. cbn [mbind option_bind].
  rewrite Hcall. repeat split; try done. lia.
Qed.

(** ** Predecessors *)

Lemma coordinate_cons_S (x : Z) (q : list Z) (i : nat) :
  coordinate (x :: q) (S i) = coordinate q i.
Proof. reflexivity. Qed.

Lemma decrement_cons_S (x : Z) (q : list Z) (i : nat) :
  decrement (x :: q) (S i) = x :: decrement q i.
Proof. reflexivity. Qed.

Lemma length_decrement (q : list Z) (i : nat) :
  length (decrement q i) = length q.
Proof. unfold decrement. apply length_insert. Qed.

Lemma odometer_value_decrement (r : Z) (q : list Z) (i : nat) :
  (i < length q)%nat ->
  odometer_value r (decrement q i) = odometer_value r q - r ^ Z.of_nat i.
Proof.
  revert i. induction q as [|x q IH]; intros i Hi; [simpl in Hi; lia|].
  destruct i as [|i].
  - change (decrement (x :: q) 0) with ((x - 1) :: q). cbn [odometer_value].
    change (Z.of_nat 0) with 0. rewrite Z.pow_0_r. ring.
  - rewrite decrement_cons_S. cbn [odometer_value].
    rewrite IH by (simpl in Hi; lia). rewrite pow_succ_nat. ring.
Qed.

Lemma in_box_decrement (r : Z) (q : list Z) (i : nat) :
  in_box r q -> coordinate q i > 1 -> in_box r (decrement q i).
Proof.
  revert i. induction q as [|x q IH]; intros i Hb Hc; [exact Hb|].
  apply in_box_cons in Hb as [Hx Hq]. destruct i as [|i].
  - change (decrement (x :: q) 0) with ((x - 1) :: q).
    change (coordinate (x :: q) 0) with x in Hc.
    apply in_box_cons. split; [lia | exact Hq].
  - rewrite decrement_cons_S. rewrite coordinate_cons_S in Hc.
    apply in_box_cons. split; [exact Hx | apply IH; assumption].
Qed.

Lemma coordinate_middle (pre rest : list Z) (x : Z) :
  coordinate (pre ++ x :: rest) (length pre) = x.
Proof. unfold coordinate. rewrite list_lookup_middle by reflexivity. reflexivity. Qed.

Lemma decrement_middle (pre rest : list Z) (x : Z) :
  decrement (pre ++ x :: rest) (length pre) = pre ++ (x - 1) :: rest.
Proof.
  unfold decrement. rewrite coordinate_middle.
  rewrite insert_app_r_alt by lia. rewrite Nat.sub_diag. reflexivity.
Qed.

(** [jumpFrom = nextPos - e_k] after a call that returned [k]. *)
Lemma stepped_decrement (res : Z) (it : iterator) (k : nat) :
  stepped res it k -> jumpFrom it = decrement (nextPos it) k.
Proof.
  intros (p & rest & -> & -> & _).
  rewrite <- (length_replicate k 1) at 3. rewrite decrement_middle.
  do 2 f_equal. lia.
Qed.

Lemma stepped_lookup (res : Z) (it : iterator) (k : nat) :
  stepped res it k ->
  (forall i, (i < k)%nat ->
     nextPos it !! i = Some 1 /\ jumpFrom it !! i = Some 1) /\
  exists p, 1 <= p < res /\
    nextPos it !! k = Some (p + 1) /\ jumpFrom it !! k = Some p.
Proof.
  intros (p & rest & -> & -> & _ & Hp & _). split.
  - intros i Hi.
    rewrite !lookup_app_l by (rewrite length_replicate; exact Hi).
    rewrite !lookup_replicate_2 by exact Hi. split; reflexivity.
  - exists p. split; [exact Hp|].
    split; apply list_lookup_middle; rewrite length_replicate; reflexivity.
Qed.

(** A position of the box that comes no later than the [n]-th in odometer
    order is the position of one of the first [n] states. *)
Lemma visited_before (res : Z) (dim n : nat) (p : list Z) :
  1 <= res -> no_overflow_before res n -> Z.of_nat n < res ^ Z.of_nat dim ->
  length p = dim -> in_box res p -> odometer_value res p <= Z.of_nat n ->
  exists m : nat,
    (m <= n)%nat /\ nextPos <$> iterator_run res dim m = Some p.
Proof.
  intros Hr [Hint Hov] Hn Hlen Hbox Hval.
  pose proof (odometer_value_range res p Hr Hbox) as Hrng.
  exists (Z.to_nat (odometer_value res p)). split; [lia|].
  destruct (iterator_run_inv res dim (Z.to_nat (odometer_value res p)) Hr)
    as (it & Hrun & Hlen' & Hbox' & Hval' & _);
    [split; [exact Hint | lia] | lia |].
  rewrite Hrun. cbn [fmap option_fmap option_map]. f_equal.
  apply (odometer_value_inj res); [exact Hr | exact Hbox' | exact Hbox | lia | lia].
Qed.

(** ** Tables *)

Lemma vec_at_nat {A : Type} (v : list A) (i : nat) :
  vec_at v (Z.of_nat i) = v !! i.
Proof.
  unfold vec_at. rewrite bool_decide_eq_true_2 by lia.
  rewrite Nat2Z.id. reflexivity.
Qed.

Lemma vec_at_intsqrt {T : Type} `{Scalar T} (res z : Z) :
  0 <= z <= res -> vec_at (intsqrt_table res) z = Some (sqrt_of_int z).
Proof.
  intros Hz. unfold vec_at, intsqrt_table.
  rewrite bool_decide_eq_true_2 by lia.
  rewrite list_lookup_fmap, lookup_seq_lt by lia.
  cbn [fmap option_fmap option_map Nat.add]. rewrite Z2Nat.id by lia.
  reflexivity.
Qed.

Lemma build_intsqrt_spec {T : Type} `{Scalar T} (res : Z) :
  -1 <= res < int_max -> build_intsqrt res = Some (intsqrt_table res).
Proof.
  intros Hres. pose proof int_min_neg. unfold build_intsqrt.
  rewrite int_add_fits by lia. cbn [mbind option_bind].
  rewrite bool_decide_eq_true_2 by lia. reflexivity.
Qed.

Lemma build_intsqrt_overflow {T : Type} `{Scalar T} (res : Z) :
  int_max <= res -> build_intsqrt (T:=T) res = None.
Proof.
  intros Hres. unfold build_intsqrt, int_add.
  rewrite bool_decide_eq_false_2 by lia. reflexivity.
Qed.

Lemma vec_at_insert_eq {A : Type} (v : list A) (i : Z) (a : A) :
  0 <= i < Z.of_nat (length v) ->
  vec_at (<[Z.to_nat i := a]> v) i = Some a.
Proof.
  intros Hi. unfold vec_at. rewrite bool_decide_eq_true_2 by lia.
  apply list_lookup_insert_eq. lia.
Qed.

Lemma vec_at_insert_ne {A : Type} (v : list A) (i j : Z) (a : A) :
  0 <= i -> 0 <= j -> i <> j ->
  vec_at (<[Z.to_nat i := a]> v) j = vec_at v j.
Proof.
  intros Hi Hj Hne. unfold vec_at. rewrite bool_decide_eq_true_2 by lia.
  apply list_lookup_insert_ne. lia.
Qed.

Lemma vec_at_is_Some {A : Type} (v : list A) (i : Z) :
  0 <= i < Z.of_nat (length v) -> exists x, vec_at v i = Some x.
Proof.
  intros Hi. unfold vec_at. rewrite bool_decide_eq_true_2 by lia.
  apply lookup_lt_is_Some_2. lia.
Qed.

Lemma vec_put_Some {A : Type} (v : list A) (i : Z) (a : A) :
  0 <= i < Z.of_nat (length v) ->
  vec_put v i a = Some (<[Z.to_nat i := a]> v).
Proof.
  intros Hi. unfold vec_put.
  destruct (vec_at_is_Some v i Hi) as [x ->]. reflexivity.
Qed.

(** ** The correction loop *)

Lemma vec_minus_unit (jf : list Z) (ii : nat) :
  (ii < length jf)%nat ->
  unit_vector (length jf) ii ≫= (fun prevJump => Some (vec_minus jf prevJump))
  = Some (decrement jf ii).
Proof.
  intros Hii. unfold unit_vector, vec_set.
  rewrite lookup_replicate_2 by exact Hii. cbn [mbind option_bind]. f_equal.
  unfold vec_minus, decrement, coordinate.
  revert ii Hii. induction jf as [|x jf IH]; intros ii Hii; [simpl in Hii; lia|].
  destruct ii as [|ii];
    cbn [length replicate insert list_insert zip_with lookup list_lookup
         default from_option id].
  - f_equal. clear. induction jf as [|y jf IH]; [reflexivity|].
    cbn [length replicate zip_with]. rewrite IH. f_equal. lia.
  - f_equal; [lia|]. apply IH. simpl in Hii. lia.
Qed.

Lemma active_axes_S (p : list Z) (lo n : nat) :
  active_axes p lo (S n)
  = if bool_decide (coordinate p lo > 1)
    then lo :: active_axes p (S lo) n else active_axes p (S lo) n.
Proof.
  unfold active_axes. cbn [seq]. rewrite filter_cons.
  destruct (decide (coordinate p lo > 1)) as [Hc|Hc].
  - rewrite bool_decide_eq_true_2 by exact Hc. reflexivity.
  - rewrite bool_decide_eq_false_2 by exact Hc. reflexivity.
Qed.

Section CorrectionLoop.
Context {T : Type} `{Scalar T}.
Variables (coef : Z -> option T) (cval : Z -> T).
Variables (R : list T) (res : Z) (dim k : nat) (jf : list Z) (next : Z).
Variable H0 : list T.

Hypothesis res_pos : 1 <= res.
Hypothesis fits : res ^ Z.of_nat dim <= ullint_modulus.
Hypothesis jf_length : length jf = dim.
Hypothesis jf_box : in_box res jf.
Hypothesis H0_length : Z.of_nat (length H0) = res ^ Z.of_nat dim.
Hypothesis next_range : 0 <= next < res ^ Z.of_nat dim.
Hypothesis R_length : (k * dim + dim <= length R)%nat.

Lemma entry_decrement (i : nat) :
  (i < dim)%nat -> coordinate jf i > 1 ->
  vec2index (decrement jf i) res = Some (mixed_radix res (decrement jf i)) /\
  0 <= mixed_radix res (decrement jf i) < res ^ Z.of_nat dim /\
  vec_at H0 (mixed_radix res (decrement jf i))
  = Some (entry H0 res (decrement jf i)).
Proof.
  intros Hi Hc.
  pose proof (in_box_decrement res jf i jf_box Hc) as Hb.
  pose proof (length_decrement jf i) as Hl.
  assert (Hv : vec2index (decrement jf i) res
               = Some (mixed_radix res (decrement jf i))).
  { apply vec2index_mixed_radix; try assumption.
    - destruct (decrement jf i); [simpl in Hl; lia | discriminate].
    - rewrite Hl, jf_length. exact fits. }
  pose proof (mixed_radix_range res _ res_pos Hb) as Hr.
  rewrite Hl, jf_length in Hr.
  split; [exact Hv | split; [exact Hr|]].
  unfold entry. rewrite Hv. cbn [mbind option_bind].
  destruct (vec_at_is_Some H0 (mixed_radix res (decrement jf i))) as [x ->];
    [lia | reflexivity].
Qed.

(** The loop subtracts, one after the other, the terms of the axes of its
    range on which [jumpFrom] exceeds one; it writes entry [next] only, and
    the terms it reads are entries of the tensor as it was before. *)
Lemma correction_loop_spec (todo : nat) :
  forall (lo : nat) (a : T),
    (lo + todo <= dim)%nat ->
    (forall i, (lo <= i < lo + todo)%nat -> coordinate jf i > 1 ->
       coef (coordinate jf i) = Some (cval (coordinate jf i)) /\
       mixed_radix res (decrement jf i) <> next) ->
    correction_loop coef R res dim k jf next todo lo
                    (<[Z.to_nat next := a]> H0)
    = Some (<[Z.to_nat next :=
                subtract_corrections cval R res dim k jf H0 lo todo a]> H0).
Proof.
  unfold subtract_corrections.
  induction todo as [|todo IH]; intros lo a Hlo Hok; [reflexivity|].
  cbn [correction_loop]. rewrite active_axes_S.
  destruct (lookup_lt_is_Some_2 jf lo) as [v Hv]; [lia|].
  assert (Hcv : coordinate jf lo = v) by (unfold coordinate; rewrite Hv; reflexivity).
  rewrite Hv, Hcv. cbn [mbind option_bind].
  destruct (decide (v > 1)) as [Hgt|Hle].
  - rewrite !bool_decide_eq_true_2 by exact Hgt.
    destruct (Hok lo ltac:(lia) ltac:(lia)) as [Hcoef Hne].
    destruct (entry_decrement lo ltac:(lia) ltac:(lia)) as (Hidx & Hrng & Hread).
    pose proof (vec_minus_unit jf lo ltac:(lia)) as Hminus.
    rewrite jf_length in Hminus.
    destruct (unit_vector dim lo) as [prevJump|]; [|discriminate].
    cbn [mbind option_bind] in Hminus |- *. injection Hminus as ->.
    rewrite Hidx. cbn [mbind option_bind]. rewrite Hcv in Hcoef. rewrite Hcoef.
    cbn [mbind option_bind].
    destruct (lookup_lt_is_Some_2 R (k * dim + lo)%nat) as [r Hr]; [lia|].
    rewrite Hr. cbn [mbind option_bind].
    rewrite (vec_at_insert_ne H0 next (mixed_radix res (decrement jf lo)))
      by lia.
    rewrite Hread. cbn [mbind option_bind].
    rewrite vec_at_insert_eq by lia. cbn [mbind option_bind].
    rewrite vec_put_Some by (rewrite length_insert; lia).
    cbn [mbind option_bind]. rewrite list_insert_insert_eq.
    rewrite IH; [|lia|intros i Hi; apply Hok; lia].
    cbn [fold_left]. do 3 f_equal. unfold correction_term.
    rewrite Hcv, Hr. reflexivity.
  - rewrite !bool_decide_eq_false_2 by exact Hle. cbn [mbind option_bind].
    apply IH; [lia | intros i Hi; apply Hok; lia].
Qed.

End CorrectionLoop.

(** ** Allocation *)

(** As long as [pow] is exact the byte count of the block does not wrap:
    the block has the [n] cells asked for. *)
Lemma malloc_cells {T : Type} `{Scalar T} (mem : nat -> T) (n : Z) :
  0 <= n <= exact_double_max ->
  malloc mem (wrap64 (sizeof_T * n)) = block mem (Z.to_nat n).
Proof.
  intros Hn. pose proof sizeof_T_range as Hs. unfold malloc.
  unfold sizeof_pointer, exact_double_max in *.
  rewrite wrap64_small by (unfold ullint_modulus; nia).
  rewrite Z.mul_comm, Z.div_mul by lia. reflexivity.
Qed.

Lemma pow_to_ullint_range (res : Z) (dim : nat) (Hdim : Z) :
  pow_to_ullint res dim = Some Hdim ->
  Hdim = res ^ Z.of_nat dim /\ int_min <= res <= int_max /\
  0 <= Hdim <= exact_double_max.
Proof.
  unfold pow_to_ullint. cbv zeta.
  destruct (bool_decide_reflect
              (int_min <= res <= int_max /\
               0 <= res ^ Z.of_nat dim <= exact_double_max))
    as [[Hres Hv]|_]; [|discriminate].
  intros [= <-]. repeat split; lia.
Qed.

Lemma allocate_cells {T : Type} `{Scalar T} (mem : nat -> T) (res : Z)
    (dim : nat) :
  allocate mem res dim
  = (Hdim ← pow_to_ullint res dim;
     h0 ← vec_at (block mem (Z.to_nat Hdim)) 0;
     H1 ← vec_put (block mem (Z.to_nat Hdim)) 0 (pointer_fill h0);
     Some (Hdim, H1)).
Proof.
  unfold allocate. destruct (pow_to_ullint res dim) as [Hdim|] eqn:Hpow;
    [|reflexivity].
  apply pow_to_ullint_range in Hpow as (_ & _ & Hrng).
  cbn [mbind option_bind]. cbv zeta. rewrite malloc_cells by exact Hrng.
  reflexivity.
Qed.

Section Allocation.
Context {T : Type} `{Scalar T}.
Variables (mem : nat -> T) (res : Z) (dim : nat).
Hypothesis res_pos : 1 <= res.
Hypothesis machine : machine_fits res dim.

Lemma length_block (n : nat) : length (block mem n) = n.
Proof. unfold block. rewrite length_fmap. apply length_seq. Qed.

Lemma pow_to_ullint_spec :
  pow_to_ullint res dim = Some (res ^ Z.of_nat dim).
Proof.
  unfold pow_to_ullint. pose proof (pow_nat_pos res dim res_pos).
  destruct machine as [Hint Hv]. pose proof int_min_neg.
  rewrite bool_decide_eq_true_2 by lia. reflexivity.
Qed.

Lemma allocate_spec :
  allocate mem res dim
  = Some (res ^ Z.of_nat dim,
          <[0%nat := pointer_fill (mem 0%nat)]>
            (block mem (Z.to_nat (res ^ Z.of_nat dim)))).
Proof.
  rewrite allocate_cells, pow_to_ullint_spec. cbn [mbind option_bind].
  pose proof (pow_nat_pos res dim res_pos) as Hpos.
  assert (Hcell : vec_at (block mem (Z.to_nat (res ^ Z.of_nat dim))) 0
                  = Some (mem 0%nat)).
  { unfold vec_at, block. rewrite bool_decide_eq_true_2 by lia.
    rewrite list_lookup_fmap, lookup_seq_lt by lia. reflexivity. }
  rewrite Hcell. cbn [mbind option_bind].
  rewrite vec_put_Some by (rewrite length_block; lia). reflexivity.
Qed.

Lemma loop_count :
  Z.to_nat (wrap64 (res ^ Z.of_nat dim - 1))
  = Z.to_nat (res ^ Z.of_nat dim - 1).
Proof.
  pose proof (pow_nat_pos res dim res_pos).
  pose proof (machine_representable res dim machine).
  rewrite wrap64_small by lia. reflexivity.
Qed.

(** No call of a fill the code can size overflows: with two axes or more
    [resolution^2] is at most [2^53], and with one axis the calls stop
    before the axis is full. *)
Lemma machine_no_overflow (n : nat) :
  Z.of_nat n < res ^ Z.of_nat dim -> no_overflow_before res n.
Proof.
  intros Hn. destruct machine as [Hint Hv]. split; [exact Hint|].
  destruct dim as [|[|d]].
  - right. change (res ^ Z.of_nat 0) with 1 in Hn. lia.
  - right. change (Z.of_nat 1) with 1 in Hn. rewrite Z.pow_1_r in Hn. lia.
  - left. rewrite !pow_succ_nat in Hv.
    pose proof (pow_nat_pos res d res_pos) as Hd.
    unfold exact_double_max, int_max in *. nia.
Qed.

End Allocation.

(** ** The fill of [hermite_multidimensional_cpp] *)

Lemma dim_of_square {T : Type} (R : list T) :
  (dim_of R * dim_of R <= length R)%nat.
Proof.
  unfold dim_of.
  pose proof (Z.sqrt_spec (Z.of_nat (length R)) ltac:(lia)) as Hs.
  pose proof (Z.sqrt_nonneg (Z.of_nat (length R))) as Hn. cbv zeta in Hs.
  apply Nat2Z.inj_le. rewrite Nat2Z.inj_mul, !Z2Nat.id by exact Hn. lia.
Qed.

(** Two positions of the box at different places of the odometer order
    have different offsets. *)
Lemma offsets_differ (res : Z) (p q : list Z) :
  1 <= res -> in_box res p -> in_box res q -> length p = length q ->
  odometer_value res p <> odometer_value res q ->
  mixed_radix res p <> mixed_radix res q.
Proof.
  intros Hr Hp Hq Hlen Hne Heq. apply Hne. f_equal.
  apply (mixed_radix_inj res); assumption.
Qed.

Section HermiteFill.
Context {T : Type} `{Scalar T}.
Variables (mem : nat -> T) (R y : list T) (res : Z).
Let dim : nat := dim_of R.
Hypothesis res_pos : 1 <= res.
Hypothesis machine : machine_fits res dim.
Let representable : res ^ Z.of_nat dim < ullint_modulus :=
  machine_representable res dim machine.
Hypothesis y_length : length y = dim.

Lemma hermite_start_spec :
  hermite_start mem R res
  = Some (res ^ Z.of_nat dim,
          (initial_iterator dim,
           <[0%nat := tone]> (block mem (Z.to_nat (res ^ Z.of_nat dim))))).
Proof.
  unfold hermite_start. fold dim.
  rewrite (allocate_spec mem res dim res_pos machine).
  cbn [mbind option_bind].
  pose proof (pow_nat_pos res dim res_pos) as Hpos.
  rewrite vec_put_Some by (rewrite length_insert, length_block; lia).
  cbn [mbind option_bind]. change (Z.to_nat 0) with 0%nat.
  rewrite list_insert_insert_eq. reflexivity.
Qed.

(** One iteration of the fill loop, after a call that stepped axis [k]. *)
Lemma hermite_body_spec (it it' : iterator) (k : nat) (H0 : list T) :
  Z.of_nat (length H0) = res ^ Z.of_nat dim ->
  update_iterator it res dim = Some (it', k) ->
  stepped res it' k -> length (nextPos it') = dim ->
  hermite_body R y res dim (it, H0)
  = Some (it',
          <[Z.to_nat (mixed_radix res (nextPos it')) :=
              subtract_corrections plain_val R res dim k (jumpFrom it') H0 0 dim
                (tmul (entry H0 res (jumpFrom it')) (default tzero (y !! k)))]>
            H0).
Proof.
  intros HH Hcall Hstep Hlen.
  destruct (stepped_length _ _ _ Hstep) as [Hjl Hk].
  destruct (stepped_in_box _ _ _ res_pos Hstep) as [Hnb Hjb].
  pose proof (stepped_decrement _ _ _ Hstep) as Hdec.
  assert (Hback : odometer_value res (jumpFrom it')
                  = odometer_value res (nextPos it') - res ^ Z.of_nat k).
  { destruct Hstep as (p & rest & -> & -> & _).
    rewrite odometer_value_back. ring. }
  pose proof (pow_nat_pos res k res_pos) as Hpk.
  assert (Hne : nextPos it' <> []).
  { destruct (nextPos it'); [simpl in Hk; lia | discriminate]. }
  assert (Hje : jumpFrom it' <> []).
  { destruct (jumpFrom it'); [simpl in Hjl; lia | discriminate]. }
  unfold hermite_body. cbn [fst snd]. rewrite Hcall. cbn [mbind option_bind].
  rewrite (vec2index_mixed_radix res (nextPos it')); try assumption;
    [|rewrite Hlen; lia].
  cbn [mbind option_bind].
  rewrite (vec2index_mixed_radix res (jumpFrom it')); try assumption;
    [|rewrite Hjl, Hlen; lia].
  cbn [mbind option_bind].
  pose proof (mixed_radix_range res _ res_pos Hnb) as Hnr.
  pose proof (mixed_radix_range res _ res_pos Hjb) as Hjr.
  rewrite Hlen in Hnr. rewrite Hjl, Hlen in Hjr.
  destruct (vec_at_is_Some H0 (mixed_radix res (jumpFrom it'))) as [hf Hhf];
    [lia|].
  assert (Hentry : entry H0 res (jumpFrom it') = hf).
  { unfold entry. rewrite (vec2index_mixed_radix res (jumpFrom it'));
      try assumption; [|rewrite Hjl, Hlen; lia].
    cbn [mbind option_bind]. rewrite Hhf. reflexivity. }
  rewrite Hhf, Hentry. cbn [mbind option_bind].
  destruct (lookup_lt_is_Some_2 y k) as [yk Hyk]; [lia|].
  rewrite Hyk. cbn [mbind option_bind default from_option id].
  rewrite vec_put_Some by lia. cbn [mbind option_bind].
  pose proof (dim_of_square R) as HR. fold dim in HR.
  rewrite (correction_loop_spec plain_coef plain_val R res dim k
             (jumpFrom it') (mixed_radix res (nextPos it')) H0);
    try assumption; try lia.
  - reflexivity.
  - nia.
  - intros i Hi Hc. split; [reflexivity|].
    apply offsets_differ; try assumption.
    + apply in_box_decrement; assumption.
    + rewrite length_decrement. lia.
    + rewrite odometer_value_decrement by lia.
      pose proof (pow_nat_pos res i res_pos). lia.
Qed.

Lemma hermite_run_S (n : nat) :
  hermite_run mem R y res (S n)
  = hermite_run mem R y res n ≫= hermite_body R y res dim.
Proof.
  unfold hermite_run. rewrite hermite_start_spec. cbn [mbind option_bind].
  apply repeat_body_snoc.
Qed.

(** The fill loop runs in step with the enumerator and keeps the tensor at
    its size. *)
Lemma hermite_run_inv (n : nat) :
  Z.of_nat n < res ^ Z.of_nat dim ->
  exists (it : iterator) (Hn : list T),
    hermite_run mem R y res n = Some (it, Hn) /\
    iterator_run res dim n = Some it /\
    Z.of_nat (length Hn) = res ^ Z.of_nat dim.
Proof.
  induction n as [|n IH]; intros Hlt.
  - eexists _, _. unfold hermite_run. rewrite hermite_start_spec.
    split; [reflexivity|]. split; [reflexivity|].
    rewrite length_insert, length_block.
    pose proof (pow_nat_pos res dim res_pos). lia.
  - destruct IH as (it & Hn & Hrun & Hit & HH); [lia|].
    destruct (iterator_call res dim n res_pos
                (machine_no_overflow res dim res_pos machine (S n) Hlt) Hlt) as
      (it0 & it' & k & Hit0 & Hcall & Hit' & Hstep & Hlen & _).
    rewrite Hit in Hit0. injection Hit0 as <-.
    eexists it', _. rewrite hermite_run_S, Hrun. cbn [mbind option_bind].
    rewrite (hermite_body_spec it it' k Hn HH Hcall Hstep Hlen).
    split; [reflexivity|]. split; [exact Hit'|].
    rewrite length_insert. exact HH.
Qed.

(** The whole fill returns a tensor of [resolution^dim] entries. *)
Lemma hermite_multidimensional_cpp_total :
  exists Hout : list T,
    hermite_multidimensional_cpp mem R y res = Some Hout /\
    Z.of_nat (length Hout) = res ^ Z.of_nat dim.
Proof.
  pose proof (pow_nat_pos res dim res_pos) as Hpos.
  destruct (hermite_run_inv (Z.to_nat (res ^ Z.of_nat dim - 1))) as
    (it & Hn & Hrun & _ & HH); [lia|].
  exists Hn. split; [|exact HH].
  unfold hermite_multidimensional_cpp. rewrite hermite_start_spec.
  cbn [mbind option_bind].
  rewrite (loop_count res dim res_pos machine). fold dim.
  rewrite Hrun. reflexivity.
Qed.

End HermiteFill.

(** ** From repeated subtraction to the recurrence *)

Lemma fold_left_tsub {T : Type} `{ScalarLaws T} {A : Type} (f : A -> T)
    (l : list A) (a : T) :
  fold_left (fun acc i => tsub acc (f i)) l a
  = tsub a (scalar_sum (f <$> l)).
Proof.
  revert a. induction l as [|x l IH]; intros a.
  - cbn. symmetry. apply tsub_zero.
  - cbn [fold_left fmap list_fmap]. rewrite IH.
    unfold scalar_sum. cbn [foldr]. apply tsub_tsub.
Qed.

Lemma entry_insert_ne {T : Type} `{Scalar T} (H0 : list T) (res next m : Z)
    (v : T) (q : list Z) :
  vec2index q res = Some m -> 0 <= next -> 0 <= m -> m <> next ->
  entry (<[Z.to_nat next := v]> H0) res q = entry H0 res q.
Proof.
  intros Hq Hn Hm Hne. unfold entry. rewrite Hq. cbn [mbind option_bind].
  rewrite vec_at_insert_ne by lia. reflexivity.
Qed.

Lemma entry_insert_eq {T : Type} `{Scalar T} (H0 : list T) (res next : Z)
    (v : T) (q : list Z) :
  vec2index q res = Some next -> 0 <= next < Z.of_nat (length H0) ->
  entry (<[Z.to_nat next := v]> H0) res q = v.
Proof.
  intros Hq Hn. unfold entry. rewrite Hq. cbn [mbind option_bind].
  rewrite vec_at_insert_eq by lia. reflexivity.
Qed.

Lemma hermite_rhs_ext {T : Type} `{Scalar T} (R y : list T) (res : Z)
    (dim k : nat) (H1 H2 : list T) (p : list Z) :
  entry H1 res p = entry H2 res p ->
  (forall i, i ∈ active_axes p 0 dim ->
     entry H1 res (decrement p i) = entry H2 res (decrement p i)) ->
  hermite_rhs R y res dim k H1 p = hermite_rhs R y res dim k H2 p.
Proof.
  intros Hp Hi. unfold hermite_rhs. rewrite Hp. do 2 f_equal.
  apply list_fmap_ext. intros j i Hj. unfold correction_term.
  rewrite Hi; [reflexivity|]. apply list_elem_of_lookup. exists j. exact Hj.
Qed.

Lemma active_axes_elem (p : list Z) (lo n i : nat) :
  i ∈ active_axes p lo n -> (lo <= i < lo + n)%nat /\ coordinate p i > 1.
Proof.
  unfold active_axes. intros Hi. apply list_elem_of_filter in Hi as [Hc Hs].
  apply elem_of_seq in Hs. split; [lia | exact Hc].
Qed.

#[export] Instance Z_scalar_laws : ScalarLaws Z.
Proof. split; intros; cbn; lia. Qed.

(** ** The fills with a selection rule *)

Lemma correction_loop_stored {T : Type} `{Scalar T} (coef : Z -> option T)
    (cval : Z -> T) (R : list T) (res : Z) (dim k : nat) (jf : list Z)
    (next : Z) (H0 : list T) (a : T) (lo todo : nat) :
  1 <= res -> res ^ Z.of_nat dim <= ullint_modulus ->
  length jf = dim -> in_box res jf ->
  Z.of_nat (length H0) = res ^ Z.of_nat dim ->
  0 <= next < res ^ Z.of_nat dim ->
  (k * dim + dim <= length R)%nat ->
  vec_at H0 next = Some a ->
  (lo + todo <= dim)%nat ->
  (forall i, (lo <= i < lo + todo)%nat -> coordinate jf i > 1 ->
     coef (coordinate jf i) = Some (cval (coordinate jf i)) /\
     mixed_radix res (decrement jf i) <> next) ->
  correction_loop coef R res dim k jf next todo lo H0
  = Some (<[Z.to_nat next :=
              subtract_corrections cval R res dim k jf H0 lo todo a]> H0).
Proof.
  intros Hr Hfit Hjl Hjb HH Hn HR Ha Hlo Hok.
  pose proof (correction_loop_spec coef cval R res dim k jf next H0
                Hr Hfit Hjl Hjb HH Hn HR todo lo a Hlo Hok) as Hloop.
  assert (Hl : H0 !! Z.to_nat next = Some a).
  { unfold vec_at in Ha. rewrite bool_decide_eq_true_2 in Ha by lia. exact Ha. }
  rewrite (list_insert_id H0 (Z.to_nat next) a Hl) in Hloop. exact Hloop.
Qed.

Lemma normalized_coef_spec {T : Type} `{Scalar T} (res : Z)
    (np : list Z) (k : nat) (v : Z) :
  0 <= v - 1 <= res -> (k < length np)%nat ->
  0 <= coordinate np k - 1 <= res ->
  normalized_coef (intsqrt_table res) np k v = Some (normalized_val np k v).
Proof.
  intros Hv Hk Hc. unfold normalized_coef, normalized_val.
  rewrite vec_at_intsqrt by exact Hv. cbn [mbind option_bind].
  destruct (lookup_lt_is_Some_2 np k Hk) as [nk Hnk].
  unfold coordinate in *. rewrite Hnk in *. cbn [mbind option_bind default from_option id] in *.
  rewrite vec_at_intsqrt by exact Hc. reflexivity.
Qed.

Lemma in_box_coordinate (res : Z) (q : list Z) (i : nat) :
  in_box res q -> (i < length q)%nat -> 1 <= coordinate q i <= res.
Proof.
  intros Hb Hi. destruct (lookup_lt_is_Some_2 q i Hi) as [v Hv].
  unfold coordinate. rewrite Hv. cbn.
  unfold in_box in Hb. rewrite Forall_lookup in Hb. exact (Hb i v Hv).
Qed.

Section SelectiveFill.
Context {T : Type} `{Scalar T}.
Variables (accepts : list Z -> option bool) (limits : nat -> nat * nat).
Variables (R : list T) (res : Z) (dim : nat) (Hinit : list T).
Hypothesis res_pos : 1 <= res.
Hypothesis machine : machine_fits res dim.
Let representable : res ^ Z.of_nat dim < ullint_modulus :=
  machine_representable res dim machine.
Hypothesis R_length : (dim * dim <= length R)%nat.
Hypothesis accepts_total :
  forall p, length p = dim -> in_box res p -> is_Some (accepts p).
Hypothesis limits_ok :
  forall k, (fst (limits k) <= snd (limits k) <= dim)%nat.
Hypothesis Hinit_length : Z.of_nat (length Hinit) = res ^ Z.of_nat dim.

Lemma selective_body_spec (it it' : iterator) (k : nat) (H0 : list T) :
  Z.of_nat (length H0) = res ^ Z.of_nat dim ->
  update_iterator it res dim = Some (it', k) ->
  stepped res it' k -> length (nextPos it') = dim ->
  exists b : bool,
    accepts (nextPos it') = Some b /\
    selective_body accepts limits R (intsqrt_table res) res dim (it, H0)
    = Some (it', if b then after_accepted limits R res dim it' k H0 else H0).
Proof.
  intros HH Hcall Hstep Hlen.
  destruct (stepped_length _ _ _ Hstep) as [Hjl Hk].
  destruct (stepped_in_box _ _ _ res_pos Hstep) as [Hnb Hjb].
  destruct (stepped_lookup _ _ _ Hstep) as (_ & p & Hp & Hnk & Hjk).
  assert (Hback : odometer_value res (jumpFrom it')
                  = odometer_value res (nextPos it') - res ^ Z.of_nat k).
  { destruct Hstep as (p' & rest & -> & -> & _).
    rewrite odometer_value_back. ring. }
  pose proof (pow_nat_pos res k res_pos) as Hpk.
  destruct (accepts_total (nextPos it') Hlen Hnb) as [b Hb].
  exists b. split; [exact Hb|].
  unfold selective_body. cbn [fst snd]. rewrite Hcall. cbn [mbind option_bind].
  rewrite Hb. cbn [mbind option_bind]. destruct b; [|reflexivity].
  assert (Hne : nextPos it' <> []).
  { destruct (nextPos it'); [simpl in Hk; lia | discriminate]. }
  assert (Hje : jumpFrom it' <> []).
  { destruct (jumpFrom it'); [simpl in Hjl; lia | discriminate]. }
  rewrite (vec2index_mixed_radix res (nextPos it')); try assumption;
    [|rewrite Hlen; lia].
  cbn [mbind option_bind].
  rewrite (vec2index_mixed_radix res (jumpFrom it')); try assumption;
    [|rewrite Hjl, Hlen; lia].
  cbn [mbind option_bind].
  pose proof (mixed_radix_range res _ res_pos Hnb) as Hnr.
  rewrite Hlen in Hnr.
  destruct (vec_at_is_Some H0 (mixed_radix res (nextPos it'))) as [a Ha];
    [lia|].
  assert (Hentry : entry H0 res (nextPos it') = a).
  { unfold entry. rewrite (vec2index_mixed_radix res (nextPos it'));
      try assumption; [|rewrite Hlen; lia].
    cbn [mbind option_bind]. rewrite Ha. reflexivity. }
  pose proof (limits_ok k) as Hlim.
  rewrite (correction_loop_stored
             (normalized_coef (intsqrt_table res) (nextPos it') k)
             (normalized_val (nextPos it') k) R res dim k (jumpFrom it')
             (mixed_radix res (nextPos it')) H0 a);
    try assumption; try lia.
  - cbn [mbind option_bind]. unfold after_accepted. rewrite Hentry.
    reflexivity.
  - nia.
  - intros i Hi Hc. split.
    + pose proof (in_box_coordinate res (jumpFrom it') i Hjb ltac:(lia)).
      apply normalized_coef_spec; [lia | lia |].
      unfold coordinate. rewrite Hnk. cbn. lia.
    + apply offsets_differ; try assumption.
      * apply in_box_decrement; assumption.
      * rewrite length_decrement. lia.
      * rewrite odometer_value_decrement by lia.
        pose proof (pow_nat_pos res i res_pos). lia.
Qed.

(** The fill loop runs in step with the enumerator, keeps the tensor at
    its size, and leaves every entry whose position is still to come as it
    was at the head of the loop. *)
Lemma selective_run_inv (n : nat) :
  Z.of_nat n < res ^ Z.of_nat dim ->
  exists (it : iterator) (Hn : list T),
    repeat_body (selective_body accepts limits R (intsqrt_table res) res dim)
                n (initial_iterator dim, Hinit) = Some (it, Hn) /\
    iterator_run res dim n = Some it /\
    Z.of_nat (length Hn) = res ^ Z.of_nat dim /\
    (forall q : list Z,
        length q = dim -> in_box res q ->
        Z.of_nat n < odometer_value res q ->
        entry Hn res q = entry Hinit res q).
Proof.
  induction n as [|n IH]; intros Hlt.
  - exists (initial_iterator dim), Hinit. repeat split; try reflexivity.
    exact Hinit_length.
  - destruct IH as (it & Hn & Hrun & Hit & HH & Hframe); [lia|].
    destruct (iterator_call res dim n res_pos
              (machine_no_overflow res dim res_pos machine (S n) Hlt) Hlt) as
      (it0 & it' & k & Hit0 & Hcall & Hit' & Hstep & Hlen & Hval).
    rewrite Hit in Hit0. injection Hit0 as <-.
    destruct (selective_body_spec it it' k Hn HH Hcall Hstep Hlen) as
      (b & Hb & Hbody).
    eexists it', _. rewrite repeat_body_snoc, Hrun. cbn [mbind option_bind].
    rewrite Hbody. split; [reflexivity|]. split; [exact Hit'|].
    destruct (stepped_in_box _ _ _ res_pos Hstep) as [Hnb _].
    destruct b.
    + split; [unfold after_accepted; rewrite length_insert; exact HH|].
      intros q Hq Hqb Hqv. rewrite <- Hframe by (assumption || lia).
      unfold after_accepted.
      apply (entry_insert_ne Hn res _ (mixed_radix res q)).
      * apply vec2index_mixed_radix; try assumption.
        -- destruct q; [simpl in Hq; pose proof (stepped_length _ _ _ Hstep); lia | discriminate].
        -- rewrite Hq. lia.
      * pose proof (mixed_radix_range res _ res_pos Hnb). lia.
      * pose proof (mixed_radix_range res _ res_pos Hqb). lia.
      * apply offsets_differ; try assumption; lia.
    + split; [exact HH|]. intros q Hq Hqb Hqv. apply Hframe; (assumption || lia).
Qed.

(** The [(n+1)]-th iteration of the fill loop. *)
Lemma selective_step (n : nat) :
  Z.of_nat (S n) < res ^ Z.of_nat dim ->
  exists (it it' : iterator) (k : nat) (H0 : list T) (b : bool),
    repeat_body (selective_body accepts limits R (intsqrt_table res) res dim)
                n (initial_iterator dim, Hinit) = Some (it, H0) /\
    update_iterator it res dim = Some (it', k) /\
    iterator_run res dim (S n) = Some it' /\
    stepped res it' k /\ length (nextPos it') = dim /\
    accepts (nextPos it') = Some b /\
    repeat_body (selective_body accepts limits R (intsqrt_table res) res dim)
                (S n) (initial_iterator dim, Hinit)
    = Some (it', if b then after_accepted limits R res dim it' k H0 else H0) /\
    entry H0 res (nextPos it') = entry Hinit res (nextPos it').
Proof.
  intros Hlt.
  destruct (selective_run_inv n) as (it & H0 & Hrun & Hit & HH & Hframe);
    [lia|].
  destruct (iterator_call res dim n res_pos
              (machine_no_overflow res dim res_pos machine (S n) Hlt) Hlt) as
    (it0 & it' & k & Hit0 & Hcall & Hit' & Hstep & Hlen & Hval).
  rewrite Hit in Hit0. injection Hit0 as <-.
  destruct (selective_body_spec it it' k H0 HH Hcall Hstep Hlen) as
    (b & Hb & Hbody).
  destruct (stepped_in_box _ _ _ res_pos Hstep) as [Hnb _].
  exists it, it', k, H0, b. repeat split; try assumption.
  - rewrite repeat_body_snoc, Hrun. cbn [mbind option_bind]. exact Hbody.
  - apply Hframe; try assumption. lia.
Qed.

End SelectiveFill.

(** ** Selection rules *)

Lemma sum_axes_total (v : list Z) (todo : nat) :
  forall (ii : nat) (acc : Z),
    (ii + todo <= length v)%nat -> is_Some (sum_axes v todo ii acc).
Proof.
  induction todo as [|todo IH]; intros ii acc Hlen; cbn [sum_axes].
  - eexists. reflexivity.
  - destruct (lookup_lt_is_Some_2 v ii) as [x ->]; [lia|].
    cbn [mbind option_bind]. apply IH. lia.
Qed.

Lemma sum_axes_ones (v : list Z) (todo : nat) :
  forall (ii : nat) (acc : Z),
    (forall i, (ii <= i < ii + todo)%nat -> v !! i = Some 1) ->
    sum_axes v todo ii acc = Some (acc + Z.of_nat todo).
Proof.
  induction todo as [|todo IH]; intros ii acc Hone; cbn [sum_axes].
  - f_equal. lia.
  - rewrite (Hone ii) by lia. cbn [mbind option_bind].
    rewrite IH by (intros i Hi; apply Hone; lia). f_equal. lia.
Qed.

Lemma sum_axes_ge (res : Z) (v : list Z) (todo : nat) :
  in_box res v ->
  forall (ii : nat) (acc s : Z),
    sum_axes v todo ii acc = Some s -> acc + Z.of_nat todo <= s.
Proof.
  intros Hb. induction todo as [|todo IH]; intros ii acc s Hs;
    cbn [sum_axes] in Hs.
  - injection Hs as <-. lia.
  - destruct (v !! ii) as [x|] eqn:Hx; [|discriminate].
    cbn [mbind option_bind] in Hs. apply IH in Hs.
    unfold in_box in Hb. rewrite Forall_lookup in Hb.
    pose proof (Hb ii x Hx). lia.
Qed.

Lemma sum_axes_gt (res : Z) (v : list Z) (todo : nat) :
  in_box res v ->
  forall (ii : nat) (acc s : Z) (j : nat) (y : Z),
    sum_axes v todo ii acc = Some s ->
    (ii <= j < ii + todo)%nat -> v !! j = Some y -> 2 <= y ->
    acc + Z.of_nat todo + 1 <= s.
Proof.
  intros Hb. induction todo as [|todo IH]; intros ii acc s j y Hs Hj Hy Hy2;
    [lia|].
  cbn [sum_axes] in Hs.
  destruct (v !! ii) as [x|] eqn:Hx; [|discriminate].
  cbn [mbind option_bind] in Hs.
  assert (Hx1 : 1 <= x).
  { unfold in_box in Hb. rewrite Forall_lookup in Hb.
    pose proof (Hb ii x Hx). lia. }
  destruct (decide (j = ii)) as [->|Hne].
  - rewrite Hx in Hy. injection Hy as ->.
    pose proof (sum_axes_ge res v todo Hb _ _ _ Hs). lia.
  - pose proof (IH (S ii) (acc + x) s j y Hs ltac:(lia) Hy Hy2). lia.
Qed.

(** The [int] accumulators of the acceptance test do not overflow: a sum
    over at most half of the axes of a position of the box is at most
    [INT_MAX] as soon as the number of cells [res^dim] is at most [2^53]
    (and [dim] itself is an [int]). *)
Lemma sum_axes_le (res : Z) (v : list Z) (todo : nat) :
  in_box res v ->
  forall (ii : nat) (acc s : Z),
    sum_axes v todo ii acc = Some s -> s <= acc + Z.of_nat todo * res.
Proof.
  intros Hb. induction todo as [|todo IH]; intros ii acc s Hs;
    cbn [sum_axes] in Hs.
  - injection Hs as <-. lia.
  - destruct (v !! ii) as [x|] eqn:Hx; [|discriminate].
    cbn [mbind option_bind] in Hs. apply IH in Hs.
    unfold in_box in Hb. rewrite Forall_lookup in Hb.
    pose proof (Hb ii x Hx). lia.
Qed.

Lemma pow_above_exponent (res : Z) (m : nat) :
  2 <= res -> Z.of_nat m + 1 <= res ^ Z.of_nat m.
Proof.
  intros Hr. induction m as [|m IH]; [cbn; lia|].
  rewrite Nat2Z.inj_succ, Z.pow_succ_r by lia. nia.
Qed.

Lemma half_axes_fit (res : Z) (dim : nat) :
  2 <= res -> res ^ Z.of_nat dim <= exact_double_max ->
  Z.of_nat (dim / 2) * res <= int_max.
Proof.
  intros Hr Hv. set (m := (dim / 2)%nat).
  assert (Hm : (2 * m <= dim)%nat).
  { unfold m. pose proof (Nat.div_mod_eq dim 2). lia. }
  assert (Hmr : Z.of_nat m * res <= res ^ Z.of_nat m).
  { destruct m as [|m']; [cbn; lia|].
    rewrite Nat2Z.inj_succ, Z.pow_succ_r by lia.
    pose proof (pow_above_exponent res m' Hr). nia. }
  assert (Hsq : res ^ Z.of_nat m * res ^ Z.of_nat m <= res ^ Z.of_nat dim).
  { rewrite <- Z.pow_add_r by lia. apply Z.pow_le_mono_r; lia. }
  pose proof (pow_nat_pos res m ltac:(lia)) as Hpos.
  unfold exact_double_max in Hv. unfold int_max.
  destruct (Z.le_gt_cases (res ^ Z.of_nat m) (2 ^ 31 - 1)) as [Hle|Hgt];
    [lia|].
  assert (2 ^ 31 * 2 ^ 31 <= res ^ Z.of_nat m * res ^ Z.of_nat m)
    by (apply Z.mul_le_mono_nonneg; lia).
  change (2 ^ 31 * 2 ^ 31) with (2 ^ 62) in *. change (2 ^ 53) with 9007199254740992 in *.
  change (2 ^ 62) with 4611686018427387904 in *. lia.
Qed.

Lemma axes_few (res : Z) (dim : nat) :
  2 <= res -> res ^ Z.of_nat dim <= exact_double_max -> (dim <= 53)%nat.
Proof.
  intros Hr Hv. destruct (decide (dim <= 53)%nat) as [Hle|Hgt]; [exact Hle|].
  exfalso.
  assert (H54 : 2 ^ 54 <= 2 ^ Z.of_nat dim) by (apply Z.pow_le_mono_r; lia).
  assert (Hmono : 2 ^ Z.of_nat dim <= res ^ Z.of_nat dim)
    by (apply Z.pow_le_mono_l; lia).
  unfold exact_double_max in Hv.
  change (2 ^ 54) with 18014398509481984 in H54.
  change (2 ^ 53) with 9007199254740992 in Hv. lia.
Qed.

Lemma acceptance_sums_fit (res : Z) (dim : nat) (p : list Z) (todo lo : nat)
    (s : Z) :
  1 <= res -> res ^ Z.of_nat dim <= exact_double_max ->
  Z.of_nat dim <= int_max ->
  in_box res p -> (todo <= dim / 2)%nat ->
  sum_axes p todo lo 0 = Some s -> 0 <= s <= int_max.
Proof.
  intros Hr Hv Hdim Hb Htodo Hs.
  pose proof (sum_axes_ge res p todo Hb _ _ _ Hs) as Hge.
  pose proof (sum_axes_le res p todo Hb _ _ _ Hs) as Hle.
  split; [lia|].
  destruct (decide (res = 1)) as [->|Hne].
  - pose proof (Nat.div_mod_eq dim 2). lia.
  - pose proof (half_axes_fit res dim ltac:(lia) Hv) as Hhalf.
    assert (Z.of_nat todo * res <= Z.of_nat (dim / 2) * res)
      by (apply Z.mul_le_mono_nonneg_r; lia).
    lia.
Qed.

(** An accepted step of the interferometer fill always steps an axis of
    the first half: stepping axis [k] of the second half leaves the first
    half at all ones, with sum [num_modes], while the second-half sum is
    at least [num_modes + 1]. *)
Lemma interferometer_accepted_axis (res : Z) (dim : nat) (it : iterator)
    (k : nat) :
  1 <= res -> (dim mod 2 = 0)%nat ->
  stepped res it k -> length (nextPos it) = dim ->
  interferometer_accepts (dim / 2) dim (nextPos it) = Some true ->
  (k < dim / 2)%nat.
Proof.
  intros Hr Heven Hstep Hlen Hacc.
  destruct (stepped_in_box _ _ _ Hr Hstep) as [Hnb _].
  destruct (stepped_length _ _ _ Hstep) as [_ Hk].
  destruct (stepped_lookup _ _ _ Hstep) as (Hlow & p & Hp & Hnk & _).
  destruct (decide (k < dim / 2)%nat) as [Hlt|Hge]; [exact Hlt | exfalso].
  pose proof (Nat.div_mod_eq dim 2) as Hdm. rewrite Heven in Hdm.
  unfold interferometer_accepts in Hacc.
  set (h := (dim / 2)%nat) in *. clearbody h.
  rewrite (sum_axes_ones (nextPos it) h 0 0) in Hacc
    by (intros i Hi; apply Hlow; lia).
  cbn [mbind option_bind] in Hacc.
  destruct (sum_axes (nextPos it) (dim - h) h 0) as [s|] eqn:Hs;
    [|discriminate].
  cbn [mbind option_bind] in Hacc. injection Hacc as Hacc.
  apply bool_decide_eq_true_1 in Hacc.
  pose proof (sum_axes_gt res _ _ Hnb _ _ _ k (p + 1) Hs ltac:(lia) Hnk
                ltac:(lia)).
  lia.
Qed.

Lemma interferometer_accepts_total (res : Z) (dim : nat) (p : list Z) :
  length p = dim -> in_box res p ->
  is_Some (interferometer_accepts (dim / 2) dim p).
Proof.
  intros Hlen _. unfold interferometer_accepts.
  pose proof (Nat.div_mod_eq dim 2) as Hdm.
  destruct (sum_axes_total p (dim / 2) 0 0) as [a ->]; [lia|].
  cbn [mbind option_bind].
  destruct (sum_axes_total p (dim - dim / 2) (dim / 2) 0) as [b ->]; [lia|].
  cbn [mbind option_bind]. eexists. reflexivity.
Qed.

Lemma interferometer_limits_ok (dim k : nat) :
  (fst (interferometer_limits (dim / 2) dim k)
   <= snd (interferometer_limits (dim / 2) dim k) <= dim)%nat.
Proof.
  pose proof (Nat.div_mod_eq dim 2) as Hdm.
  unfold interferometer_limits. destruct (bool_decide (dim / 2 < k)%nat);
    cbn [fst snd]; lia.
Qed.

Lemma squeezing_accepts_total (res : Z) (p : list Z) :
  length p = 2%nat -> in_box res p -> is_Some (squeezing_accepts p).
Proof.
  intros Hlen _. destruct p as [|a [|b [|c p]]]; try discriminate.
  eexists. reflexivity.
Qed.

Lemma two_mode_accepts_total (res : Z) (p : list Z) :
  length p = 4%nat -> in_box res p -> is_Some (two_mode_accepts p).
Proof.
  intros Hlen _. destruct p as [|a [|b [|c [|d [|e p]]]]]; try discriminate.
  eexists. reflexivity.
Qed.

Lemma all_axes_ok (dim k : nat) :
  (fst (all_axes dim k) <= snd (all_axes dim k) <= dim)%nat.
Proof. cbn. lia. Qed.

(** ** Start states *)

Section Starts.
Context {T : Type} `{Scalar T}.
Variables (mem : nat -> T) (R : list T) (res : Z).
Hypothesis res_pos : 1 <= res.
Hypothesis machine : machine_fits res (dim_of R).
Let representable : res ^ Z.of_nat (dim_of R) < ullint_modulus :=
  machine_representable res (dim_of R) machine.

Lemma seeded_spec (seed : T) :
  ('(Hdim, H0) ← allocate mem res (dim_of R);
   H1 ← vec_put H0 0 seed;
   Some (Hdim, (initial_iterator (dim_of R), H1)))
  = Some (res ^ Z.of_nat (dim_of R),
          (initial_iterator (dim_of R),
           <[0%nat := seed]>
             (block mem (Z.to_nat (res ^ Z.of_nat (dim_of R)))))).
Proof.
  rewrite (allocate_spec mem res _ res_pos machine).
  cbn [mbind option_bind].
  pose proof (pow_nat_pos res (dim_of R) res_pos) as Hpos.
  rewrite vec_put_Some by (rewrite length_insert, length_block; lia).
  cbn [mbind option_bind]. change (Z.to_nat 0) with 0%nat.
  rewrite list_insert_insert_eq. reflexivity.
Qed.

Lemma length_seeded (seed : T) :
  Z.of_nat (length (<[0%nat := seed]>
                      (block mem (Z.to_nat (res ^ Z.of_nat (dim_of R))))))
  = res ^ Z.of_nat (dim_of R).
Proof.
  rewrite length_insert, length_block.
  pose proof (pow_nat_pos res (dim_of R) res_pos). lia.
Qed.

Lemma interferometer_start_spec :
  (dim_of R mod 2 = 0)%nat ->
  interferometer_start mem R res
  = Some (res ^ Z.of_nat (dim_of R),
          (initial_iterator (dim_of R),
           <[0%nat := tone]>
             (block mem (Z.to_nat (res ^ Z.of_nat (dim_of R)))))).
Proof.
  intros Heven. unfold interferometer_start.
  rewrite bool_decide_eq_true_2 by exact Heven. apply seeded_spec.
Qed.

Lemma squeezing_start_spec :
  dim_of R = 2%nat ->
  exists r1 : T,
    R !! 1%nat = Some r1 /\
    squeezing_start mem R res
    = Some (res ^ Z.of_nat (dim_of R),
            (initial_iterator (dim_of R),
             <[0%nat := tsqrt (topp r1)]>
               (block mem (Z.to_nat (res ^ Z.of_nat (dim_of R)))))).
Proof.
  intros Hdim. pose proof (dim_of_square R) as HR. rewrite Hdim in HR.
  destruct (lookup_lt_is_Some_2 R 1) as [r1 Hr1]; [simpl in HR; lia|].
  exists r1. split; [exact Hr1|]. unfold squeezing_start.
  rewrite (allocate_spec mem res _ res_pos machine).
  cbn [mbind option_bind]. rewrite Hr1. cbn [mbind option_bind].
  pose proof (pow_nat_pos res (dim_of R) res_pos) as Hpos.
  rewrite vec_put_Some by (rewrite length_insert, length_block; lia).
  cbn [mbind option_bind]. change (Z.to_nat 0) with 0%nat.
  rewrite list_insert_insert_eq.
  rewrite bool_decide_eq_true_2 by exact Hdim. reflexivity.
Qed.

End Starts.

(** The zeroing loop of [two_mode_squeezing_cpp] clears the cells it goes
    over and prints each of them. *)
Lemma zero_and_print_spec {T : Type} `{Scalar T} (todo : nat) :
  forall (pre mid out : list T),
    length mid = todo ->
    Z.of_nat (length pre + todo) < ullint_modulus ->
    zero_and_print todo (Z.of_nat (length pre)) (pre ++ mid) out
    = Some (pre ++ replicate todo tzero, out ++ replicate todo tzero).
Proof.
  induction todo as [|todo IH]; intros pre mid out Hmid Hfit.
  - destruct mid; [|discriminate]. cbn [zero_and_print replicate].
    rewrite !app_nil_r. reflexivity.
  - destruct mid as [|m mid]; [discriminate|]. injection Hmid as Hmid.
    cbn [zero_and_print].
    rewrite vec_put_Some by (rewrite length_app; cbn [length]; lia).
    cbn [mbind option_bind]. rewrite Nat2Z.id.
    rewrite insert_app_r_alt by lia. rewrite Nat.sub_diag.
    cbn [insert list_insert].
    rewrite vec_at_nat, list_lookup_middle by reflexivity.
    cbn [mbind option_bind].
    rewrite wrap64_small by lia.
    pose proof (IH (pre ++ [tzero]) mid (out ++ [tzero]) Hmid) as IH'.
    rewrite length_app in IH'. cbn [length] in IH'.
    rewrite <- !app_assoc in IH'. cbn [app] in IH'.
    replace (Z.of_nat (length pre + 1)) with (Z.of_nat (length pre) + 1)
      in IH' by lia.
    rewrite IH' by lia. reflexivity.
Qed.

Lemma two_mode_start_spec {T : Type} `{Scalar T} (mem : nat -> T)
    (R : list T) (res : Z) :
  1 <= res -> machine_fits res (dim_of R) ->
  dim_of R = 4%nat ->
  exists r2 : T,
    R !! 2%nat = Some r2 /\
    two_mode_start mem R res
    = Some (res ^ Z.of_nat (dim_of R),
            replicate (Z.to_nat (res ^ Z.of_nat (dim_of R))) tzero,
            (initial_iterator (dim_of R),
             <[0%nat := topp r2]>
               (replicate (Z.to_nat (res ^ Z.of_nat (dim_of R))) tzero))).
Proof.
  intros Hr Hfit Hdim. pose proof (dim_of_square R) as HR. rewrite Hdim in HR.
  destruct (lookup_lt_is_Some_2 R 2) as [r2 Hr2]; [simpl in HR; lia|].
  exists r2. split; [exact Hr2|]. unfold two_mode_start.
  rewrite bool_decide_eq_true_2 by exact Hdim.
  rewrite (allocate_spec mem res _ Hr Hfit). cbn [mbind option_bind].
  pose proof (pow_nat_pos res (dim_of R) Hr) as Hpos.
  pose proof (machine_representable res _ Hfit) as Hfit64.
  pose proof (zero_and_print_spec (Z.to_nat (res ^ Z.of_nat (dim_of R))) []
                (<[0%nat := pointer_fill (mem 0%nat)]>
                   (block mem (Z.to_nat (res ^ Z.of_nat (dim_of R))))) [])
    as Hzero.
  cbn [app length Nat.add] in Hzero. change (Z.of_nat 0) with 0 in Hzero.
  rewrite Hzero by (rewrite ?length_insert, ?length_block; lia).
  cbn [mbind option_bind]. rewrite Hr2. cbn [mbind option_bind].
  rewrite vec_put_Some by (rewrite length_replicate; lia).
  reflexivity.
Qed.

(** * Further properties of the flattener and the enumerator *)

Lemma mixed_radix_ones (r : Z) (n : nat) : mixed_radix r (replicate n 1) = 0.
Proof. induction n as [|n IH]; simpl; [reflexivity | rewrite IH; lia]. Qed.

Lemma mixed_radix_decrement (r : Z) (q : list Z) (i : nat) :
  (i < length q)%nat ->
  mixed_radix r (decrement q i)
  = mixed_radix r q - r ^ Z.of_nat (length q - 1 - i).
Proof.
  revert i. induction q as [|x q IH]; intros i Hi; [simpl in Hi; lia|].
  destruct i as [|i].
  - change (decrement (x :: q) 0) with ((x - 1) :: q).
    cbn [mixed_radix length].
    replace (S (length q) - 1 - 0)%nat with (length q) by lia. ring.
  - rewrite decrement_cons_S. cbn [mixed_radix length].
    rewrite length_decrement, IH by (simpl in Hi; lia).
    replace (S (length q) - 1 - S i)%nat with (length q - 1 - i)%nat by lia.
    ring.
Qed.

Lemma vec2index_seed (d : nat) (resolution : Z) :
  vec2index (replicate (S d) 1) resolution = Some 0.
Proof.
  cbn [replicate vec2index]. f_equal.
  change (wrap64 (1 - 1)) with 0.
  induction d as [|d IH]; [reflexivity|].
  cbn [replicate fold_left].
  replace (wrap64 (0 * resolution + (1 - 1))) with 0; [exact IH|].
  rewrite Z.mul_0_l. reflexivity.
Qed.




Lemma carry_loop_full (res : Z) (c : nat) :
  1 <= res < int_max ->
  forall (pre qre qover : list Z) (j : nat),
    length qre = length pre -> length qover = c ->
    carry_loop res c (length pre)
      {| nextPos := pre ++ replicate c res;
         jumpFrom := qre ++ qover;
         jump := j |}
    = Some {| nextPos := pre ++ replicate c 1;
              jumpFrom := qre ++ replicate c 1;
              jump := match c with O => j | _ => (length pre + c)%nat end |}.
Proof.
  intros Hres. pose proof int_min_neg as Hmin.
  induction c as [|c IH]; intros pre qre qover j Hq Hover.
  - destruct qover; [|discriminate]. reflexivity.
  - destruct qover as [|q0 qover]; [discriminate|]. injection Hover as Hover.
    cbn [replicate carry_loop nextPos jumpFrom jump].
    rewrite list_lookup_middle by reflexivity. cbn [mbind option_bind].
    rewrite (int_add_fits 1 res) by lia. cbn [mbind option_bind].
    rewrite bool_decide_eq_true_2 by lia.
    rewrite !vec_set_middle by congruence. cbn [mbind option_bind].
    pose proof (IH (pre ++ [1]) (qre ++ [1]) qover (S (length pre))) as IH'.
    rewrite !length_app in IH'. cbn [length] in IH'.
    rewrite <- !app_assoc in IH'. cbn [app] in IH'.
    replace (length pre + 1)%nat with (S (length pre)) in IH' by lia.
    rewrite IH' by lia. f_equal. f_equal. destruct c; lia.
Qed.

Lemma first_difference_equal (a : list Z) (todo : nat) :
  forall k : nat,
    (k + todo <= length a)%nat ->
    first_difference todo k a a = Some (k + todo)%nat.
Proof.
  induction todo as [|todo IH]; intros k Hk; cbn [first_difference].
  - f_equal. lia.
  - destruct (lookup_lt_is_Some_2 a k) as [x Hx]; [lia|].
    rewrite Hx. cbn [mbind option_bind].
    rewrite bool_decide_eq_false_2 by tauto.
    rewrite IH by lia. f_equal. lia.
Qed.

Lemma deferred_adjustment (res : Z) (dim : nat) (it : iterator) :
  res <= int_max ->
  it = initial_iterator dim \/ (exists k, stepped res it k) ->
  exists it1,
    deferred_jump it = Some it1 /\
    nextPos it1 = nextPos it /\ jump it1 = 0%nat /\
    aligned (nextPos it1) (jumpFrom it1).
Proof.
  intros Hint [-> | [k Hk]].
  - exists (initial_iterator dim). unfold deferred_jump.
    cbn [initial_iterator jump].
    rewrite bool_decide_eq_false_2 by lia. repeat split.
  - exact (stepped_aligned res it k Hint Hk).
Qed.

Lemma odometer_value_app_ones (r : Z) (k : nat) (l : list Z) :
  odometer_value r (replicate k 1 ++ l) = r ^ Z.of_nat k * odometer_value r l.
Proof.
  induction k as [|k IH]; cbn [replicate app odometer_value].
  - change (Z.of_nat 0) with 0. rewrite Z.pow_0_r. ring.
  - rewrite IH, pow_succ_nat. ring.
Qed.



(** * Fills as a whole *)

Lemma leading_ones_replicate (k : nat) (x : Z) (rest : list Z) :
  x <> 1 -> leading_ones (replicate k 1 ++ x :: rest) = k.
Proof.
  intros Hx. induction k as [|k IH]; cbn [replicate app leading_ones].
  - rewrite bool_decide_eq_false_2 by exact Hx. reflexivity.
  - rewrite bool_decide_eq_true_2 by reflexivity. rewrite IH. reflexivity.
Qed.

(** After a call the state is a function of the position reached. *)
Lemma stepped_iterator_at (res : Z) (it : iterator) (k : nat) :
  stepped res it k ->
  k = leading_ones (nextPos it) /\ it = iterator_at (nextPos it).
Proof.
  intros Hstep. pose proof (stepped_decrement _ _ _ Hstep) as Hdec.
  destruct Hstep as (p & rest & Hnp & _ & Hj & Hp & _).
  assert (Hk : k = leading_ones (nextPos it)).
  { rewrite Hnp, leading_ones_replicate by lia. reflexivity. }
  split; [exact Hk|]. destruct it as [np jf j]. unfold iterator_at.
  cbn [nextPos jumpFrom jump] in *. rewrite <- Hk, <- Hdec, Hj. reflexivity.
Qed.

Lemma subtract_corrections_ext {T : Type} `{Scalar T} (cval : Z -> T)
    (R : list T) (res : Z) (dim k : nat) (jf : list Z) (H1 H2 : list T)
    (lo n : nat) (a : T) :
  (forall i, i ∈ active_axes jf lo n ->
     entry H1 res (decrement jf i) = entry H2 res (decrement jf i)) ->
  subtract_corrections cval R res dim k jf H1 lo n a
  = subtract_corrections cval R res dim k jf H2 lo n a.
Proof.
  unfold subtract_corrections. revert a.
  induction (active_axes jf lo n) as [|i l IH]; intros a Hi; [reflexivity|].
  cbn [fold_left]. unfold correction_term at 2 4.
  rewrite (Hi i) by (left). apply IH. intros j Hj. apply Hi. right. exact Hj.
Qed.

(** A tensor is determined by its entries at the positions of the box. *)
Lemma tensor_ext {T : Type} `{Scalar T} (res : Z) (dim : nat)
    (H1 H2 : list T) :
  1 <= res -> (1 <= dim)%nat -> res ^ Z.of_nat dim <= ullint_modulus ->
  Z.of_nat (length H1) = res ^ Z.of_nat dim ->
  Z.of_nat (length H2) = res ^ Z.of_nat dim ->
  (forall q, length q = dim -> in_box res q ->
             entry H1 res q = entry H2 res q) ->
  H1 = H2.
Proof.
  intros Hr Hdim Hfit Hl1 Hl2 Hq. apply list_eq. intros i.
  destruct (decide (i < length H1)%nat) as [Hi|Hi].
  - destruct (lookup_lt_is_Some_2 H1 i Hi) as [x1 Hx1].
    destruct (lookup_lt_is_Some_2 H2 i) as [x2 Hx2]; [lia|].
    rewrite Hx1, Hx2. f_equal.
    pose proof (length_index2vec dim res (Z.of_nat i)) as Hlen.
    pose proof (index2vec_in_box dim res (Z.of_nat i) Hr ltac:(lia)) as Hbox.
    assert (Hflat : vec2index (index2vec dim res (Z.of_nat i)) res
                    = Some (Z.of_nat i)).
    { rewrite vec2index_mixed_radix; try assumption.
      - f_equal. apply mixed_radix_index2vec; [exact Hr | lia].
      - destruct (index2vec dim res (Z.of_nat i));
          [simpl in Hlen; lia | discriminate].
      - rewrite Hlen. exact Hfit. }
    specialize (Hq _ Hlen Hbox). unfold entry in Hq. rewrite Hflat in Hq.
    cbn [mbind option_bind] in Hq. rewrite !vec_at_nat, Hx1, Hx2 in Hq.
    exact Hq.
  - rewrite !lookup_ge_None_2 by lia. reflexivity.
Qed.

(** The six fills share one shape: each iteration advances the enumerator
    and stores, at the offset of the new position, a value computed from
    what that offset held and from entries of earlier positions. *)
Section Fill.
Context {T : Type} `{Scalar T}.
Variable body : iterator * list T -> option (iterator * list T).
Variable value : iterator -> nat -> list T -> T -> T.
Variables (res : Z) (dim : nat) (Hinit : list T).
Hypothesis res_pos : 1 <= res.
Hypothesis machine : machine_fits res dim.
Let representable : res ^ Z.of_nat dim < ullint_modulus :=
  machine_representable res dim machine.
Hypothesis Hinit_length : Z.of_nat (length Hinit) = res ^ Z.of_nat dim.
Hypothesis body_spec :
  forall (it it' : iterator) (k : nat) (H0 : list T),
    Z.of_nat (length H0) = res ^ Z.of_nat dim ->
    update_iterator it res dim = Some (it', k) ->
    stepped res it' k -> length (nextPos it') = dim ->
    body (it, H0)
    = Some (it', <[Z.to_nat (mixed_radix res (nextPos it')) :=
                     value it' k H0 (entry H0 res (nextPos it'))]> H0).
Hypothesis value_ext :
  forall (it' : iterator) (k : nat) (H1 H2 : list T) (a : T),
    stepped res it' k -> length (nextPos it') = dim ->
    (forall q, length q = dim -> in_box res q ->
               odometer_value res q < odometer_value res (nextPos it') ->
               entry H1 res q = entry H2 res q) ->
    value it' k H1 a = value it' k H2 a.

Lemma fill_flat (q : list Z) :
  length q = dim -> (1 <= dim)%nat -> in_box res q ->
  vec2index q res = Some (mixed_radix res q) /\
  0 <= mixed_radix res q < res ^ Z.of_nat dim.
Proof.
  intros Hq Hdim Hb. split.
  - apply vec2index_mixed_radix; try assumption.
    + destruct q; [simpl in Hq; lia | discriminate].
    + rewrite Hq. lia.
  - pose proof (mixed_radix_range res q res_pos Hb) as Hr.
    rewrite Hq in Hr. exact Hr.
Qed.

(** Storing at the offset of [p] leaves the entry of any other position
    alone. *)
Lemma fill_entry_other (H0 : list T) (p q : list Z) (v : T) :
  length p = dim -> length q = dim -> (1 <= dim)%nat ->
  in_box res p -> in_box res q ->
  odometer_value res q <> odometer_value res p ->
  entry (<[Z.to_nat (mixed_radix res p) := v]> H0) res q = entry H0 res q.
Proof.
  intros Hp Hq Hdim Hpb Hqb Hne.
  destruct (fill_flat q Hq Hdim Hqb) as [Hfq Hrq].
  destruct (fill_flat p Hp Hdim Hpb) as [_ Hrp].
  apply (entry_insert_ne H0 res _ (mixed_radix res q)); try assumption;
    try lia.
  apply offsets_differ; try assumption. lia.
Qed.

(** The [(n+1)]-th iteration. *)
Lemma fill_step (n : nat) (it : iterator) (H0 : list T) :
  Z.of_nat (S n) < res ^ Z.of_nat dim ->
  repeat_body body n (initial_iterator dim, Hinit) = Some (it, H0) ->
  iterator_run res dim n = Some it ->
  Z.of_nat (length H0) = res ^ Z.of_nat dim ->
  exists (it' : iterator) (k : nat),
    update_iterator it res dim = Some (it', k) /\
    iterator_run res dim (S n) = Some it' /\
    stepped res it' k /\ length (nextPos it') = dim /\
    odometer_value res (nextPos it') = Z.of_nat (S n) /\
    repeat_body body (S n) (initial_iterator dim, Hinit)
    = Some (it', <[Z.to_nat (mixed_radix res (nextPos it')) :=
                     value it' k H0 (entry H0 res (nextPos it'))]> H0).
Proof.
  intros Hlt Hrun Hit HH.
  destruct (iterator_call res dim n res_pos
              (machine_no_overflow res dim res_pos machine (S n) Hlt) Hlt) as
    (it0 & it' & k & Hit0 & Hcall & Hit' & Hstep & Hlen & Hval).
  rewrite Hit in Hit0. injection Hit0 as <-.
  exists it', k. repeat split; try assumption.
  rewrite repeat_body_snoc, Hrun. cbn [mbind option_bind].
  apply body_spec; assumption.
Qed.

(** The loop runs in step with the enumerator and keeps the tensor at its
    size; the seed and the entries of the positions still to come are as
    they were at the head of the loop. *)
Lemma fill_run_inv (n : nat) :
  Z.of_nat n < res ^ Z.of_nat dim ->
  exists (it : iterator) (Hn : list T),
    repeat_body body n (initial_iterator dim, Hinit) = Some (it, Hn) /\
    iterator_run res dim n = Some it /\
    Z.of_nat (length Hn) = res ^ Z.of_nat dim /\
    (forall q : list Z,
        length q = dim -> in_box res q ->
        odometer_value res q = 0 \/ Z.of_nat n < odometer_value res q ->
        entry Hn res q = entry Hinit res q).
Proof.
  induction n as [|n IH]; intros Hlt.
  - exists (initial_iterator dim), Hinit. repeat split; try reflexivity.
    exact Hinit_length.
  - destruct IH as (it & Hn & Hrun & Hit & HH & Hframe); [lia|].
    destruct (fill_step n it Hn Hlt Hrun Hit HH) as
      (it' & k & _ & Hit' & Hstep & Hlen & Hval & Hrun').
    eexists it', _. split; [exact Hrun'|]. split; [exact Hit'|].
    split; [rewrite length_insert; exact HH|].
    intros q Hq Hqb Hqv.
    destruct (stepped_in_box _ _ _ res_pos Hstep) as [Hnb _].
    destruct (stepped_length _ _ _ Hstep) as [_ Hk].
    rewrite fill_entry_other; try assumption; try lia.
    apply Hframe; try assumption. lia.
Qed.

(** Once the loop has passed a position its entry stays. *)
Lemma fill_stable (m d : nat) (itm itn : iterator) (Hm Hn : list T) :
  Z.of_nat (m + d) < res ^ Z.of_nat dim ->
  repeat_body body m (initial_iterator dim, Hinit) = Some (itm, Hm) ->
  repeat_body body (m + d) (initial_iterator dim, Hinit) = Some (itn, Hn) ->
  forall q : list Z,
    length q = dim -> in_box res q ->
    odometer_value res q <= Z.of_nat m ->
    entry Hn res q = entry Hm res q.
Proof.
  revert itn Hn. induction d as [|d IH]; intros itn Hn Hlt Hrm Hrn q Hq Hqb Hqv.
  - rewrite Nat.add_0_r in Hrn. rewrite Hrm in Hrn. injection Hrn as _ <-.
    reflexivity.
  - destruct (fill_run_inv (m + d)) as (it & H0 & Hrun & Hit & HH & _); [lia|].
    replace (m + S d)%nat with (S (m + d)) in Hrn, Hlt by lia.
    destruct (fill_step (m + d) it H0 Hlt Hrun Hit HH) as
      (it' & k & _ & _ & Hstep & Hlen & Hval & Hrun').
    rewrite Hrun' in Hrn. injection Hrn as _ <-.
    destruct (stepped_in_box _ _ _ res_pos Hstep) as [Hnb _].
    destruct (stepped_length _ _ _ Hstep) as [_ Hk].
    rewrite fill_entry_other; try assumption; try lia.
    apply (IH it H0); try assumption. lia.
Qed.

(** In the tensor after [N] iterations, the entry of every position [q]
    the loop has passed is what the step computes from that same tensor
    and from what the offset held at the head of the loop. *)
Lemma fill_final (N : nat) (itN : iterator) (HN : list T) (q : list Z) :
  Z.of_nat N < res ^ Z.of_nat dim ->
  repeat_body body N (initial_iterator dim, Hinit) = Some (itN, HN) ->
  length q = dim -> in_box res q ->
  1 <= odometer_value res q <= Z.of_nat N ->
  stepped res (iterator_at q) (leading_ones q) /\
  entry HN res q
  = value (iterator_at q) (leading_ones q) HN (entry Hinit res q).
Proof.
  intros Hlt HrN Hq Hqb Hqv.
  set (n := Z.to_nat (odometer_value res q - 1)).
  destruct (fill_run_inv n) as (it & H0 & Hrun & Hit & HH & Hframe); [lia|].
  destruct (fill_step n it H0 ltac:(lia) Hrun Hit HH) as
    (it' & k & _ & _ & Hstep & Hlen & Hval & Hrun').
  destruct (stepped_in_box _ _ _ res_pos Hstep) as [Hnb _].
  destruct (stepped_length _ _ _ Hstep) as [_ Hk].
  assert (Hpos : nextPos it' = q).
  { apply (odometer_value_inj res); try assumption; lia. }
  destruct (stepped_iterator_at _ _ _ Hstep) as [Hk' Hit'].
  rewrite Hpos in Hk', Hit'. subst k it'. cbn [iterator_at nextPos] in *.
  split; [exact Hstep|].
  assert (Hdim : (1 <= dim)%nat) by lia.
  destruct (fill_flat q Hq Hdim Hqb) as [Hfq Hrq].
  replace N with (S n + (N - S n))%nat in HrN, Hlt by lia.
  rewrite (fill_stable (S n) (N - S n) _ itN _ HN Hlt Hrun' HrN q Hq Hqb)
    by lia.
  rewrite entry_insert_eq by (assumption || lia).
  rewrite (Hframe q Hq Hqb) by lia.
  apply value_ext; try assumption.
  intros p Hp Hpb Hpv. cbn [iterator_at nextPos] in Hpv. symmetry.
  replace (S n + (N - S n))%nat with (n + (N - n))%nat in HrN, Hlt by lia.
  apply (fill_stable n (N - n) it itN H0 HN Hlt Hrun HrN p Hp Hpb). lia.
Qed.

(** Offset [0], where the seed sits, is never stored to. *)
Lemma fill_seed_kept (n : nat) (it : iterator) (Hn : list T) :
  Z.of_nat n < res ^ Z.of_nat dim ->
  repeat_body body n (initial_iterator dim, Hinit) = Some (it, Hn) ->
  Hn !! 0%nat = Hinit !! 0%nat.
Proof.
  revert it Hn. induction n as [|n IH]; intros it Hn Hlt Hrun.
  - cbn in Hrun. injection Hrun as _ <-. reflexivity.
  - destruct (fill_run_inv n) as (it0 & H0 & Hrun0 & Hit & HH & _); [lia|].
    destruct (fill_step n it0 H0 Hlt Hrun0 Hit HH) as
      (it' & k & _ & _ & Hstep & Hlen & Hval & Hrun').
    rewrite Hrun' in Hrun. injection Hrun as _ <-.
    destruct (stepped_in_box _ _ _ res_pos Hstep) as [Hnb _].
    pose proof (mixed_radix_range res _ res_pos Hnb) as Hrng.
    assert (Hne : mixed_radix res (nextPos it') <> 0).
    { intros Hz.
      assert (Hq : nextPos it' = replicate dim 1).
      { apply (mixed_radix_inj res); try assumption.
        - apply in_box_replicate. lia.
        - rewrite length_replicate. exact Hlen.
        - rewrite mixed_radix_ones. exact Hz. }
      rewrite Hq, odometer_value_ones in Hval. lia. }
    rewrite list_lookup_insert_ne by lia.
    apply (IH it0 H0); [lia | exact Hrun0].
Qed.

End Fill.

(** Two runs of a fill whose stored values do not enter the computation
    end with the same tensor as soon as they start from the same seed. *)
Lemma fill_independent {T : Type} `{Scalar T}
    (body : iterator * list T -> option (iterator * list T))
    (value : iterator -> nat -> list T -> T -> T) (res : Z) (dim : nat)
    (Hinit Hinit' : list T) (it it' : iterator) (HN HN' : list T) :
  1 <= res -> (1 <= dim)%nat -> machine_fits res dim ->
  Z.of_nat (length Hinit) = res ^ Z.of_nat dim ->
  Z.of_nat (length Hinit') = res ^ Z.of_nat dim ->
  (forall (it it' : iterator) (k : nat) (H0 : list T),
      Z.of_nat (length H0) = res ^ Z.of_nat dim ->
      update_iterator it res dim = Some (it', k) ->
      stepped res it' k -> length (nextPos it') = dim ->
      body (it, H0)
      = Some (it', <[Z.to_nat (mixed_radix res (nextPos it')) :=
                       value it' k H0 (entry H0 res (nextPos it'))]> H0)) ->
  (forall (it' : iterator) (k : nat) (H1 H2 : list T) (a : T),
      stepped res it' k -> length (nextPos it') = dim ->
      (forall q, length q = dim -> in_box res q ->
                 odometer_value res q < odometer_value res (nextPos it') ->
                 entry H1 res q = entry H2 res q) ->
      value it' k H1 a = value it' k H2 a) ->
  (forall (it' : iterator) (k : nat) (H0 : list T) (a a' : T),
      value it' k H0 a = value it' k H0 a') ->
  Hinit !! 0%nat = Hinit' !! 0%nat ->
  repeat_body body (Z.to_nat (res ^ Z.of_nat dim - 1))
              (initial_iterator dim, Hinit) = Some (it, HN) ->
  repeat_body body (Z.to_nat (res ^ Z.of_nat dim - 1))
              (initial_iterator dim, Hinit') = Some (it', HN') ->
  HN = HN'.
Proof.
  intros Hr Hdim Hfit Hl Hl' Hbody Hext Hstored Hseed Hrun Hrun'.
  pose proof (pow_nat_pos res dim Hr) as Hpos.
  pose proof (machine_representable res dim Hfit) as Hfit64.
  set (N := Z.to_nat (res ^ Z.of_nat dim - 1)) in *.
  destruct (fill_run_inv body value res dim Hinit Hr Hfit Hl Hbody N)
    as (it0 & H0 & Hrun0 & _ & HH & Hframe); [lia|].
  rewrite Hrun in Hrun0. injection Hrun0 as <- <-.
  destruct (fill_run_inv body value res dim Hinit' Hr Hfit Hl' Hbody N)
    as (it0 & H0 & Hrun0 & _ & HH' & Hframe'); [lia|].
  rewrite Hrun' in Hrun0. injection Hrun0 as <- <-.
  apply (tensor_ext res dim); try assumption; try lia.
  assert (Hall : forall (v : nat) (q : list Z),
             length q = dim -> in_box res q ->
             odometer_value res q <= Z.of_nat v ->
             entry HN res q = entry HN' res q).
  { induction v as [|v IH]; intros q Hq Hqb Hqv;
      pose proof (odometer_value_range res q Hr Hqb) as Hrng;
      rewrite Hq in Hrng.
    - assert (Hq1 : q = replicate dim 1).
      { apply (odometer_value_inj res); try assumption.
        - apply in_box_replicate. lia.
        - rewrite length_replicate. exact Hq.
        - rewrite odometer_value_ones. lia. }
      unfold entry. subst q. destruct dim as [|d]; [lia|].
      rewrite vec2index_seed. cbn [mbind option_bind].
      change 0 with (Z.of_nat 0). rewrite !vec_at_nat.
      rewrite (fill_seed_kept body value res (S d) Hinit Hr Hfit Hl Hbody
                 N it HN) by (assumption || lia).
      rewrite (fill_seed_kept body value res (S d) Hinit' Hr Hfit Hl' Hbody
                 N it' HN') by (assumption || lia).
      rewrite Hseed. reflexivity.
    - destruct (decide (odometer_value res q <= Z.of_nat v)) as [Hle|Hgt];
        [apply IH; assumption|].
      destruct (fill_final body value res dim Hinit Hr Hfit Hl Hbody Hext
                  N it HN q) as [Hstep ->]; try assumption; try lia.
      destruct (fill_final body value res dim Hinit' Hr Hfit Hl' Hbody Hext
                  N it' HN' q) as [_ ->]; try assumption; try lia.
      rewrite (Hstored _ _ HN _ (entry Hinit' res q)).
      apply Hext; try assumption.
      intros p Hp Hpb Hpv. cbn [iterator_at nextPos] in Hpv.
      apply IH; try assumption. lia. }
  intros q Hq Hqb.
  pose proof (odometer_value_range res q Hr Hqb) as Hrng.
  apply (Hall (Z.to_nat (odometer_value res q))); try assumption. lia.
Qed.

(** What a step reads lies behind the position it writes. *)
Lemma predecessor_entries_ext {T : Type} `{Scalar T} (res : Z) (dim : nat)
    (it' : iterator) (k : nat) (H1 H2 : list T) :
  1 <= res -> stepped res it' k -> length (nextPos it') = dim ->
  (forall q, length q = dim -> in_box res q ->
             odometer_value res q < odometer_value res (nextPos it') ->
             entry H1 res q = entry H2 res q) ->
  entry H1 res (jumpFrom it') = entry H2 res (jumpFrom it') /\
  (forall i, (i < dim)%nat -> coordinate (jumpFrom it') i > 1 ->
     entry H1 res (decrement (jumpFrom it') i)
     = entry H2 res (decrement (jumpFrom it') i)).
Proof.
  intros Hr Hstep Hlen Hagree.
  destruct (stepped_length _ _ _ Hstep) as [Hjl Hk].
  destruct (stepped_in_box _ _ _ Hr Hstep) as [Hnb Hjb].
  assert (Hback : odometer_value res (jumpFrom it')
                  = odometer_value res (nextPos it') - res ^ Z.of_nat k).
  { destruct Hstep as (p & rest & -> & -> & _).
    rewrite odometer_value_back. ring. }
  pose proof (pow_nat_pos res k Hr) as Hpk. split.
  - apply Hagree; [lia | exact Hjb | lia].
  - intros i Hi Hc. pose proof (pow_nat_pos res i Hr) as Hpi.
    apply Hagree.
    + rewrite length_decrement. lia.
    + apply in_box_decrement; assumption.
    + rewrite odometer_value_decrement by lia. lia.
Qed.

Lemma corrections_ext {T : Type} `{Scalar T} (cval : Z -> T) (R : list T)
    (res : Z) (dim : nat) (it' : iterator) (k : nat) (H1 H2 : list T)
    (lo n : nat) (a : T) :
  1 <= res -> stepped res it' k -> length (nextPos it') = dim ->
  (lo + n <= dim)%nat ->
  (forall q, length q = dim -> in_box res q ->
             odometer_value res q < odometer_value res (nextPos it') ->
             entry H1 res q = entry H2 res q) ->
  subtract_corrections cval R res dim k (jumpFrom it') H1 lo n a
  = subtract_corrections cval R res dim k (jumpFrom it') H2 lo n a.
Proof.
  intros Hr Hstep Hlen Hlo Hagree.
  destruct (predecessor_entries_ext res dim it' k H1 H2 Hr Hstep Hlen Hagree)
    as [_ Hdec].
  apply subtract_corrections_ext. intros i Hi.
  apply active_axes_elem in Hi as [Hi Hc]. apply Hdec; [lia | exact Hc].
Qed.

Lemma not_all_ones (res : Z) (q : list Z) :
  1 <= res -> in_box res q -> q <> replicate (length q) 1 ->
  1 <= odometer_value res q.
Proof.
  intros Hr Hb Hne. pose proof (odometer_value_range res q Hr Hb) as Hrng.
  destruct (decide (odometer_value res q = 0)) as [Hz|Hnz]; [|lia].
  exfalso. apply Hne. apply (odometer_value_inj res); try assumption.
  - apply in_box_replicate. lia.
  - rewrite length_replicate. reflexivity.
  - rewrite odometer_value_ones. exact Hz.
Qed.

(** * [hermite_multidimensional_cpp] as a whole *)

Section HermiteTensor.
Context {T : Type} `{Scalar T}.
Variables (mem : nat -> T) (R y : list T) (res : Z).
Hypothesis res_pos : 1 <= res.
Hypothesis machine : machine_fits res (dim_of R).
Let representable : res ^ Z.of_nat (dim_of R) < ullint_modulus :=
  machine_representable res (dim_of R) machine.
Hypothesis y_length : length y = dim_of R.

Lemma hermite_value_ext (it' : iterator) (k : nat) (H1 H2 : list T) :
  stepped res it' k -> length (nextPos it') = dim_of R ->
  (forall q, length q = dim_of R -> in_box res q ->
             odometer_value res q < odometer_value res (nextPos it') ->
             entry H1 res q = entry H2 res q) ->
  hermite_value R y res (dim_of R) it' k H1
  = hermite_value R y res (dim_of R) it' k H2.
Proof.
  intros Hstep Hlen Hagree. unfold hermite_value.
  destruct (predecessor_entries_ext res _ it' k H1 H2 res_pos Hstep Hlen
              Hagree) as [-> _].
  apply corrections_ext; try assumption. lia.
Qed.

(** The loop of the fill, from its start state to its end. *)
Lemma hermite_fill_run :
  exists (it : iterator) (HN : list T),
    repeat_body (hermite_body R y res (dim_of R))
                (Z.to_nat (res ^ Z.of_nat (dim_of R) - 1))
                (initial_iterator (dim_of R),
                 <[0%nat := tone]>
                   (block mem (Z.to_nat (res ^ Z.of_nat (dim_of R)))))
    = Some (it, HN) /\
    hermite_multidimensional_cpp mem R y res = Some HN /\
    Z.of_nat (length HN) = res ^ Z.of_nat (dim_of R).
Proof.
  pose proof (pow_nat_pos res (dim_of R) res_pos) as Hpos.
  destruct (fill_run_inv (hermite_body R y res (dim_of R))
              (fun it k H0 _ => hermite_value R y res (dim_of R) it k H0)
              res (dim_of R) _ res_pos machine
              (length_seeded mem R res res_pos tone)
              (hermite_body_spec R y res res_pos machine y_length)
              (Z.to_nat (res ^ Z.of_nat (dim_of R) - 1)))
    as (it & HN & Hrun & _ & HH & _); [lia|].
  exists it, HN. split; [exact Hrun|]. split; [|exact HH].
  unfold hermite_multidimensional_cpp, hermite_run.
  rewrite (hermite_start_spec mem R y res res_pos machine y_length).
  cbn [mbind option_bind].
  rewrite (loop_count res _ res_pos machine), Hrun. reflexivity.
Qed.

End HermiteTensor.




Lemma seeded_single {T : Type} `{Scalar T} (mem : nat -> T) (res : Z)
    (seed : T) :
  <[0%nat := seed]> (block mem (Z.to_nat (res ^ Z.of_nat 0))) = [seed].
Proof. reflexivity. Qed.


(** * [renorm_hermite_multidimensional_cpp] *)

Section RenormTensor.
Context {T : Type} `{Scalar T}.
Variables (mem : nat -> T) (R y : list T) (res : Z).
Hypothesis res_pos : 1 <= res.
Hypothesis machine : machine_fits res (dim_of R).
Let representable : res ^ Z.of_nat (dim_of R) < ullint_modulus :=
  machine_representable res (dim_of R) machine.
Hypothesis y_length : length y = dim_of R.
Hypothesis res_lt : res < int_max.

Lemma renorm_body_spec (it it' : iterator) (k : nat) (H0 : list T) :
  Z.of_nat (length H0) = res ^ Z.of_nat (dim_of R) ->
  update_iterator it res (dim_of R) = Some (it', k) ->
  stepped res it' k -> length (nextPos it') = dim_of R ->
  renorm_body R y (intsqrt_table res) res (dim_of R) (it, H0)
  = Some (it',
          <[Z.to_nat (mixed_radix res (nextPos it')) :=
              renorm_value R y res (dim_of R) it' k H0]> H0).
Proof.
  intros HH Hcall Hstep Hlen.
  destruct (stepped_length _ _ _ Hstep) as [Hjl Hk].
  destruct (stepped_in_box _ _ _ res_pos Hstep) as [Hnb Hjb].
  destruct (stepped_lookup _ _ _ Hstep) as (_ & p & Hp & Hnk & Hjk).
  assert (Hback : odometer_value res (jumpFrom it')
                  = odometer_value res (nextPos it') - res ^ Z.of_nat k).
  { destruct Hstep as (p' & rest & -> & -> & _).
    rewrite odometer_value_back. ring. }
  pose proof (pow_nat_pos res k res_pos) as Hpk.
  assert (Hne : nextPos it' <> []).
  { destruct (nextPos it'); [simpl in Hk; lia | discriminate]. }
  assert (Hje : jumpFrom it' <> []).
  { destruct (jumpFrom it'); [simpl in Hjl; lia | discriminate]. }
  unfold renorm_body. cbn [fst snd]. rewrite Hcall. cbn [mbind option_bind].
  rewrite (vec2index_mixed_radix res (nextPos it')); try assumption;
    [|rewrite Hlen; lia].
  cbn [mbind option_bind].
  rewrite (vec2index_mixed_radix res (jumpFrom it')); try assumption;
    [|rewrite Hjl, Hlen; lia].
  cbn [mbind option_bind].
  pose proof (mixed_radix_range res _ res_pos Hnb) as Hnr.
  pose proof (mixed_radix_range res _ res_pos Hjb) as Hjr.
  rewrite Hlen in Hnr. rewrite Hjl, Hlen in Hjr.
  destruct (vec_at_is_Some H0 (mixed_radix res (jumpFrom it'))) as [hf Hhf];
    [lia|].
  assert (Hentry : entry H0 res (jumpFrom it') = hf).
  { unfold entry. rewrite (vec2index_mixed_radix res (jumpFrom it'));
      try assumption; [|rewrite Hjl, Hlen; lia].
    cbn [mbind option_bind]. rewrite Hhf. reflexivity. }
  rewrite Hhf. cbn [mbind option_bind].
  destruct (lookup_lt_is_Some_2 y k) as [yk Hyk]; [lia|].
  rewrite Hyk, Hnk. cbn [mbind option_bind].
  rewrite vec_at_intsqrt by lia. cbn [mbind option_bind].
  rewrite vec_put_Some by lia. cbn [mbind option_bind].
  pose proof (dim_of_square R) as HR.
  assert (Hck : coordinate (nextPos it') k = p + 1).
  { unfold coordinate. rewrite Hnk. reflexivity. }
  rewrite (correction_loop_spec
             (normalized_coef (intsqrt_table res) (nextPos it') k)
             (normalized_val (nextPos it') k) R res (dim_of R) k
             (jumpFrom it') (mixed_radix res (nextPos it')) H0);
    try assumption; try lia.
  - unfold renorm_value. rewrite Hentry, Hyk, Hck. reflexivity.
  - nia.
  - intros i Hi Hc. split.
    + pose proof (in_box_coordinate res (jumpFrom it') i Hjb ltac:(lia)).
      apply normalized_coef_spec; [lia | lia | rewrite Hck; lia].
    + apply offsets_differ; try assumption.
      * apply in_box_decrement; assumption.
      * rewrite length_decrement. lia.
      * rewrite odometer_value_decrement by lia.
        pose proof (pow_nat_pos res i res_pos). lia.
Qed.

Lemma renorm_value_ext (it' : iterator) (k : nat) (H1 H2 : list T) :
  stepped res it' k -> length (nextPos it') = dim_of R ->
  (forall q, length q = dim_of R -> in_box res q ->
             odometer_value res q < odometer_value res (nextPos it') ->
             entry H1 res q = entry H2 res q) ->
  renorm_value R y res (dim_of R) it' k H1
  = renorm_value R y res (dim_of R) it' k H2.
Proof.
  intros Hstep Hlen Hagree. unfold renorm_value.
  destruct (predecessor_entries_ext res _ it' k H1 H2 res_pos Hstep Hlen
              Hagree) as [-> _].
  apply corrections_ext; try assumption. lia.
Qed.

Lemma renorm_fill_run :
  exists (it : iterator) (HN : list T),
    repeat_body (renorm_body R y (intsqrt_table res) res (dim_of R))
                (Z.to_nat (res ^ Z.of_nat (dim_of R) - 1))
                (initial_iterator (dim_of R),
                 <[0%nat := tone]>
                   (block mem (Z.to_nat (res ^ Z.of_nat (dim_of R)))))
    = Some (it, HN) /\
    renorm_hermite_multidimensional_cpp mem R y res = Some HN /\
    Z.of_nat (length HN) = res ^ Z.of_nat (dim_of R).
Proof.
  pose proof (pow_nat_pos res (dim_of R) res_pos) as Hpos.
  destruct (fill_run_inv
              (renorm_body R y (intsqrt_table res) res (dim_of R))
              (fun it k H0 _ => renorm_value R y res (dim_of R) it k H0)
              res (dim_of R) _ res_pos machine
              (length_seeded mem R res res_pos tone)
              renorm_body_spec
              (Z.to_nat (res ^ Z.of_nat (dim_of R) - 1)))
    as (it & HN & Hrun & _ & HH & _); [lia|].
  exists it, HN. split; [exact Hrun|]. split; [|exact HH].
  unfold renorm_hermite_multidimensional_cpp, renorm_run, renorm_start.
  rewrite (seeded_spec mem R res res_pos machine tone).
  cbn [mbind option_bind].
  rewrite build_intsqrt_spec by lia. cbn [mbind option_bind].
  rewrite (loop_count res _ res_pos machine), Hrun. reflexivity.
Qed.

End RenormTensor.



(** * [displacement_cpp] *)

Section DisplacementTensor.
Context {T : Type} {ST : Scalar T} {SE : ScalarExp T}.
Variables (mem : nat -> T) (y : list T) (y0 y1 : T) (res : Z).
Hypothesis res_pos : 1 <= res.
Hypothesis machine : machine_fits res 2.
Let representable : res ^ Z.of_nat 2 < ullint_modulus :=
  machine_representable res 2 machine.
Hypothesis y_first : y !! 0%nat = Some y0.
Hypothesis y_second : y !! 1%nat = Some y1.
Hypothesis res_lt : res < int_max.

Lemma displacement_body_spec (it it' : iterator) (k : nat) (H0 : list T) :
  Z.of_nat (length H0) = res ^ Z.of_nat 2 ->
  update_iterator it res 2 = Some (it', k) ->
  stepped res it' k -> length (nextPos it') = 2%nat ->
  displacement_body y (intsqrt_table res) res (it, H0)
  = Some (it',
          <[Z.to_nat (mixed_radix res (nextPos it')) :=
              displacement_value y res it' k H0]> H0).
Proof.
  intros HH Hcall Hstep Hlen.
  destruct (stepped_length _ _ _ Hstep) as [Hjl Hk].
  destruct (stepped_in_box _ _ _ res_pos Hstep) as [Hnb Hjb].
  destruct (stepped_lookup _ _ _ Hstep) as (_ & p & Hp & Hnk & Hjk).
  assert (Hback : odometer_value res (jumpFrom it')
                  = odometer_value res (nextPos it') - res ^ Z.of_nat k).
  { destruct Hstep as (p' & rest & -> & -> & _).
    rewrite odometer_value_back. ring. }
  pose proof (pow_nat_pos res k res_pos) as Hpk.
  assert (Hne : nextPos it' <> []).
  { destruct (nextPos it'); [simpl in Hk; lia | discriminate]. }
  assert (Hje : jumpFrom it' <> []).
  { destruct (jumpFrom it'); [simpl in Hjl; lia | discriminate]. }
  unfold displacement_body. cbn [fst snd]. rewrite Hcall.
  cbn [mbind option_bind].
  rewrite (vec2index_mixed_radix res (nextPos it')); try assumption;
    [|rewrite Hlen; lia].
  cbn [mbind option_bind].
  rewrite (vec2index_mixed_radix res (jumpFrom it')); try assumption;
    [|rewrite Hjl, Hlen; lia].
  cbn [mbind option_bind].
  pose proof (mixed_radix_range res _ res_pos Hnb) as Hnr.
  pose proof (mixed_radix_range res _ res_pos Hjb) as Hjr.
  rewrite Hlen in Hnr. rewrite Hjl, Hlen in Hjr.
  destruct (vec_at_is_Some H0 (mixed_radix res (jumpFrom it'))) as [hf Hhf];
    [lia|].
  assert (Hentry : entry H0 res (jumpFrom it') = hf).
  { unfold entry. rewrite (vec2index_mixed_radix res (jumpFrom it'));
      try assumption; [|rewrite Hjl, Hlen; lia].
    cbn [mbind option_bind]. rewrite Hhf. reflexivity. }
  rewrite Hhf. cbn [mbind option_bind].
  assert (Hyk : exists yk, y !! k = Some yk).
  { destruct k as [|[|k]]; [eauto | eauto | lia]. }
  destruct Hyk as [yk Hyk].
  rewrite Hyk, Hnk. cbn [mbind option_bind].
  rewrite vec_at_intsqrt by lia. cbn [mbind option_bind].
  rewrite vec_put_Some by lia. cbn [mbind option_bind].
  assert (Hck : coordinate (nextPos it') k = p + 1).
  { unfold coordinate. rewrite Hnk. reflexivity. }
  unfold displacement_value. rewrite Hentry, Hyk, Hck.
  cbn [default from_option id].
  set (ii := if bool_decide (k = 0%nat) then 1%nat else 0%nat).
  assert (Hii : (ii < 2)%nat) by (unfold ii; destruct (bool_decide (k = 0%nat)); lia).
  destruct (lookup_lt_is_Some_2 (jumpFrom it') ii) as [v Hv]; [lia|].
  assert (Hcv : coordinate (jumpFrom it') ii = v)
    by (unfold coordinate; rewrite Hv; reflexivity).
  rewrite Hv, Hcv. cbn [mbind option_bind].
  destruct (decide (v > 1)) as [Hgt|Hle].
  - rewrite !bool_decide_eq_true_2 by exact Hgt.
    pose proof (vec_minus_unit (jumpFrom it') ii ltac:(lia)) as Hminus.
    rewrite Hjl, Hlen in Hminus.
    destruct (unit_vector 2 ii) as [prevJump|]; [|discriminate].
    cbn [mbind option_bind] in Hminus |- *. injection Hminus as ->.
    pose proof (in_box_decrement res _ ii Hjb ltac:(lia)) as Hdb.
    pose proof (length_decrement (jumpFrom it') ii) as Hdl.
    assert (Hdv : vec2index (decrement (jumpFrom it') ii) res
                  = Some (mixed_radix res (decrement (jumpFrom it') ii))).
    { apply vec2index_mixed_radix; try assumption.
      - destruct (decrement (jumpFrom it') ii);
          [simpl in Hdl; lia | discriminate].
      - rewrite Hdl, Hjl, Hlen. lia. }
    pose proof (mixed_radix_range res _ res_pos Hdb) as Hdr.
    rewrite Hdl, Hjl, Hlen in Hdr.
    rewrite Hdv. cbn [mbind option_bind].
    pose proof (in_box_coordinate res (jumpFrom it') ii Hjb ltac:(lia)).
    rewrite normalized_coef_spec by (lia || rewrite Hck; lia).
    cbn [mbind option_bind].
    assert (Hdiff : mixed_radix res (decrement (jumpFrom it') ii)
                    <> mixed_radix res (nextPos it')).
    { apply offsets_differ; try assumption; try lia.
      rewrite odometer_value_decrement by lia.
      pose proof (pow_nat_pos res ii res_pos). lia. }
    rewrite (vec_at_insert_ne H0 (mixed_radix res (nextPos it'))
               (mixed_radix res (decrement (jumpFrom it') ii))) by lia.
    destruct (vec_at_is_Some H0 (mixed_radix res (decrement (jumpFrom it') ii)))
      as [hp Hhp]; [lia|].
    assert (Hentryp : entry H0 res (decrement (jumpFrom it') ii) = hp).
    { unfold entry. rewrite Hdv. cbn [mbind option_bind]. rewrite Hhp.
      reflexivity. }
    rewrite Hhp, Hentryp. cbn [mbind option_bind].
    rewrite vec_at_insert_eq by lia. cbn [mbind option_bind].
    rewrite vec_put_Some by (rewrite length_insert; lia).
    cbn [mbind option_bind]. rewrite list_insert_insert_eq. reflexivity.
  - rewrite !bool_decide_eq_false_2 by exact Hle. reflexivity.
Qed.

Lemma displacement_value_ext (it' : iterator) (k : nat) (H1 H2 : list T) :
  stepped res it' k -> length (nextPos it') = 2%nat ->
  (forall q, length q = 2%nat -> in_box res q ->
             odometer_value res q < odometer_value res (nextPos it') ->
             entry H1 res q = entry H2 res q) ->
  displacement_value y res it' k H1 = displacement_value y res it' k H2.
Proof.
  intros Hstep Hlen Hagree. unfold displacement_value.
  destruct (predecessor_entries_ext res _ it' k H1 H2 res_pos Hstep Hlen
              Hagree) as [-> Hdec].
  set (ii := if bool_decide (k = 0%nat) then 1%nat else 0%nat).
  assert (Hii : (ii < 2)%nat) by (unfold ii; destruct (bool_decide (k = 0%nat)); lia).
  destruct (decide (coordinate (jumpFrom it') ii > 1)) as [Hgt|Hle].
  - rewrite !bool_decide_eq_true_2 by exact Hgt.
    rewrite (Hdec ii Hii Hgt). reflexivity.
  - rewrite !bool_decide_eq_false_2 by exact Hle. reflexivity.
Qed.

Lemma displacement_seeded_length :
  Z.of_nat (length (<[0%nat := texp (tmul (tmul thalf y0) y1)]>
                      (block mem (Z.to_nat (res ^ Z.of_nat 2)))))
  = res ^ Z.of_nat 2.
Proof.
  rewrite length_insert, length_block.
  pose proof (pow_nat_pos res 2 res_pos). lia.
Qed.

Lemma displacement_fill_run :
  exists (it : iterator) (HN : list T),
    repeat_body (displacement_body y (intsqrt_table res) res)
                (Z.to_nat (res ^ Z.of_nat 2 - 1))
                (initial_iterator 2,
                 <[0%nat := texp (tmul (tmul thalf y0) y1)]>
                   (block mem (Z.to_nat (res ^ Z.of_nat 2))))
    = Some (it, HN) /\
    displacement_cpp mem y res = Some HN /\
    Z.of_nat (length HN) = res ^ Z.of_nat 2.
Proof.
  pose proof (pow_nat_pos res 2 res_pos) as Hpos.
  destruct (fill_run_inv
              (displacement_body y (intsqrt_table res) res)
              (fun it k H0 _ => displacement_value y res it k H0)
              res 2 _ res_pos machine displacement_seeded_length
              displacement_body_spec
              (Z.to_nat (res ^ Z.of_nat 2 - 1)))
    as (it & HN & Hrun & _ & HH & _); [lia|].
  exists it, HN. split; [exact Hrun|]. split; [|exact HH].
  unfold displacement_cpp, displacement_run, displacement_start.
  rewrite (allocate_spec mem res 2 res_pos machine).
  cbn [mbind option_bind]. rewrite y_first, y_second.
  cbn [mbind option_bind].
  rewrite vec_put_Some by (rewrite length_insert, length_block; lia).
  cbn [mbind option_bind]. change (Z.to_nat 0) with 0%nat.
  rewrite list_insert_insert_eq.
  rewrite build_intsqrt_spec by lia. cbn [mbind option_bind].
  rewrite (loop_count res 2 res_pos machine), Hrun. reflexivity.
Qed.

End DisplacementTensor.



(** * The fills with a selection rule as a whole *)

Section SelectiveTensor.
Context {T : Type} `{Scalar T}.
Variables (accepts : list Z -> option bool) (limits : nat -> nat * nat).
Variables (R : list T) (res : Z) (dim : nat).
Hypothesis res_pos : 1 <= res.
Hypothesis machine : machine_fits res dim.
Let representable : res ^ Z.of_nat dim < ullint_modulus :=
  machine_representable res dim machine.
Hypothesis R_length : (dim * dim <= length R)%nat.
Hypothesis accepts_total :
  forall p, length p = dim -> in_box res p -> is_Some (accepts p).
Hypothesis limits_ok :
  forall k, (fst (limits k) <= snd (limits k) <= dim)%nat.

Lemma selective_body_value (it it' : iterator) (k : nat) (H0 : list T) :
  Z.of_nat (length H0) = res ^ Z.of_nat dim ->
  update_iterator it res dim = Some (it', k) ->
  stepped res it' k -> length (nextPos it') = dim ->
  selective_body accepts limits R (intsqrt_table res) res dim (it, H0)
  = Some (it', <[Z.to_nat (mixed_radix res (nextPos it')) :=
                   selective_value accepts limits R res dim it' k H0
                     (entry H0 res (nextPos it'))]> H0).
Proof.
  intros HH Hcall Hstep Hlen.
  destruct (selective_body_spec accepts limits R res dim H0 res_pos
              machine R_length accepts_total limits_ok it it' k H0
              HH Hcall Hstep Hlen) as (b & Hb & ->).
  f_equal. f_equal. unfold selective_value. rewrite Hb.
  destruct b; [reflexivity|].
  destruct (stepped_in_box _ _ _ res_pos Hstep) as [Hnb _].
  destruct (stepped_length _ _ _ Hstep) as [_ Hk].
  pose proof (mixed_radix_range res _ res_pos Hnb) as Hnr.
  rewrite Hlen in Hnr.
  destruct (vec_at_is_Some H0 (mixed_radix res (nextPos it'))) as [a Ha];
    [lia|].
  assert (Hentry : entry H0 res (nextPos it') = a).
  { unfold entry. rewrite (vec2index_mixed_radix res (nextPos it'));
      try assumption.
    - cbn [mbind option_bind]. rewrite Ha. reflexivity.
    - destruct (nextPos it'); [simpl in Hk; lia | discriminate].
    - rewrite Hlen. lia. }
  rewrite Hentry. symmetry. apply list_insert_id.
  unfold vec_at in Ha. rewrite bool_decide_eq_true_2 in Ha by lia. exact Ha.
Qed.

Lemma selective_value_ext (it' : iterator) (k : nat) (H1 H2 : list T)
    (a : T) :
  stepped res it' k -> length (nextPos it') = dim ->
  (forall q, length q = dim -> in_box res q ->
             odometer_value res q < odometer_value res (nextPos it') ->
             entry H1 res q = entry H2 res q) ->
  selective_value accepts limits R res dim it' k H1 a
  = selective_value accepts limits R res dim it' k H2 a.
Proof.
  intros Hstep Hlen Hagree. unfold selective_value.
  destruct (accepts (nextPos it')) as [[|]|]; try reflexivity.
  pose proof (limits_ok k). apply corrections_ext; try assumption. lia.
Qed.

End SelectiveTensor.

Lemma variant_limits_ok (v : variant) (dim k : nat) :
  (fst (variant_limits v dim k) <= snd (variant_limits v dim k) <= dim)%nat.
Proof.
  destruct v; cbn [variant_limits];
    [apply interferometer_limits_ok | apply all_axes_ok | apply all_axes_ok].
Qed.

Lemma variant_accepts_total (v : variant) (res : Z) (dim : nat) (p : list Z) :
  variant_shape v dim -> length p = dim -> in_box res p ->
  is_Some (variant_accepts v dim p).
Proof.
  intros Hshape Hlen Hb. destruct v; cbn [variant_shape variant_accepts] in *.
  - apply (interferometer_accepts_total res); assumption.
  - apply (squeezing_accepts_total res); [congruence | exact Hb].
  - apply (two_mode_accepts_total res); [congruence | exact Hb].
Qed.

(** The loop of a fill without a source vector, from its start state to
    its end. *)
Lemma variant_fill_run {T : Type} `{Scalar T} (v : variant) (mem : nat -> T)
    (R : list T) (res : Z) :
  1 <= res -> variant_shape v (dim_of R) ->
  machine_fits res (dim_of R) -> res < int_max ->
  exists (Hinit : list T) (it : iterator) (HN : list T),
    variant_start v mem R res = Some Hinit /\
    Z.of_nat (length Hinit) = res ^ Z.of_nat (dim_of R) /\
    repeat_body (selective_body (variant_accepts v (dim_of R))
                                (variant_limits v (dim_of R)) R
                                (intsqrt_table res) res (dim_of R))
                (Z.to_nat (res ^ Z.of_nat (dim_of R) - 1))
                (initial_iterator (dim_of R), Hinit)
    = Some (it, HN) /\
    variant_result v mem R res = Some HN.
Proof.
  intros Hr Hshape Hfit Hlt.
  pose proof (pow_nat_pos res (dim_of R) Hr) as Hpos.
  pose proof (dim_of_square R) as HR.
  pose proof (build_intsqrt_spec (T:=T) res ltac:(lia)) as Hsqrt.
  assert (Hgen : forall Hinit : list T,
             Z.of_nat (length Hinit) = res ^ Z.of_nat (dim_of R) ->
             exists (it : iterator) (HN : list T),
               repeat_body (selective_body (variant_accepts v (dim_of R))
                                           (variant_limits v (dim_of R)) R
                                           (intsqrt_table res) res (dim_of R))
                           (Z.to_nat (res ^ Z.of_nat (dim_of R) - 1))
                           (initial_iterator (dim_of R), Hinit)
               = Some (it, HN)).
  { intros Hinit Hl.
    destruct (selective_run_inv (variant_accepts v (dim_of R))
                (variant_limits v (dim_of R)) R res (dim_of R) Hinit Hr Hfit HR
                (fun p => variant_accepts_total v res (dim_of R) p Hshape)
                (variant_limits_ok v (dim_of R)) Hl
                (Z.to_nat (res ^ Z.of_nat (dim_of R) - 1)))
      as (it & HN & Hrun & _); [lia|].
    exists it, HN. exact Hrun. }
  destruct v; cbn [variant_shape variant_start variant_result] in *.
  - destruct (Hgen _ (length_seeded mem R res Hr tone)) as (it & HN & Hrun).
    eexists _, it, HN.
    rewrite (interferometer_start_spec mem R res Hr Hfit Hshape).
    split; [reflexivity|]. split; [apply (length_seeded mem R res Hr)|].
    split; [exact Hrun|].
    unfold interferometer_cpp, interferometer_run.
    rewrite (interferometer_start_spec mem R res Hr Hfit Hshape).
    cbn [mbind option_bind]. rewrite Hsqrt. cbn [mbind option_bind].
    rewrite (loop_count res _ Hr Hfit).
    unfold interferometer_body. cbn [variant_accepts variant_limits] in Hrun.
    rewrite Hrun. reflexivity.
  - destruct (squeezing_start_spec mem R res Hr Hfit Hshape)
      as (r1 & _ & Hstart).
    destruct (Hgen _ (length_seeded mem R res Hr (tsqrt (topp r1))))
      as (it & HN & Hrun).
    eexists _, it, HN. rewrite Hstart.
    split; [reflexivity|]. split; [apply (length_seeded mem R res Hr)|].
    split; [exact Hrun|].
    unfold squeezing_cpp, squeezing_run. rewrite Hstart.
    cbn [mbind option_bind]. rewrite Hsqrt. cbn [mbind option_bind].
    rewrite (loop_count res _ Hr Hfit).
    unfold squeezing_body. cbn [variant_accepts variant_limits] in Hrun.
    rewrite Hrun. reflexivity.
  - destruct (two_mode_start_spec mem R res Hr Hfit Hshape)
      as (r2 & _ & Hstart).
    assert (Hl : Z.of_nat (length (<[0%nat := topp r2]>
                   (replicate (Z.to_nat (res ^ Z.of_nat (dim_of R))) tzero)))
                 = res ^ Z.of_nat (dim_of R)).
    { rewrite length_insert, length_replicate. lia. }
    destruct (Hgen _ Hl) as (it & HN & Hrun).
    eexists _, it, HN. rewrite Hstart.
    split; [reflexivity|]. split; [exact Hl|]. split; [exact Hrun|].
    unfold two_mode_squeezing_cpp, two_mode_run. rewrite Hstart.
    cbn [mbind option_bind]. rewrite Hsqrt. cbn [mbind option_bind].
    rewrite (loop_count res _ Hr Hfit).
    unfold two_mode_body. cbn [variant_accepts variant_limits] in Hrun.
    rewrite Hrun. reflexivity.
Qed.

Lemma mixed_radix_positive (res : Z) (q : list Z) :
  1 <= res -> in_box res q -> q <> replicate (length q) 1 ->
  1 <= mixed_radix res q.
Proof.
  intros Hr Hb Hne. pose proof (mixed_radix_range res q Hr Hb) as Hrng.
  destruct (decide (mixed_radix res q = 0)) as [Hz|Hnz]; [|lia].
  exfalso. apply Hne. apply (mixed_radix_inj res); try assumption.
  - apply in_box_replicate. lia.
  - rewrite length_replicate. reflexivity.
  - rewrite mixed_radix_ones. exact Hz.
Qed.

Lemma selective_fill_result {T : Type} `{Scalar T} (v : variant)
    (mem : nat -> T) (R : list T) (resolution : Z) :
  1 <= resolution -> variant_shape v (dim_of R) ->
  machine_fits resolution (dim_of R) -> resolution < int_max ->
  exists Hinit Hout : list T,
    variant_start v mem R resolution = Some Hinit /\
    variant_result v mem R resolution = Some Hout /\
    Z.of_nat (length Hout) = resolution ^ Z.of_nat (dim_of R) /\
    Hout !! 0%nat = Hinit !! 0%nat /\
    forall q : list Z,
      length q = dim_of R -> in_box resolution q ->
      q <> replicate (dim_of R) 1 ->
      entry Hout resolution q
      = selective_value (variant_accepts v (dim_of R))
                        (variant_limits v (dim_of R)) R resolution (dim_of R)
                        (iterator_at q) (leading_ones q) Hout
                        (entry Hinit resolution q).
Proof.
  intros Hr Hshape Hfit Hlt.
  destruct (variant_fill_run v mem R resolution Hr Hshape Hfit Hlt) as
    (Hinit & it & HN & Hstart & Hl & Hrun & Hres).
  pose proof (pow_nat_pos resolution (dim_of R) Hr) as Hpos.
  pose proof (machine_representable resolution _ Hfit) as Hfit64.
  pose proof (dim_of_square R) as HR.
  pose proof (selective_body_value (variant_accepts v (dim_of R))
                (variant_limits v (dim_of R)) R resolution (dim_of R)
                Hr Hfit HR
                (fun p => variant_accepts_total v resolution (dim_of R) p Hshape)
                (variant_limits_ok v (dim_of R))) as Hbody.
  pose proof (fun it' k H1 H2 a =>
                selective_value_ext (variant_accepts v (dim_of R))
                  (variant_limits v (dim_of R)) R resolution (dim_of R)
                  Hr HR (variant_limits_ok v (dim_of R)) it' k H1 H2 a) as Hext.
  exists Hinit, HN. split; [exact Hstart|]. split; [exact Hres|].
  destruct (fill_run_inv _ _ resolution (dim_of R) Hinit Hr Hfit Hl Hbody
              (Z.to_nat (resolution ^ Z.of_nat (dim_of R) - 1)))
    as (it0 & H0 & Hrun0 & _ & HH & _); [lia|].
  rewrite Hrun in Hrun0. injection Hrun0 as <- <-.
  split; [exact HH|]. split.
  - apply (fill_seed_kept _ _ resolution (dim_of R) Hinit Hr Hfit Hl Hbody
             (Z.to_nat (resolution ^ Z.of_nat (dim_of R) - 1)) it HN);
      [lia | exact Hrun].
  - intros q Hq Hqb Hne.
    pose proof (odometer_value_range resolution q Hr Hqb) as Hrng.
    rewrite Hq in Hrng. rewrite <- Hq in Hne.
    pose proof (not_all_ones resolution q Hr Hqb Hne) as Hq1.
    destruct (fill_final _ _ resolution (dim_of R) Hinit Hr Hfit Hl Hbody Hext
                (Z.to_nat (resolution ^ Z.of_nat (dim_of R) - 1)) it HN q)
      as [_ Hent]; try assumption; try lia.
Qed.



Lemma variant_accepts_ones (v : variant) (dim : nat) :
  variant_shape v dim ->
  variant_accepts v dim (replicate dim 1) = Some true.
Proof.
  destruct v; cbn [variant_shape variant_accepts]; intros Hshape.
  - unfold interferometer_accepts.
    pose proof (Nat.div_mod_eq dim 2) as Hdiv.
    set (h := (dim / 2)%nat) in *. clearbody h.
    rewrite (sum_axes_ones (replicate dim 1) h 0 0)
      by (intros i Hi; apply lookup_replicate_2; lia).
    cbn [mbind option_bind].
    rewrite (sum_axes_ones (replicate dim 1) (dim - h) h 0)
      by (intros i Hi; apply lookup_replicate_2; lia).
    cbn [mbind option_bind].
    rewrite bool_decide_eq_true_2 by lia. reflexivity.
  - subst dim. reflexivity.
  - subst dim. reflexivity.
Qed.


Lemma two_mode_start_block {T : Type} `{Scalar T} (mem mem' : nat -> T)
    (R : list T) (resolution : Z) :
  two_mode_start mem R resolution = two_mode_start mem' R resolution.
Proof.
  unfold two_mode_start. destruct (bool_decide (dim_of R = 4%nat)); [|reflexivity].
  rewrite !allocate_cells.
  destruct (pow_to_ullint resolution (dim_of R)) as [Hdim|] eqn:Hpow;
    [|reflexivity].
  apply pow_to_ullint_range in Hpow as (_ & _ & Hrng).
  pose proof exact_double_max_small as Hsmall.
  cbn [mbind option_bind].
  destruct (Z.to_nat Hdim) as [|n] eqn:Hn; [reflexivity|].
  assert (Hzero : forall m : nat -> T,
    (h0 ← vec_at (block m (S n)) 0;
     H1 ← vec_put (block m (S n)) 0 (pointer_fill h0); Some (Hdim, H1))
    ≫= (fun '(Hdim0, H0) =>
          '(H1, out) ← zero_and_print (Z.to_nat Hdim0) 0 H0 [];
          r2 ← R !! 2%nat;
          H2 ← vec_put H1 0 (topp r2);
          Some (Hdim0, out, (initial_iterator (dim_of R), H2)))
    = (r2 ← R !! 2%nat;
       H2 ← vec_put (replicate (S n) tzero) 0 (topp r2);
       Some (Hdim, replicate (S n) tzero, (initial_iterator (dim_of R), H2)))).
  { intros m. cbn [block seq fmap list_fmap vec_at bool_decide Z.to_nat lookup
                   list_lookup mbind option_bind].
    unfold vec_at, vec_put, vec_at.
    change (bool_decide (0 <= 0)) with true. change (Z.to_nat 0) with 0%nat.
    cbn [lookup list_lookup insert list_insert mbind option_bind].
    rewrite Hn.
    pose proof (zero_and_print_spec (S n) []
                  (pointer_fill (m 0%nat) :: list_fmap _ _ m (seq 1 n)) []) as Hz.
    cbn [length app] in Hz. change (Z.of_nat 0) with 0 in Hz.
    change (list_fmap nat T m (seq 1 n)) with (m <$> seq 1 n) in Hz.
    rewrite Hz.
    - reflexivity.
    - rewrite length_fmap, length_seq. reflexivity.
    - lia. }
  rewrite (Hzero mem), (Hzero mem'). reflexivity.
Qed.



(** ** Where the enumerator overflows *)

(** The state a fill is in when axis [0] is full for the first time. *)
Lemma iterator_run_first_row (res : Z) (d : nat) :
  2 <= res <= int_max ->
  iterator_run res (S d) (Z.to_nat (res - 1))
  = Some (Iterator (res :: replicate d 1) ((res - 1) :: replicate d 1) 0).
Proof.
  intros Hres. assert (Hr : 1 <= res) by lia.
  pose proof (pow_nat_pos res d Hr) as Hpd.
  assert (Hn : Z.of_nat (Z.to_nat (res - 1)) < res ^ Z.of_nat (S d))
    by (rewrite pow_succ_nat; nia).
  destruct (iterator_run_inv res (S d) (Z.to_nat (res - 1)) Hr
              ltac:(split; [lia | right; lia]) Hn)
    as (it & Hrun & Hlen & Hbox & Hval & Hst).
  destruct Hst as [[Hzero _] | [k Hstep]]; [lia|].
  rewrite Hrun. f_equal.
  destruct Hstep as (p & rest & Hnp & Hjf & Hj & Hp & Hrest).
  destruct it as [np jf j]. cbn [nextPos jumpFrom jump] in *. subst np jf j.
  rewrite odometer_value_app_ones in Hval. cbn [odometer_value] in Hval.
  pose proof (odometer_value_range res rest Hr Hrest) as [Hrest0 _].
  pose proof (pow_nat_pos res k Hr) as Hpk.
  assert (Hk : k = 0%nat).
  { destruct k as [|k]; [reflexivity | exfalso].
    rewrite pow_succ_nat, Z2Nat.id in Hval by lia.
    pose proof (pow_nat_pos res k Hr) as Hk1.
    set (a := res ^ Z.of_nat k) in *.
    set (b := p + 1 - 1 + res * odometer_value res rest) in *.
    assert (Hb : 1 <= b) by (unfold b; nia).
    assert (Hab : 1 <= a * b) by nia.
    assert (Hrab : res * a * b = res * (a * b)) by ring.
    nia. }
  subst k. change (res ^ Z.of_nat 0) with 1 in Hval.
  rewrite Z2Nat.id in Hval by lia.
  cbn [replicate app] in *.
  assert (Hov : odometer_value res rest = 0) by nia.
  assert (Hpv : p = res - 1) by nia.
  assert (Hones : rest = replicate d 1).
  { cbn [length] in Hlen. injection Hlen as Hlen.
    apply (odometer_value_inj res); try assumption.
    - apply in_box_replicate. lia.
    - rewrite length_replicate. exact Hlen.
    - rewrite odometer_value_ones. exact Hov. }
  subst p rest. f_equal. f_equal. lia.
Qed.

(** With more than one axis and [resolution = INT_MAX], the call made from
    that state computes [1 + INT_MAX]. *)
Lemma update_iterator_overflow (d : nat) :
  update_iterator
    (Iterator (int_max :: replicate (S d) 1)
              ((int_max - 1) :: replicate (S d) 1) 0)
    int_max (S (S d))
  = None.
Proof. reflexivity. Qed.

(** ** The same-axis predecessor of an accepted position *)

Lemma sum_axes_shift (v : list Z) (d : Z) (todo : nat) :
  forall (lo : nat) (acc : Z),
    sum_axes v todo lo (acc + d) = (fun s => s + d) <$> sum_axes v todo lo acc.
Proof.
  induction todo as [|todo IH]; intros lo acc; cbn [sum_axes]; [reflexivity|].
  destruct (v !! lo) as [x|]; [|reflexivity]. cbn [mbind option_bind].
  replace (acc + d + x) with (acc + x + d) by lia. apply IH.
Qed.

Lemma sum_axes_insert (v : list Z) (i : nat) (x y : Z) (todo : nat) :
  v !! i = Some x ->
  forall (lo : nat) (acc : Z),
    sum_axes (<[i := y]> v) todo lo acc
    = (fun s => if bool_decide (lo <= i < lo + todo)%nat then s + (y - x)
                else s) <$> sum_axes v todo lo acc.
Proof.
  intros Hx. induction todo as [|todo IH]; intros lo acc; cbn [sum_axes].
  - rewrite bool_decide_eq_false_2 by lia. reflexivity.
  - destruct (decide (lo = i)) as [->|Hne].
    + rewrite list_lookup_insert_eq by (apply lookup_lt_is_Some; eauto).
      rewrite Hx. cbn [mbind option_bind]. rewrite IH.
      rewrite bool_decide_eq_false_2 by lia.
      rewrite bool_decide_eq_true_2 by lia.
      replace (acc + y) with (acc + x + (y - x)) by lia.
      rewrite sum_axes_shift.
      destruct (sum_axes v todo (S i) (acc + x)); reflexivity.
    + rewrite list_lookup_insert_ne by congruence.
      destruct (v !! lo) as [z|]; [|reflexivity]. cbn [mbind option_bind].
      rewrite IH.
      destruct (sum_axes v todo (S lo) (acc + z)) as [s|]; [|reflexivity].
      cbn [fmap option_fmap option_map]. f_equal.
      destruct (decide (lo <= i < lo + S todo)%nat) as [Hin|Hout].
      * rewrite !bool_decide_eq_true_2 by lia. reflexivity.
      * rewrite !bool_decide_eq_false_2 by lia. reflexivity.
Qed.

(** Stepping one axis back from a position that passes the selection rule
    gives a position that does not: one of the two sums the rule compares
    drops by one, or one parity flips. *)
Lemma predecessor_rejected (v : variant) (res : Z) (dim : nat)
    (it : iterator) (k : nat) :
  1 <= res -> variant_shape v dim ->
  stepped res it k -> length (nextPos it) = dim ->
  variant_accepts v dim (nextPos it) = Some true ->
  variant_accepts v dim (jumpFrom it) = Some false.
Proof.
  intros Hr Hshape Hstep Hlen Hacc.
  pose proof (stepped_decrement _ _ _ Hstep) as Hdec.
  destruct (stepped_length _ _ _ Hstep) as [_ Hk].
  destruct (stepped_lookup _ _ _ Hstep) as (_ & p & Hp & Hnk & _).
  rewrite Hdec. unfold decrement, coordinate. rewrite Hnk.
  cbn [default from_option id].
  destruct v; cbn [variant_shape variant_accepts] in *.
  - unfold interferometer_accepts in *.
    pose proof (Nat.div_mod_eq dim 2) as Hdm. rewrite Hshape in Hdm.
    set (h := (dim / 2)%nat) in *. clearbody h.
    rewrite !(sum_axes_insert _ k (p + 1) (p + 1 - 1)) by exact Hnk.
    destruct (sum_axes (nextPos it) h 0 0) as [bran|]; [|discriminate].
    cbn [mbind option_bind fmap option_fmap option_map] in *.
    destruct (sum_axes (nextPos it) (dim - h) h 0) as [ketn|];
      [|discriminate].
    cbn [mbind option_bind fmap option_fmap option_map] in *.
    injection Hacc as Hacc. apply bool_decide_eq_true_1 in Hacc. f_equal.
    apply bool_decide_eq_false_2.
    destruct (decide (k < h)%nat) as [Hlt|Hge].
    + rewrite bool_decide_eq_true_2 by lia.
      rewrite bool_decide_eq_false_2 by lia. lia.
    + rewrite bool_decide_eq_false_2 by lia.
      rewrite bool_decide_eq_true_2 by lia. lia.
  - subst dim. destruct (stepped_in_box _ _ _ Hr Hstep) as [Hnb _].
    destruct (nextPos it) as [|a [|b [|c l]]]; try discriminate.
    apply in_box_cons in Hnb as [Ha Hnb]. apply in_box_cons in Hnb as [Hb _].
    unfold squeezing_accepts in *.
    cbn [lookup list_lookup mbind option_bind] in Hacc.
    injection Hacc as Hacc. apply bool_decide_eq_true_1 in Hacc.
    rewrite !Z.rem_mod_nonneg in Hacc by lia.
    destruct k as [|[|k]]; cbn [length] in Hk; [| |lia];
      cbn [lookup list_lookup] in Hnk; injection Hnk as Hnk;
      cbn [insert list_insert lookup list_lookup mbind option_bind];
      f_equal; apply bool_decide_eq_false_2;
      rewrite !Z.rem_mod_nonneg by lia; subst;
      Z.div_mod_to_equations; lia.
  - subst dim. destruct (stepped_in_box _ _ _ Hr Hstep) as [Hnb _].
    destruct (nextPos it) as [|a [|b [|c [|d [|e l]]]]]; try discriminate.
    unfold two_mode_accepts in *.
    cbn [lookup list_lookup mbind option_bind] in Hacc.
    injection Hacc as Hacc. apply bool_decide_eq_true_1 in Hacc.
    destruct k as [|[|[|[|k]]]]; cbn [length] in Hk; [| | | |lia];
      cbn [lookup list_lookup] in Hnk; injection Hnk as Hnk;
      cbn [insert list_insert lookup list_lookup mbind option_bind];
      f_equal; apply bool_decide_eq_false_2; lia.
Qed.

(** Off the seed a cleared tensor reads zero. *)
Lemma entry_cleared {T : Type} `{Scalar T} (H0 : list T) (res : Z)
    (q : list Z) :
  1 <= res -> cleared H0 ->
  Z.of_nat (length H0) = res ^ Z.of_nat (length q) ->
  res ^ Z.of_nat (length q) <= ullint_modulus ->
  in_box res q -> q <> replicate (length q) 1 ->
  entry H0 res q = tzero.
Proof.
  intros Hr Hclear HH Hfit Hqb Hne.
  pose proof (mixed_radix_positive res q Hr Hqb Hne) as Hm.
  pose proof (mixed_radix_range res q Hr Hqb) as Hrng.
  unfold entry. rewrite vec2index_mixed_radix; try assumption.
  - cbn [mbind option_bind]. unfold vec_at.
    rewrite bool_decide_eq_true_2 by lia.
    rewrite Hclear by lia. reflexivity.
  - intros ->. apply Hne. reflexivity.
Qed.

(** The tensor is cleared at the head of the loop of
    [two_mode_squeezing_cpp] always, and of the other two fills when the
    allocated block was zero. *)
Lemma variant_start_cleared {T : Type} `{Scalar T} (v : variant)
    (mem : nat -> T) (R : list T) (res : Z) (Hinit : list T) :
  1 <= res -> variant_shape v (dim_of R) -> machine_fits res (dim_of R) ->
  v = TwoModeSqueezer \/ (forall i : nat, (1 <= i)%nat -> mem i = tzero) ->
  variant_start v mem R res = Some Hinit -> cleared Hinit.
Proof.
  intros Hr Hshape Hfit Hzero Hstart i Hi.
  assert (Hblock : forall seed : T,
             (forall j : nat, (1 <= j)%nat -> mem j = tzero) ->
             Hinit = <[0%nat := seed]>
                       (block mem (Z.to_nat (res ^ Z.of_nat (dim_of R)))) ->
             Hinit !! i = Some tzero).
  { intros seed Hmem ->. rewrite length_insert, length_block in Hi.
    rewrite list_lookup_insert_ne by lia. unfold block.
    rewrite list_lookup_fmap, lookup_seq_lt by lia.
    cbn [fmap option_fmap option_map Nat.add]. f_equal. apply Hmem. lia. }
  destruct v; cbn [variant_shape variant_start] in *.
  - rewrite (interferometer_start_spec mem R res Hr Hfit Hshape) in Hstart.
    cbn in Hstart. injection Hstart as Hstart.
    destruct Hzero as [Hv|Hmem]; [discriminate|].
    apply (Hblock tone Hmem). symmetry. exact Hstart.
  - destruct (squeezing_start_spec mem R res Hr Hfit Hshape)
      as (r1 & _ & Hspec).
    rewrite Hspec in Hstart. cbn in Hstart. injection Hstart as Hstart.
    destruct Hzero as [Hv|Hmem]; [discriminate|].
    apply (Hblock (tsqrt (topp r1)) Hmem). symmetry. exact Hstart.
  - destruct (two_mode_start_spec mem R res Hr Hfit Hshape)
      as (r2 & _ & Hspec).
    rewrite Hspec in Hstart. cbn in Hstart. injection Hstart as <-.
    rewrite length_insert, length_replicate in Hi.
    rewrite list_lookup_insert_ne by lia.
    apply lookup_replicate_2. lia.
Qed.

(** The calls of a fill overflow nowhere when [resolution + 1] is an [int],
    and with a single axis also when [resolution] is [INT_MAX]. *)
Lemma calls_no_overflow (res : Z) (dim n : nat) :
  res <= int_max -> res < int_max \/ dim = 1%nat ->
  Z.of_nat n <= res ^ Z.of_nat dim - 1 -> no_overflow_before res n.
Proof.
  intros Hint Hov Hn. split; [exact Hint|].
  destruct Hov as [Hlt| ->]; [left; exact Hlt | right].
  change (Z.of_nat 1) with 1 in Hn. rewrite Z.pow_1_r in Hn. lia.
Qed.

Lemma machine_fits_lt (res : Z) (dim : nat) :
  res < int_max -> res ^ Z.of_nat dim <= exact_double_max ->
  machine_fits res dim.
Proof. intros Hlt Hv. split; [lia | exact Hv]. Qed.

(** ** One iteration of a fill without a source vector *)

Lemma variant_step {T : Type} `{Scalar T} (v : variant) (mem : nat -> T)
    (R : list T) (res : Z) (n : nat) :
  1 <= res < int_max -> variant_shape v (dim_of R) ->
  res ^ Z.of_nat (dim_of R) <= exact_double_max ->
  Z.of_nat (S n) <= res ^ Z.of_nat (dim_of R) - 1 ->
  exists (Hinit : list T) (it it' : iterator) (k : nat) (H0 : list T)
         (b : bool),
    variant_start v mem R res = Some Hinit /\
    Z.of_nat (length Hinit) = res ^ Z.of_nat (dim_of R) /\
    repeat_body (selective_body (variant_accepts v (dim_of R))
                                (variant_limits v (dim_of R)) R
                                (intsqrt_table res) res (dim_of R))
                n (initial_iterator (dim_of R), Hinit) = Some (it, H0) /\
    variant_run v mem R res n = Some (it, H0) /\
    update_iterator it res (dim_of R) = Some (it', k) /\
    stepped res it' k /\ length (nextPos it') = dim_of R /\
    variant_accepts v (dim_of R) (nextPos it') = Some b /\
    variant_run v mem R res (S n)
    = Some (it', if b then after_accepted (variant_limits v (dim_of R)) R res
                                          (dim_of R) it' k H0
                 else H0) /\
    entry H0 res (nextPos it') = entry Hinit res (nextPos it') /\
    odometer_value res (nextPos it') = Z.of_nat (S n).
Proof.
  intros [Hr Hlt] Hshape Hexact Hn. set (dim := dim_of R) in *.
  pose proof (machine_fits_lt res dim Hlt Hexact) as Hfit.
  pose proof (dim_of_square R) as HR. fold dim in HR.
  pose proof (build_intsqrt_spec (T:=T) res ltac:(lia)) as Hsqrt.
  assert (Hgen : forall Hinit : list T,
             Z.of_nat (length Hinit) = res ^ Z.of_nat dim ->
             exists (it it' : iterator) (k : nat) (H0 : list T) (b : bool),
               repeat_body (selective_body (variant_accepts v dim)
                              (variant_limits v dim) R (intsqrt_table res)
                              res dim)
                           n (initial_iterator dim, Hinit) = Some (it, H0) /\
               update_iterator it res dim = Some (it', k) /\
               stepped res it' k /\ length (nextPos it') = dim /\
               variant_accepts v dim (nextPos it') = Some b /\
               repeat_body (selective_body (variant_accepts v dim)
                              (variant_limits v dim) R (intsqrt_table res)
                              res dim)
                           (S n) (initial_iterator dim, Hinit)
               = Some (it', if b then after_accepted (variant_limits v dim) R
                                        res dim it' k H0 else H0) /\
               entry H0 res (nextPos it') = entry Hinit res (nextPos it') /\
               odometer_value res (nextPos it') = Z.of_nat (S n)).
  { intros Hinit Hlen.
    destruct (selective_step (variant_accepts v dim) (variant_limits v dim)
                R res dim Hinit Hr Hfit HR
                (fun p => variant_accepts_total v res dim p Hshape)
                (variant_limits_ok v dim) Hlen n)
      as (it & it' & k & H0 & b & Hrun & Hcall & Hit' & Hstep & Hl & Hb
          & Hrun' & Hst); [lia|].
    destruct (iterator_run_inv res dim (S n) Hr
                ltac:(split; [lia | left; exact Hlt]) ltac:(lia))
      as (it2 & Hit2 & _ & _ & Hval & _).
    rewrite Hit' in Hit2. injection Hit2 as <-.
    exists it, it', k, H0, b. repeat split; assumption. }
  assert (Hpack : forall Hinit : list T,
             Z.of_nat (length Hinit) = res ^ Z.of_nat dim ->
             variant_start v mem R res = Some Hinit ->
             (forall m : nat,
                 variant_run v mem R res m
                 = repeat_body (selective_body (variant_accepts v dim)
                                  (variant_limits v dim) R (intsqrt_table res)
                                  res dim)
                               m (initial_iterator dim, Hinit)) ->
             exists (Hinit : list T) (it it' : iterator) (k : nat)
                    (H0 : list T) (b : bool),
               variant_start v mem R res = Some Hinit /\
               Z.of_nat (length Hinit) = res ^ Z.of_nat dim /\
               repeat_body (selective_body (variant_accepts v dim)
                              (variant_limits v dim) R (intsqrt_table res)
                              res dim)
                           n (initial_iterator dim, Hinit) = Some (it, H0) /\
               variant_run v mem R res n = Some (it, H0) /\
               update_iterator it res dim = Some (it', k) /\
               stepped res it' k /\ length (nextPos it') = dim /\
               variant_accepts v dim (nextPos it') = Some b /\
               variant_run v mem R res (S n)
               = Some (it', if b then after_accepted (variant_limits v dim) R
                                        res dim it' k H0 else H0) /\
               entry H0 res (nextPos it') = entry Hinit res (nextPos it') /\
               odometer_value res (nextPos it') = Z.of_nat (S n)).
  { intros Hinit Hlen Hstart Hruns.
    destruct (Hgen Hinit Hlen) as
      (it & it' & k & H0 & b & Hrun & Hcall & Hstep & Hl & Hb & Hrun' & Hst
       & Hval).
    exists Hinit, it, it', k, H0, b. rewrite !Hruns.
    repeat split; assumption. }
  destruct v; cbn [variant_shape variant_start variant_run variant_accepts
                   variant_limits] in *.
  - apply (Hpack (<[0%nat := tone]>
                    (block mem (Z.to_nat (res ^ Z.of_nat dim))))).
    + apply (length_seeded mem R res Hr).
    + rewrite (interferometer_start_spec mem R res Hr Hfit Hshape).
      reflexivity.
    + intros m. unfold interferometer_run.
      rewrite (interferometer_start_spec mem R res Hr Hfit Hshape).
      cbn [mbind option_bind]. rewrite Hsqrt. reflexivity.
  - destruct (squeezing_start_spec mem R res Hr Hfit Hshape)
      as (r1 & _ & Hstart).
    apply (Hpack (<[0%nat := tsqrt (topp r1)]>
                    (block mem (Z.to_nat (res ^ Z.of_nat dim))))).
    + apply (length_seeded mem R res Hr).
    + rewrite Hstart. reflexivity.
    + intros m. unfold squeezing_run. rewrite Hstart.
      cbn [mbind option_bind]. rewrite Hsqrt. reflexivity.
  - destruct (two_mode_start_spec mem R res Hr Hfit Hshape)
      as (r2 & _ & Hstart).
    apply (Hpack (<[0%nat := topp r2]>
                    (replicate (Z.to_nat (res ^ Z.of_nat dim)) tzero))).
    + rewrite length_insert, length_replicate.
      pose proof (pow_nat_pos res dim Hr). lia.
    + rewrite Hstart. reflexivity.
    + intros m. unfold two_mode_run. rewrite Hstart.
      cbn [mbind option_bind]. rewrite Hsqrt. reflexivity.
Qed.

(** ** Runs that stop before the loop, and what the block cannot change *)

Lemma pow_to_ullint_unsized (res : Z) (dim : nat) :
  ~ machine_fits res dim -> pow_to_ullint res dim = None.
Proof.
  intros Hbad. unfold pow_to_ullint. cbv zeta.
  rewrite bool_decide_eq_false_2; [reflexivity|].
  intros [[_ Hr] [_ Hv]]. apply Hbad. split; assumption.
Qed.

Lemma allocate_unsized {T : Type} `{Scalar T} (mem : nat -> T) (res : Z)
    (dim : nat) :
  ~ machine_fits res dim -> allocate mem res dim = None.
Proof.
  intros Hbad. rewrite allocate_cells, (pow_to_ullint_unsized _ _ Hbad).
  reflexivity.
Qed.

Lemma hermite_block_independent {T : Type} `{Scalar T} (mem mem' : nat -> T)
    (R y : list T) (res : Z) :
  1 <= res -> machine_fits res (dim_of R) -> length y = dim_of R ->
  hermite_multidimensional_cpp mem R y res
  = hermite_multidimensional_cpp mem' R y res.
Proof.
  intros Hr Hfit Hy.
  destruct (hermite_fill_run mem R y res Hr Hfit Hy) as
    (it & HN & Hrun & -> & _).
  destruct (hermite_fill_run mem' R y res Hr Hfit Hy) as
    (it' & HN' & Hrun' & -> & _).
  f_equal. pose proof (pow_nat_pos res (dim_of R) Hr) as Hpos.
  pose proof (machine_representable res (dim_of R) Hfit) as Hfit64.
  destruct (decide (1 <= dim_of R)%nat) as [Hdim|Hdim].
  - apply (fill_independent (hermite_body R y res (dim_of R))
             (fun it k H0 _ => hermite_value R y res (dim_of R) it k H0)
             res (dim_of R) _ _ it it' HN HN' Hr Hdim Hfit
             (length_seeded mem R res Hr tone)
             (length_seeded mem' R res Hr tone)
             (hermite_body_spec R y res Hr Hfit Hy)
             (fun it' k H1 H2 _ =>
                hermite_value_ext R y res Hr Hy it' k H1 H2));
      try assumption.
    + reflexivity.
    + rewrite !list_lookup_insert_eq by (rewrite length_block; lia).
      reflexivity.
  - assert (Hz : dim_of R = 0%nat) by lia. rewrite Hz in Hrun, Hrun'.
    rewrite seeded_single in Hrun, Hrun'. rewrite Hrun in Hrun'.
    injection Hrun' as _ ->. reflexivity.
Qed.

Lemma hermite_unsized {T : Type} `{Scalar T} (mem : nat -> T) (R y : list T)
    (res : Z) :
  ~ machine_fits res (dim_of R) ->
  hermite_multidimensional_cpp mem R y res = None.
Proof.
  intros Hbad. unfold hermite_multidimensional_cpp, hermite_start.
  rewrite (allocate_unsized mem res (dim_of R) Hbad). reflexivity.
Qed.

Lemma renorm_block_independent {T : Type} `{Scalar T} (mem mem' : nat -> T)
    (R y : list T) (res : Z) :
  1 <= res -> machine_fits res (dim_of R) -> length y = dim_of R ->
  res < int_max ->
  renorm_hermite_multidimensional_cpp mem R y res
  = renorm_hermite_multidimensional_cpp mem' R y res.
Proof.
  intros Hr Hfit Hy Hlt.
  destruct (renorm_fill_run mem R y res Hr Hfit Hy Hlt) as
    (it & HN & Hrun & -> & _).
  destruct (renorm_fill_run mem' R y res Hr Hfit Hy Hlt) as
    (it' & HN' & Hrun' & -> & _).
  f_equal. pose proof (pow_nat_pos res (dim_of R) Hr) as Hpos.
  pose proof (machine_representable res (dim_of R) Hfit) as Hfit64.
  destruct (decide (1 <= dim_of R)%nat) as [Hdim|Hdim].
  - apply (fill_independent
             (renorm_body R y (intsqrt_table res) res (dim_of R))
             (fun it k H0 _ => renorm_value R y res (dim_of R) it k H0)
             res (dim_of R) _ _ it it' HN HN' Hr Hdim Hfit
             (length_seeded mem R res Hr tone)
             (length_seeded mem' R res Hr tone)
             (renorm_body_spec R y res Hr Hfit Hy)
             (fun it' k H1 H2 _ =>
                renorm_value_ext R y res Hr Hy it' k H1 H2));
      try assumption.
    + reflexivity.
    + rewrite !list_lookup_insert_eq by (rewrite length_block; lia).
      reflexivity.
  - assert (Hz : dim_of R = 0%nat) by lia. rewrite Hz in Hrun, Hrun'.
    rewrite seeded_single in Hrun, Hrun'. rewrite Hrun in Hrun'.
    injection Hrun' as _ ->. reflexivity.
Qed.

Lemma renorm_unsized {T : Type} `{Scalar T} (mem : nat -> T) (R y : list T)
    (res : Z) :
  ~ (machine_fits res (dim_of R) /\ res < int_max) ->
  renorm_hermite_multidimensional_cpp mem R y res = None.
Proof.
  intros Hbad. unfold renorm_hermite_multidimensional_cpp, renorm_run.
  destruct (decide (int_max <= res)) as [Hge|Hlt].
  - rewrite (build_intsqrt_overflow res Hge).
    destruct (renorm_start mem R res) as [[Hdim [it H0]]|]; reflexivity.
  - unfold renorm_start. rewrite allocate_unsized; [reflexivity|].
    intros Hfit. apply Hbad. split; [exact Hfit | lia].
Qed.

Lemma displacement_block_independent {T : Type} {ST : Scalar T}
    {SE : ScalarExp T} (mem mem' : nat -> T) (y : list T) (y0 y1 : T)
    (res : Z) :
  1 <= res -> machine_fits res 2 ->
  y !! 0%nat = Some y0 -> y !! 1%nat = Some y1 -> res < int_max ->
  displacement_cpp mem y res = displacement_cpp mem' y res.
Proof.
  intros Hr Hfit Hy0 Hy1 Hlt.
  destruct (displacement_fill_run mem y y0 y1 res Hr Hfit Hy0 Hy1 Hlt) as
    (it & HN & Hrun & -> & _).
  destruct (displacement_fill_run mem' y y0 y1 res Hr Hfit Hy0 Hy1 Hlt) as
    (it' & HN' & Hrun' & -> & _).
  f_equal. pose proof (pow_nat_pos res 2 Hr) as Hpos.
  pose proof (machine_representable res 2 Hfit) as Hfit64.
  apply (fill_independent
           (displacement_body y (intsqrt_table res) res)
           (fun it k H0 _ => displacement_value y res it k H0)
           res 2 _ _ it it' HN HN' Hr ltac:(lia) Hfit
           (displacement_seeded_length mem y0 y1 res Hr Hfit)
           (displacement_seeded_length mem' y0 y1 res Hr Hfit)
           (displacement_body_spec y y0 y1 res Hr Hfit Hy0 Hy1)
           (fun it' k H1 H2 _ =>
              displacement_value_ext y res Hr Hfit it' k H1 H2));
    try assumption.
  - reflexivity.
  - rewrite !list_lookup_insert_eq by (rewrite length_block; lia).
    reflexivity.
Qed.

Lemma displacement_unsized {T : Type} {ST : Scalar T} {SE : ScalarExp T}
    (mem : nat -> T) (y : list T) (res : Z) :
  ~ (machine_fits res 2 /\ res < int_max) ->
  displacement_cpp mem y res = None.
Proof.
  intros Hbad. unfold displacement_cpp, displacement_run.
  destruct (decide (int_max <= res)) as [Hge|Hlt].
  - rewrite (build_intsqrt_overflow res Hge).
    destruct (displacement_start mem y res) as [[Hdim [it H0]]|]; reflexivity.
  - unfold displacement_start. rewrite allocate_unsized; [reflexivity|].
    intros Hfit. apply Hbad. split; [exact Hfit | lia].
Qed.

(** * The enumerator and the flattener *)

(** C3, as amended.  Whenever [resolution^dim] fits in an [ullint]
    ([resolution^dim <= 2^64]), [vec2index] returns the mixed-radix value
    [sum_i (pos[i]-1) * resolution^(dim-1-i)] of every multi-index of
    [[1,resolution]^dim], that value lies in [0 .. resolution^dim - 1],
    unflattening it gives the multi-index back, and every offset of that
    range is the image of its unflattening: the map is a bijection. *)
Theorem vec2index_bijection (resolution : Z) (dim : nat) :
  1 <= resolution -> (1 <= dim)%nat ->
  resolution ^ Z.of_nat dim <= ullint_modulus ->
  (forall pos : list Z,
      length pos = dim -> in_box resolution pos ->
      vec2index pos resolution = Some (mixed_radix resolution pos) /\
      0 <= mixed_radix resolution pos < resolution ^ Z.of_nat dim /\
      index2vec dim resolution (mixed_radix resolution pos) = pos) /\
  (forall offset : Z,
      0 <= offset < resolution ^ Z.of_nat dim ->
      length (index2vec dim resolution offset) = dim /\
      in_box resolution (index2vec dim resolution offset) /\
      vec2index (index2vec dim resolution offset) resolution = Some offset).
Proof.
  intros Hr Hdim Hfit. split.
  - intros pos Hlen Hbox. subst dim. split; [|split].
    + apply vec2index_mixed_radix; try assumption.
      destruct pos; [simpl in Hdim; lia | discriminate].
    + apply mixed_radix_range; assumption.
    + apply index2vec_mixed_radix; assumption.
  - intros offset Hoff.
    pose proof (length_index2vec dim resolution offset) as Hlen.
    pose proof (index2vec_in_box dim resolution offset Hr Hoff) as Hbox.
    split; [exact Hlen | split; [exact Hbox|]].
    rewrite vec2index_mixed_radix; try assumption.
    + f_equal. apply mixed_radix_index2vec; assumption.
    + destruct (index2vec dim resolution offset); [simpl in Hlen; lia | discriminate].
    + rewrite Hlen. exact Hfit.
Qed.

Lemma vec2index_bijection_witness :
  1 <= 3 /\ (1 <= 2)%nat /\ 3 ^ Z.of_nat 2 <= ullint_modulus /\
  ((forall pos : list Z,
      length pos = 2%nat -> in_box 3 pos ->
      vec2index pos 3 = Some (mixed_radix 3 pos) /\
      0 <= mixed_radix 3 pos < 3 ^ Z.of_nat 2 /\
      index2vec 2 3 (mixed_radix 3 pos) = pos) /\
   (forall offset : Z,
      0 <= offset < 3 ^ Z.of_nat 2 ->
      length (index2vec 2 3 offset) = 2%nat /\
      in_box 3 (index2vec 2 3 offset) /\
      vec2index (index2vec 2 3 offset) 3 = Some offset)).
Proof.
  assert (H1 : 1 <= 3) by lia.
  assert (H2 : (1 <= 2)%nat) by lia.
  assert (H3 : 3 ^ Z.of_nat 2 <= ullint_modulus) by (vm_compute; discriminate).
  split; [exact H1 | split; [exact H2 | split; [exact H3|]]].
  exact (vec2index_bijection 3 2 H1 H2 H3).
Defined.

(** C3 as stated fails once [resolution^dim] exceeds [2^64]: with
    [resolution = 2] and [dim = 65] the multi-index [(2,1,...,1)] has
    mixed-radix value [2^64], [vec2index] wraps to [0], and that is also the
    offset of the all-ones multi-index. *)
Lemma vec2index_wraps :
  in_box 2 (2 :: replicate 64 1) /\ in_box 2 (replicate 65 1) /\
  mixed_radix 2 (2 :: replicate 64 1) = 2 ^ 64 /\
  vec2index (2 :: replicate 64 1) 2 = Some 0 /\
  vec2index (replicate 65 1) 2 = Some 0 /\
  vec2index (2 :: replicate 64 1) 2
    <> Some (mixed_radix 2 (2 :: replicate 64 1)).
Proof.
  split; [|split; [|split; [|split; [|split]]]].
  - apply in_box_cons. split; [lia | apply in_box_replicate; lia].
  - apply in_box_replicate. lia.
  - vm_compute. reflexivity.
  - vm_compute. reflexivity.
  - vm_compute. reflexivity.
  - vm_compute. discriminate.
Qed.

(** C5 as stated fails at [resolution = INT_MAX] with more than one axis:
    with two axes the state after [INT_MAX - 1] calls has [nextPos[0]] at
    [INT_MAX], and the next call, one of the [resolution^dim - 1] of a
    fill, computes [1 + INT_MAX] in [int]: it has no defined result, so
    no axis [k] and no [jumpFrom]. *)
Lemma update_iterator_jumpFrom_overflows :
  Z.of_nat (S (Z.to_nat (int_max - 1))) <= int_max ^ Z.of_nat 2 - 1 /\
  iterator_run int_max 2 (Z.to_nat (int_max - 1))
  = Some (Iterator [int_max; 1] [int_max - 1; 1] 0) /\
  update_iterator (Iterator [int_max; 1] [int_max - 1; 1] 0) int_max 2
  = None.
Proof.
  split; [|split].
  - rewrite Nat2Z.inj_succ, Z2Nat.id by (vm_compute; discriminate).
    vm_compute. discriminate.
  - apply (iterator_run_first_row int_max 1).
    split; vm_compute; discriminate.
  - apply (update_iterator_overflow 0).
Qed.

(** C5, as amended.  For every [resolution] from [1] to [INT_MAX], below
    [INT_MAX] when there is more than one axis, and every call of the
    [resolution^dim - 1] a fill makes, starting from the all-ones state,
    [update_iterator] returns an axis [k < dim] that is the lowest axis on
    which [nextPos] and [jumpFrom] differ, and [jumpFrom] is [nextPos] with
    coordinate [k] decremented by one. *)
Theorem update_iterator_jumpFrom (resolution : Z) (dim n : nat) :
  1 <= resolution <= int_max -> (1 <= dim)%nat ->
  resolution < int_max \/ dim = 1%nat ->
  Z.of_nat (S n) <= resolution ^ Z.of_nat dim - 1 ->
  exists (it it' : iterator) (k : nat),
    iterator_run resolution dim n = Some it /\
    update_iterator it resolution dim = Some (it', k) /\
    (k < dim)%nat /\
    (forall i : nat, (i < k)%nat -> nextPos it' !! i = jumpFrom it' !! i) /\
    nextPos it' !! k <> jumpFrom it' !! k /\
    jumpFrom it' = decrement (nextPos it') k /\
    coordinate (jumpFrom it') k = coordinate (nextPos it') k - 1.
Proof.
  intros [Hr Hint] _ Hov Hn.
  destruct (iterator_call resolution dim n Hr
              (calls_no_overflow resolution dim (S n) Hint Hov Hn)) as
    (it & it' & k & Hrun & Hcall & _ & Hstep & Hlen & _); [lia|].
  exists it, it', k. split; [exact Hrun | split; [exact Hcall|]].
  destruct (stepped_length _ _ _ Hstep) as [_ Hk].
  destruct (stepped_lookup _ _ _ Hstep) as (Hlow & p & Hp & Hnk & Hjk).
  split; [lia|]. split; [|split; [|split]].
  - intros i Hi. destruct (Hlow i Hi) as [-> ->]. reflexivity.
  - rewrite Hnk, Hjk. intros [=]. lia.
  - exact (stepped_decrement _ _ _ Hstep).
  - unfold coordinate. rewrite Hnk, Hjk. simpl. lia.
Qed.

Lemma update_iterator_jumpFrom_witness :
  1 <= 3 <= int_max /\ (1 <= 2)%nat /\ (3 < int_max \/ 2%nat = 1%nat) /\
  Z.of_nat 4 <= 3 ^ Z.of_nat 2 - 1 /\
  exists (it it' : iterator) (k : nat),
    iterator_run 3 2 3 = Some it /\
    update_iterator it 3 2 = Some (it', k) /\
    (k < 2)%nat /\
    (forall i : nat, (i < k)%nat -> nextPos it' !! i = jumpFrom it' !! i) /\
    nextPos it' !! k <> jumpFrom it' !! k /\
    jumpFrom it' = decrement (nextPos it') k /\
    coordinate (jumpFrom it') k = coordinate (nextPos it') k - 1.
Proof.
  assert (H1 : 1 <= 3 <= int_max) by (split; vm_compute; discriminate).
  assert (H2 : (1 <= 2)%nat) by lia.
  assert (H3 : 3 < int_max \/ 2%nat = 1%nat) by (left; reflexivity).
  assert (H4 : Z.of_nat 4 <= 3 ^ Z.of_nat 2 - 1) by (vm_compute; discriminate).
  split; [exact H1 | split; [exact H2 | split; [exact H3 | split; [exact H4|]]]].
  exact (update_iterator_jumpFrom 3 2 3 H1 H2 H3 H4).
Defined.

(** C10 as stated fails at [resolution = INT_MAX]: the size
    [resolution+1] of [intsqrt] overflows, so there is no table to
    subscript, and with more than one axis (three here) the call made
    once axis [0] is full, after [INT_MAX - 1] calls, overflows too and
    returns no [k]. *)
Lemma update_iterator_in_bounds_overflows :
  build_intsqrt (T:=Z) int_max = None /\
  Z.of_nat (S (Z.to_nat (int_max - 1))) <= int_max ^ Z.of_nat 3 - 1 /\
  iterator_run int_max 3 (Z.to_nat (int_max - 1))
  = Some (Iterator [int_max; 1; 1] [int_max - 1; 1; 1] 0) /\
  update_iterator (Iterator [int_max; 1; 1] [int_max - 1; 1; 1] 0) int_max 3
  = None.
Proof.
  split; [|split; [|split]].
  - reflexivity.
  - rewrite Nat2Z.inj_succ, Z2Nat.id by (vm_compute; discriminate).
    vm_compute. discriminate.
  - apply (iterator_run_first_row int_max 2).
    split; vm_compute; discriminate.
  - apply (update_iterator_overflow 1).
Qed.

(** C10, as amended.  For every [resolution] with
    [1 <= resolution < INT_MAX] and every [dim >= 1], on each of the
    [resolution^dim - 1] iterations of a fill [update_iterator] completes
    without an out-of-range subscript or an overflow and returns [k] with
    [0 <= k < dim]; the table [intsqrt] can be built; hence [y[k]],
    [intsqrt[nextPos[k]-1]] and [R[k*dim+i]] for every [i < dim] are
    within bounds, and the deferred carry index left in [jump] for the
    next call is below [dim], so [jumpFrom[jump]] is within bounds too. *)
Theorem update_iterator_in_bounds {T : Type} `{Scalar T}
    (resolution : Z) (dim n : nat) (R y : list T) :
  1 <= resolution < int_max -> (1 <= dim)%nat ->
  Z.of_nat (S n) <= resolution ^ Z.of_nat dim - 1 ->
  length y = dim -> length R = (dim * dim)%nat ->
  exists (it it' : iterator) (k : nat) (intsqrt : list T),
    iterator_run resolution dim n = Some it /\
    update_iterator it resolution dim = Some (it', k) /\
    (0 <= k < dim)%nat /\
    is_Some (y !! k) /\
    build_intsqrt resolution = Some intsqrt /\
    is_Some (vec_at intsqrt (coordinate (nextPos it') k - 1)) /\
    (forall i : nat, (i < dim)%nat -> is_Some (R !! (k * dim + i)%nat)) /\
    (jump it' < dim)%nat /\
    is_Some (jumpFrom it' !! jump it').
Proof.
  intros [Hr Hlt] _ Hn Hy HR.
  destruct (iterator_call resolution dim n Hr
              ltac:(split; [lia | left; exact Hlt])) as
    (it & it' & k & Hrun & Hcall & _ & Hstep & Hlen & _); [lia|].
  exists it, it', k, (intsqrt_table resolution).
  split; [exact Hrun | split; [exact Hcall|]].
  destruct (stepped_length _ _ _ Hstep) as [Hjl Hk].
  destruct (stepped_lookup _ _ _ Hstep) as (_ & p & Hp & Hnk & Hjk).
  assert (Hj : jump it' = k) by (destruct Hstep as (? & ? & _ & _ & Hj & _); exact Hj).
  rewrite Hlen in Hk. split; [lia|]. split; [|split; [|split; [|split; [|split]]]].
  - apply lookup_lt_is_Some_2. lia.
  - apply build_intsqrt_spec. lia.
  - unfold coordinate. rewrite Hnk. cbn [default from_option id].
    rewrite vec_at_intsqrt by lia. eexists. reflexivity.
  - intros i Hi. apply lookup_lt_is_Some_2. rewrite HR. nia.
  - lia.
  - rewrite Hj, Hjk. eexists. reflexivity.
Qed.

Lemma update_iterator_in_bounds_witness :
  1 <= 2 < int_max /\ (1 <= 2)%nat /\ Z.of_nat 3 <= 2 ^ Z.of_nat 2 - 1 /\
  length [0; 0] = 2%nat /\ length [0; 1; 1; 0] = (2 * 2)%nat /\
  exists (it it' : iterator) (k : nat) (intsqrt : list Z),
    iterator_run 2 2 2 = Some it /\
    update_iterator it 2 2 = Some (it', k) /\
    (0 <= k < 2)%nat /\
    is_Some ([0; 0] !! k) /\
    build_intsqrt 2 = Some intsqrt /\
    is_Some (vec_at intsqrt (coordinate (nextPos it') k - 1)) /\
    (forall i : nat, (i < 2)%nat -> is_Some ([0; 1; 1; 0] !! (k * 2 + i)%nat)) /\
    (jump it' < 2)%nat /\
    is_Some (jumpFrom it' !! jump it').
Proof.
  assert (H1 : 1 <= 2 < int_max) by (split; [lia | reflexivity]).
  assert (H2 : (1 <= 2)%nat) by lia.
  assert (H3 : Z.of_nat 3 <= 2 ^ Z.of_nat 2 - 1) by (vm_compute; discriminate).
  assert (H4 : length [0; 0] = 2%nat) by reflexivity.
  assert (H5 : length [0; 1; 1; 0] = (2 * 2)%nat) by reflexivity.
  split; [exact H1 | split; [exact H2 | split; [exact H3 |
    split; [exact H4 | split; [exact H5|]]]]].
  exact (update_iterator_in_bounds 2 2 2 [0; 1; 1; 0] [0; 0] H1 H2 H3 H4 H5).
Defined.

(** C1 as stated fails at [resolution = INT_MAX] with more than one axis:
    with two axes the call number [INT_MAX], one of the
    [resolution^dim - 1] of a fill, finds [nextPos[0]] at [INT_MAX] and
    computes [1 + INT_MAX] in [int]; the traversal has no defined state
    from there on. *)
Lemma update_iterator_traversal_stops :
  Z.of_nat (S (Z.to_nat (int_max - 1))) <= int_max ^ Z.of_nat 2 - 1 /\
  iterator_run int_max 2 (S (Z.to_nat (int_max - 1))) = None.
Proof.
  split.
  - rewrite Nat2Z.inj_succ, Z2Nat.id by (vm_compute; discriminate).
    vm_compute. discriminate.
  - rewrite iterator_run_S.
    rewrite (iterator_run_first_row int_max 1)
      by (split; vm_compute; discriminate).
    cbn [mbind option_bind].
    rewrite (update_iterator_overflow 0). reflexivity.
Qed.

(** C1, as amended.  For every [dim >= 1] and every [resolution] from [1]
    to [INT_MAX], below [INT_MAX] when there is more than one axis, the
    states of a fill (the all-ones start and the result of each of the
    [resolution^dim - 1] calls to [update_iterator]) go through
    [[1,resolution]^dim] in odometer
    order with axis 0 fastest: the position after [n] calls is the one
    whose value [sum_i (nextPos[i]-1) * resolution^i] is [n].  Every
    multi-index of the box is the position of exactly one state.  At every
    step the same-axis predecessor [jumpFrom = nextPos - e_k], and each
    cross-axis predecessor [jumpFrom - e_i] with [jumpFrom[i] > 1], is the
    position of an earlier state (the start, which holds the seed, or an
    earlier step). *)
Theorem update_iterator_traversal (resolution : Z) (dim : nat) :
  1 <= resolution <= int_max -> (1 <= dim)%nat ->
  resolution < int_max \/ dim = 1%nat ->
  (forall n : nat,
      Z.of_nat n <= resolution ^ Z.of_nat dim - 1 ->
      exists it : iterator,
        iterator_run resolution dim n = Some it /\
        length (nextPos it) = dim /\ in_box resolution (nextPos it) /\
        odometer_value resolution (nextPos it) = Z.of_nat n) /\
  (forall p : list Z,
      length p = dim -> in_box resolution p ->
      exists n : nat,
        Z.of_nat n <= resolution ^ Z.of_nat dim - 1 /\
        nextPos <$> iterator_run resolution dim n = Some p /\
        forall m : nat,
          Z.of_nat m <= resolution ^ Z.of_nat dim - 1 ->
          nextPos <$> iterator_run resolution dim m = Some p -> m = n) /\
  (forall n : nat,
      Z.of_nat (S n) <= resolution ^ Z.of_nat dim - 1 ->
      exists (it it' : iterator) (k : nat),
        iterator_run resolution dim n = Some it /\
        update_iterator it resolution dim = Some (it', k) /\
        iterator_run resolution dim (S n) = Some it' /\
        jumpFrom it' = decrement (nextPos it') k /\
        (exists m : nat,
            (m <= n)%nat /\
            nextPos <$> iterator_run resolution dim m = Some (jumpFrom it')) /\
        (forall i : nat,
            (i < dim)%nat -> coordinate (jumpFrom it') i > 1 ->
            exists m : nat,
              (m <= n)%nat /\
              nextPos <$> iterator_run resolution dim m
              = Some (decrement (jumpFrom it') i))).
Proof.
  intros [Hr Hint] _ Hov.
  pose proof (calls_no_overflow resolution dim) as Hcalls.
  split; [|split].
  - intros n Hn.
    destruct (iterator_run_inv resolution dim n Hr) as
      (it & Hrun & Hlen & Hbox & Hval & _); [auto | lia|].
    exists it. repeat split; assumption.
  - intros p Hlen Hbox.
    pose proof (odometer_value_range resolution p Hr Hbox) as Hrng.
    rewrite Hlen in Hrng.
    destruct (visited_before resolution dim
                (Z.to_nat (odometer_value resolution p)) p Hr)
      as (n & Hle & Hn);
      [apply Hcalls; auto; lia | lia | exact Hlen | exact Hbox | lia |].
    exists n. split; [lia|]. split; [exact Hn|].
    assert (Hone : forall m : nat,
               Z.of_nat m <= resolution ^ Z.of_nat dim - 1 ->
               nextPos <$> iterator_run resolution dim m = Some p ->
               Z.of_nat m = odometer_value resolution p).
    { intros m Hm Hp.
      destruct (iterator_run_inv resolution dim m Hr) as
        (it & Hrun & _ & _ & Hval & _); [auto | lia|].
      rewrite Hrun in Hp. injection Hp as <-. lia. }
    intros m Hm Hp. pose proof (Hone m Hm Hp). pose proof (Hone n ltac:(lia) Hn).
    lia.
  - intros n Hn.
    destruct (iterator_call resolution dim n Hr) as
      (it & it' & k & Hrun & Hcall & Hrun' & Hstep & Hlen & Hval);
      [auto | lia|].
    assert (Hnov : no_overflow_before resolution n)
      by (apply Hcalls; auto; lia).
    exists it, it', k. split; [exact Hrun|]. split; [exact Hcall|].
    split; [exact Hrun'|].
    pose proof (stepped_decrement _ _ _ Hstep) as Hdec.
    destruct (stepped_length _ _ _ Hstep) as [Hjl Hk].
    destruct (stepped_in_box _ _ _ Hr Hstep) as [Hnb Hjb].
    assert (Hback : odometer_value resolution (jumpFrom it')
                    = Z.of_nat (S n) - resolution ^ Z.of_nat k).
    { rewrite <- Hval. destruct Hstep as (p & rest & -> & -> & _).
      rewrite odometer_value_back. ring. }
    pose proof (pow_nat_pos resolution k Hr) as Hpk.
    split; [exact Hdec|]. split.
    + apply visited_before; try assumption; lia.
    + intros i Hi Hc. pose proof (pow_nat_pos resolution i Hr) as Hpi.
      apply visited_before; try assumption; try lia.
      * rewrite length_decrement. lia.
      * apply in_box_decrement; assumption.
      * rewrite odometer_value_decrement by lia. lia.
Qed.

Lemma update_iterator_traversal_witness :
  1 <= 2 <= int_max /\ (1 <= 2)%nat /\ (2 < int_max \/ 2%nat = 1%nat) /\
  ((forall n : nat,
      Z.of_nat n <= 2 ^ Z.of_nat 2 - 1 ->
      exists it : iterator,
        iterator_run 2 2 n = Some it /\
        length (nextPos it) = 2%nat /\ in_box 2 (nextPos it) /\
        odometer_value 2 (nextPos it) = Z.of_nat n) /\
   (forall p : list Z,
      length p = 2%nat -> in_box 2 p ->
      exists n : nat,
        Z.of_nat n <= 2 ^ Z.of_nat 2 - 1 /\
        nextPos <$> iterator_run 2 2 n = Some p /\
        forall m : nat,
          Z.of_nat m <= 2 ^ Z.of_nat 2 - 1 ->
          nextPos <$> iterator_run 2 2 m = Some p -> m = n) /\
   (forall n : nat,
      Z.of_nat (S n) <= 2 ^ Z.of_nat 2 - 1 ->
      exists (it it' : iterator) (k : nat),
        iterator_run 2 2 n = Some it /\
        update_iterator it 2 2 = Some (it', k) /\
        iterator_run 2 2 (S n) = Some it' /\
        jumpFrom it' = decrement (nextPos it') k /\
        (exists m : nat,
            (m <= n)%nat /\
            nextPos <$> iterator_run 2 2 m = Some (jumpFrom it')) /\
        (forall i : nat,
            (i < 2)%nat -> coordinate (jumpFrom it') i > 1 ->
            exists m : nat,
              (m <= n)%nat /\
              nextPos <$> iterator_run 2 2 m
              = Some (decrement (jumpFrom it') i)))).
Proof.
  assert (H1 : 1 <= 2 <= int_max) by (split; vm_compute; discriminate).
  assert (H2 : (1 <= 2)%nat) by lia.
  assert (H3 : 2 < int_max \/ 2%nat = 1%nat) by (left; reflexivity).
  split; [exact H1 | split; [exact H2 | split; [exact H3|]]].
  exact (update_iterator_traversal 2 2 H1 H2 H3).
Defined.

(** * The fill of the unnormalized Hermite tensor *)

(** C2 as stated fails in floating point: the loop subtracts the
    correction terms from [H[nextCoord]] one at a time and rounds after each
    subtraction, which is not the base term minus their sum.  With
    [T = double], [R = [-1, -1, -1, 0]], [y = [1, 2^52]] and
    [resolution = 3], the fifth step (position [(3,2)], from [(2,2)] along
    axis [0]) has base term [2^52 + 1] and correction terms [-2^52] and
    [-1]: the code stores [2^53] (both [2^53 + 1] round back to [2^53]),
    where the base term minus the sum of the two terms is [2^53 + 2], in
    [double] as well as in exact arithmetic on the same tensor. *)
Lemma hermite_rounds_each_subtraction :
  exists (it it' : iterator) (H0 H1 : list float),
    hermite_run (fun _ => 0%float)
                [(-1)%float; (-1)%float; (-1)%float; 0%float]
                [1%float; 4503599627370496%float] 3 4 = Some (it, H0) /\
    update_iterator it 3 2 = Some (it', 0%nat) /\
    hermite_run (fun _ => 0%float)
                [(-1)%float; (-1)%float; (-1)%float; 0%float]
                [1%float; 4503599627370496%float] 3 5 = Some (it', H1) /\
    nextPos it' = [3; 2] /\ jumpFrom it' = [2; 2] /\
    H0 = double_of_int
           <$> [1; 4503599627370496; 0; 1; 4503599627370497; 0; 2; 0; 0] /\
    entry H1 3 (nextPos it') = 9007199254740992%float /\
    hermite_rhs [(-1)%float; (-1)%float; (-1)%float; 0%float]
                [1%float; 4503599627370496%float] 3 2 0 H0 (jumpFrom it')
    = 9007199254740994%float /\
    hermite_rhs (T:=Z) [-1; -1; -1; 0] [1; 4503599627370496] 3 2 0
                [1; 4503599627370496; 0; 1; 4503599627370497; 0; 2; 0; 0]
                [2; 2]
    = 9007199254740994 /\
    entry H1 3 (nextPos it')
    <> hermite_rhs [(-1)%float; (-1)%float; (-1)%float; 0%float]
                   [1%float; 4503599627370496%float] 3 2 0 H0 (jumpFrom it').
Proof.
  eexists _, _, _, _.
  split; [vm_compute; reflexivity|].
  split; [vm_compute; reflexivity|].
  split; [vm_compute; reflexivity|].
  split; [reflexivity|]. split; [reflexivity|].
  split; [vm_compute; reflexivity|].
  split; [vm_compute; reflexivity|].
  split; [vm_compute; reflexivity|].
  split; [vm_compute; reflexivity|].
  vm_compute. intros E.
  apply (f_equal (fun x => PrimFloat.eqb x 9007199254740992%float)) in E.
  vm_compute in E. discriminate.
Qed.

(** C2, as amended. In [hermite_multidimensional_cpp] (of a fill the code can
    size: [resolution] from [1] to [INT_MAX], [resolution^dim] at most [2^53],
    a [y] of [dim] entries; in a run whose allocations succeed), every
    iteration of the fill loop completes and, with [k] the axis returned by
    [update_iterator], [nextPos = jumpFrom + e_k] and [H] the tensor before
    the iteration, the entry written at [flatten(nextPos)] is
    [H[flatten(jumpFrom)] * y[k]] from which the terms [(jumpFrom[i]-1) *
    R[k*dim+i] * H[flatten(jumpFrom - e_i)]] of the axes [i] with [jumpFrom[i]
    > 1] are subtracted one after the other, in increasing [i]; no other entry
    changes, so the same holds in the tensor after the iteration. Whenever
    subtraction in [T] satisfies [(a-b)-c = a-(b+c)] and [a-0 = a], as in
    exact arithmetic, that is the base term minus the sum of those terms. *)
Theorem hermite_recurrence {T : Type} `{Scalar T} (mem : nat -> T)
    (R y : list T) (resolution : Z) (n : nat) :
  1 <= resolution <= int_max ->
  resolution ^ Z.of_nat (dim_of R) <= exact_double_max ->
  length y = dim_of R ->
  Z.of_nat (S n) <= resolution ^ Z.of_nat (dim_of R) - 1 ->
  exists (it it' : iterator) (k : nat) (H0 H1 : list T),
    hermite_run mem R y resolution n = Some (it, H0) /\
    update_iterator it resolution (dim_of R) = Some (it', k) /\
    hermite_run mem R y resolution (S n) = Some (it', H1) /\
    jumpFrom it' = decrement (nextPos it') k /\
    H1 = <[Z.to_nat (mixed_radix resolution (nextPos it')) :=
             hermite_value R y resolution (dim_of R) it' k H0]> H0 /\
    entry H1 resolution (nextPos it')
    = hermite_value R y resolution (dim_of R) it' k H0 /\
    entry H1 resolution (nextPos it')
    = hermite_value R y resolution (dim_of R) it' k H1 /\
    (forall laws : ScalarLaws T,
        hermite_value R y resolution (dim_of R) it' k H1
        = hermite_rhs R y resolution (dim_of R) k H1 (jumpFrom it')).
Proof.
  intros [Hr Hint] Hexact Hy Hn. set (dim := dim_of R) in *.
  assert (Hfit : machine_fits resolution dim) by (split; assumption).
  pose proof (machine_representable resolution dim Hfit) as Hfit64.
  destruct (hermite_run_inv mem R y resolution Hr Hfit Hy n) as
    (it & H0 & Hrun & Hit & HH); [fold dim; lia|].
  destruct (iterator_call resolution dim n Hr
              (machine_no_overflow resolution dim Hr Hfit (S n) ltac:(lia)))
    as (it0 & it' & k & Hit0 & Hcall & _ & Hstep & Hlen & _); [lia|].
  fold dim in Hit, HH. rewrite Hit in Hit0. injection Hit0 as <-.
  pose proof (hermite_body_spec R y resolution Hr Hfit Hy it it' k H0 HH
                Hcall Hstep Hlen) as Hbody.
  fold dim in Hbody.
  fold (hermite_value R y resolution dim it' k H0) in Hbody.
  exists it, it', k, H0. eexists.
  split; [exact Hrun|]. split; [exact Hcall|].
  split.
  { rewrite (hermite_run_S mem R y resolution Hr Hfit Hy), Hrun.
    cbn [mbind option_bind]. exact Hbody. }
  destruct (stepped_length _ _ _ Hstep) as [Hjl Hk].
  destruct (stepped_in_box _ _ _ Hr Hstep) as [Hnb Hjb].
  pose proof (mixed_radix_range resolution _ Hr Hnb) as Hnr.
  rewrite Hlen in Hnr.
  assert (Hflat : forall q : list Z,
             length q = dim -> in_box resolution q ->
             vec2index q resolution = Some (mixed_radix resolution q)).
  { intros q Hq Hb. apply vec2index_mixed_radix; try assumption.
    - destruct q; [simpl in Hq; lia | discriminate].
    - rewrite Hq. lia. }
  assert (Hwritten :
    entry (<[Z.to_nat (mixed_radix resolution (nextPos it')) :=
               hermite_value R y resolution dim it' k H0]> H0)
          resolution (nextPos it')
    = hermite_value R y resolution dim it' k H0).
  { apply entry_insert_eq; [apply Hflat; assumption | lia]. }
  assert (Hsame :
    hermite_value R y resolution dim it' k
      (<[Z.to_nat (mixed_radix resolution (nextPos it')) :=
           hermite_value R y resolution dim it' k H0]> H0)
    = hermite_value R y resolution dim it' k H0).
  { apply (hermite_value_ext R y resolution Hr Hy); try assumption.
    intros q Hq Hqb Hqv.
    apply (entry_insert_ne H0 resolution _ (mixed_radix resolution q)).
    - apply Hflat; assumption.
    - lia.
    - pose proof (mixed_radix_range resolution _ Hr Hqb) as Hqr.
      rewrite Hq in Hqr. lia.
    - apply offsets_differ; try assumption; lia. }
  split; [exact (stepped_decrement _ _ _ Hstep)|].
  split; [reflexivity|]. split; [exact Hwritten|].
  split; [rewrite Hwritten, Hsame; reflexivity|].
  intros laws. unfold hermite_value, subtract_corrections, hermite_rhs.
  rewrite fold_left_tsub. reflexivity.
Qed.

Lemma hermite_recurrence_witness :
  1 <= 2 <= int_max /\
  2 ^ Z.of_nat (dim_of [0; 1; 1; 0]) <= exact_double_max /\
  length [0; 0] = dim_of [0; 1; 1; 0] /\
  Z.of_nat 3 <= 2 ^ Z.of_nat (dim_of [0; 1; 1; 0]) - 1 /\
  exists (it it' : iterator) (k : nat) (H0 H1 : list Z),
    hermite_run (fun _ => 0) [0; 1; 1; 0] [0; 0] 2 2 = Some (it, H0) /\
    update_iterator it 2 (dim_of [0; 1; 1; 0]) = Some (it', k) /\
    hermite_run (fun _ => 0) [0; 1; 1; 0] [0; 0] 2 3 = Some (it', H1) /\
    jumpFrom it' = decrement (nextPos it') k /\
    H1 = <[Z.to_nat (mixed_radix 2 (nextPos it')) :=
             hermite_value [0; 1; 1; 0] [0; 0] 2 (dim_of [0; 1; 1; 0]) it' k
                           H0]> H0 /\
    entry H1 2 (nextPos it')
    = hermite_value [0; 1; 1; 0] [0; 0] 2 (dim_of [0; 1; 1; 0]) it' k H0 /\
    entry H1 2 (nextPos it')
    = hermite_value [0; 1; 1; 0] [0; 0] 2 (dim_of [0; 1; 1; 0]) it' k H1 /\
    (forall laws : ScalarLaws Z,
        hermite_value [0; 1; 1; 0] [0; 0] 2 (dim_of [0; 1; 1; 0]) it' k H1
        = hermite_rhs [0; 1; 1; 0] [0; 0] 2 (dim_of [0; 1; 1; 0]) k H1
                      (jumpFrom it')).
Proof.
  assert (H1 : 1 <= 2 <= int_max) by (split; vm_compute; discriminate).
  assert (H2 : 2 ^ Z.of_nat (dim_of [0; 1; 1; 0]) <= exact_double_max)
    by (vm_compute; discriminate).
  assert (H3 : length [0; 0] = dim_of [0; 1; 1; 0]) by reflexivity.
  assert (H4 : Z.of_nat 3 <= 2 ^ Z.of_nat (dim_of [0; 1; 1; 0]) - 1)
    by (vm_compute; discriminate).
  split; [exact H1 | split; [exact H2 | split; [exact H3 | split; [exact H4|]]]].
  exact (hermite_recurrence (fun _ => 0) [0; 1; 1; 0] [0; 0] 2 2 H1 H2 H3 H4).
Defined.

(** C8.  For [resolution = 2], [R = [0,1,1,0]] (so [dim = 2]) and
    [y = [0,0]], [hermite_multidimensional_cpp] returns the tensor
    [[1, 0, 0, -1]], whatever the allocated block held. *)
Theorem hermite_two_by_two (mem : nat -> Z) :
  hermite_multidimensional_cpp mem [0; 1; 1; 0] [0; 0] 2
  = Some [1; 0; 0; -1].
Proof. reflexivity. Qed.

(** * The fills with a selection rule *)

(** C6. In the interferometer fill, for every even [dim] and every iteration
    whose new position passes the selection rule (of a fill the code can size:
    [resolution + 1] an [int], [resolution^dim] at most [2^53]; in a run whose
    allocations succeed), the limits the code picks for the correction loop
    are the half of the axes complementary to the half that contains the
    changed axis [k], and the entry written is the stored value minus the
    corrections over exactly that half. Such a step always has [k] in the
    first half (stepping an axis of the second half leaves unequal sums), so
    the corrections run over the second half. *)
Theorem interferometer_complementary_half {T : Type} `{Scalar T}
    (mem : nat -> T) (R : list T) (resolution : Z) (n : nat) :
  1 <= resolution < int_max -> (dim_of R mod 2 = 0)%nat ->
  resolution ^ Z.of_nat (dim_of R) <= exact_double_max ->
  Z.of_nat (S n) <= resolution ^ Z.of_nat (dim_of R) - 1 ->
  iterator_run resolution (dim_of R) (S n)
    ≫= (fun it => interferometer_accepts (dim_of R / 2) (dim_of R) (nextPos it))
  = Some true ->
  exists (it it' : iterator) (k : nat) (H0 H1 : list T),
    interferometer_run mem R resolution n = Some (it, H0) /\
    update_iterator it resolution (dim_of R) = Some (it', k) /\
    interferometer_run mem R resolution (S n) = Some (it', H1) /\
    interferometer_limits (dim_of R / 2) (dim_of R) k
    = complementary_half (dim_of R / 2) (dim_of R) k /\
    (k < dim_of R / 2)%nat /\
    H1 = after_accepted (complementary_half (dim_of R / 2) (dim_of R))
                        R resolution (dim_of R) it' k H0.
Proof.
  intros [Hr Hlt] Heven Hexact Hn Hacc. set (dim := dim_of R) in *.
  pose proof (machine_fits_lt resolution dim Hlt Hexact) as Hfit.
  pose proof (dim_of_square R) as HR. fold dim in HR.
  destruct (selective_step
              (interferometer_accepts (dim / 2) dim)
              (interferometer_limits (dim / 2) dim) R resolution dim
              (<[0%nat := tone]>
                 (block mem (Z.to_nat (resolution ^ Z.of_nat dim))))
              Hr Hfit HR
              (interferometer_accepts_total resolution dim)
              (interferometer_limits_ok dim)
              (length_seeded mem R resolution Hr tone) n)
    as (it & it' & k & H0 & b & Hrun & Hcall & Hit' & Hstep & Hlen & Hb
        & Hrun' & _);
    [lia|].
  rewrite Hit' in Hacc. cbn [mbind option_bind] in Hacc.
  rewrite Hacc in Hb. injection Hb as <-.
  exists it, it', k, H0. eexists.
  unfold interferometer_run.
  rewrite (interferometer_start_spec mem R resolution Hr Hfit Heven).
  cbn [mbind option_bind]. rewrite build_intsqrt_spec by lia.
  cbn [mbind option_bind]. fold dim.
  split; [exact Hrun|]. split; [exact Hcall|]. split; [exact Hrun'|].
  pose proof (interferometer_accepted_axis resolution dim it' k Hr Heven
                Hstep Hlen Hacc) as Hk.
  assert (Hlim : interferometer_limits (dim / 2) dim k
                 = complementary_half (dim / 2) dim k).
  { unfold interferometer_limits, complementary_half.
    rewrite bool_decide_eq_false_2 by lia.
    rewrite bool_decide_eq_true_2 by lia. reflexivity. }
  split; [exact Hlim|]. split; [exact Hk|].
  unfold after_accepted. rewrite Hlim. reflexivity.
Qed.

Lemma interferometer_complementary_half_witness :
  1 <= 2 < int_max /\ (dim_of [0; 1; 1; 0] mod 2 = 0)%nat /\
  2 ^ Z.of_nat (dim_of [0; 1; 1; 0]) <= exact_double_max /\
  Z.of_nat 3 <= 2 ^ Z.of_nat (dim_of [0; 1; 1; 0]) - 1 /\
  iterator_run 2 (dim_of [0; 1; 1; 0]) 3
    ≫= (fun it => interferometer_accepts (dim_of [0; 1; 1; 0] / 2)
                                         (dim_of [0; 1; 1; 0]) (nextPos it))
  = Some true /\
  exists (it it' : iterator) (k : nat) (H0 H1 : list Z),
    interferometer_run (fun _ => 0) [0; 1; 1; 0] 2 2 = Some (it, H0) /\
    update_iterator it 2 (dim_of [0; 1; 1; 0]) = Some (it', k) /\
    interferometer_run (fun _ => 0) [0; 1; 1; 0] 2 3 = Some (it', H1) /\
    interferometer_limits (dim_of [0; 1; 1; 0] / 2) (dim_of [0; 1; 1; 0]) k
    = complementary_half (dim_of [0; 1; 1; 0] / 2) (dim_of [0; 1; 1; 0]) k /\
    (k < dim_of [0; 1; 1; 0] / 2)%nat /\
    H1 = after_accepted
           (complementary_half (dim_of [0; 1; 1; 0] / 2)
                               (dim_of [0; 1; 1; 0]))
           [0; 1; 1; 0] 2 (dim_of [0; 1; 1; 0]) it' k H0.
Proof.
  assert (H1 : 1 <= 2 < int_max) by (split; [lia | reflexivity]).
  assert (H2 : (dim_of [0; 1; 1; 0] mod 2 = 0)%nat) by reflexivity.
  assert (H3 : 2 ^ Z.of_nat (dim_of [0; 1; 1; 0]) <= exact_double_max)
    by (vm_compute; discriminate).
  assert (H4 : Z.of_nat 3 <= 2 ^ Z.of_nat (dim_of [0; 1; 1; 0]) - 1)
    by (vm_compute; discriminate).
  assert (H5 : iterator_run 2 (dim_of [0; 1; 1; 0]) 3
                 ≫= (fun it => interferometer_accepts
                                 (dim_of [0; 1; 1; 0] / 2)
                                 (dim_of [0; 1; 1; 0]) (nextPos it))
               = Some true) by (vm_compute; reflexivity).
  split; [exact H1 | split; [exact H2 | split; [exact H3 |
    split; [exact H4 | split; [exact H5|]]]]].
  exact (interferometer_complementary_half (fun _ => 0) [0; 1; 1; 0] 2 2
           H1 H2 H3 H4 H5).
Defined.

(** C7 as stated fails: the interferometer fill on [R = [0,1,1,0]],
    [resolution = 2] and an allocated block holding [_, 5, _, 7] accepts
    the third step (position [(2,2)], same-axis predecessor [(1,2)] at
    offset [1]); the code leaves [7 - 1 = 6] at offset [3], where a base
    term [H[fromCoord] * 1] would give [5 - 1 = 4]. *)
Lemma interferometer_ignores_predecessor :
  interferometer_run (fun i : nat => nth i [0; 5; 0; 7] 0) [0; 1; 1; 0] 2 2
  = Some (Iterator [1; 2] [1; 1] 1, [1; 5; 0; 7]) /\
  update_iterator (Iterator [1; 2] [1; 1] 1) 2 2
  = Some (Iterator [2; 2] [1; 2] 0, 0%nat) /\
  interferometer_accepts 1 2 [2; 2] = Some true /\
  interferometer_run (fun i : nat => nth i [0; 5; 0; 7] 0) [0; 1; 1; 0] 2 3
  = Some (Iterator [2; 2] [1; 2] 0, [1; 5; 0; 6]) /\
  after_accepted_from_predecessor (interferometer_limits 1 2) [0; 1; 1; 0]
    2 2 (Iterator [2; 2] [1; 2] 0) 0 [1; 5; 0; 7]
  = [1; 5; 0; 4] /\
  [1; 5; 0; 6] <> after_accepted_from_predecessor
                    (interferometer_limits 1 2) [0; 1; 1; 0] 2 2
                    (Iterator [2; 2] [1; 2] 0) 0 [1; 5; 0; 7].
Proof.
  repeat split; try (vm_compute; reflexivity).
  vm_compute. discriminate.
Qed.

(** C7, as amended. For every fill without a source vector (interferometer,
    single-mode squeezer, two-mode squeezer; on an [R] of the shape the fill
    asserts, with [1 <= resolution < INT_MAX] and [resolution^dim] at most
    [2^53], in a run whose allocations succeed) whose tensor is zero off the
    seed at the head of the loop - as it always is in
    [two_mode_squeezing_cpp], which clears it itself, and in the other two
    when the allocated block was zero (their [memset] does not clear it, see
    C4) - every accepted step leaves at [nextCoord] the base term
    [H[fromCoord] * 1] minus the corrections, and a rejected step leaves the
    tensor as it is. (The code has no assignment of the base term: it
    subtracts the corrections from the value stored at [nextCoord]; that value
    and the same-axis predecessor, a rejected position, are both zero in such
    a tensor.) *)
Theorem accepted_step_base_term {T : Type} `{Scalar T}
    (v : variant) (mem : nat -> T) (R : list T) (resolution : Z) (n : nat) :
  1 <= resolution < int_max -> variant_shape v (dim_of R) ->
  resolution ^ Z.of_nat (dim_of R) <= exact_double_max ->
  Z.of_nat (S n) <= resolution ^ Z.of_nat (dim_of R) - 1 ->
  v = TwoModeSqueezer \/ (forall i : nat, (1 <= i)%nat -> mem i = tzero) ->
  tmul tzero tone = tzero ->
  starts_from_predecessor (variant_start v mem R resolution)
                          (variant_run v mem R resolution)
                          (variant_accepts v (dim_of R))
                          (variant_limits v (dim_of R))
                          R resolution (dim_of R) n.
Proof.
  intros Hres Hshape Hexact Hn Hzero Hmul.
  destruct (variant_step v mem R resolution n Hres Hshape Hexact Hn) as
    (Hinit & it & it' & k & H0 & b & Hstart & Hl & Hrep & Hrun & Hcall
     & Hstep & Hlen & Hb & Hrun' & Hst & Hval).
  destruct Hres as [Hr Hlt]. set (dim := dim_of R) in *.
  pose proof (machine_fits_lt resolution dim Hlt Hexact) as Hfit.
  pose proof (machine_representable resolution dim Hfit) as Hfit64.
  pose proof (dim_of_square R) as HR. fold dim in HR.
  exists Hinit, it, it', k, H0,
    (if b then after_accepted (variant_limits v dim) R resolution dim it' k H0
     else H0), b.
  split; [exact Hstart|]. split; [exact Hrun|]. split; [exact Hcall|].
  split; [exact Hrun'|]. split; [exact Hb|].
  destruct b; [|reflexivity].
  pose proof (variant_start_cleared v mem R resolution Hinit Hr Hshape Hfit
                Hzero Hstart) as Hclear.
  destruct (stepped_length _ _ _ Hstep) as [Hjl Hk].
  destruct (stepped_in_box _ _ _ Hr Hstep) as [Hnb Hjb].
  destruct (stepped_lookup _ _ _ Hstep) as (_ & p & Hp & Hnk & _).
  assert (Hnext : entry H0 resolution (nextPos it') = tzero).
  { rewrite Hst. apply entry_cleared; try assumption.
    - rewrite Hlen. exact Hl.
    - rewrite Hlen. lia.
    - intros Heq. rewrite Heq, lookup_replicate_2 in Hnk by exact Hk.
      injection Hnk as Hnk. lia. }
  pose proof (predecessor_rejected v resolution dim it' k Hr Hshape Hstep Hlen
                Hb) as Hrej.
  assert (Hne : jumpFrom it' <> replicate (length (jumpFrom it')) 1).
  { intros Heq. rewrite Heq, Hjl, Hlen in Hrej.
    rewrite (variant_accepts_ones v dim Hshape) in Hrej. discriminate. }
  assert (Hback : odometer_value resolution (jumpFrom it')
                  < odometer_value resolution (nextPos it')).
  { destruct Hstep as (q & rest & -> & -> & _).
    rewrite odometer_value_back.
    pose proof (pow_nat_pos resolution k Hr). lia. }
  assert (Hfrom : entry H0 resolution (jumpFrom it') = tzero).
  { pose proof (not_all_ones resolution _ Hr Hjb Hne) as Hj1.
    destruct (fill_final
                (selective_body (variant_accepts v dim) (variant_limits v dim)
                   R (intsqrt_table resolution) resolution dim)
                (selective_value (variant_accepts v dim) (variant_limits v dim)
                   R resolution dim)
                resolution dim Hinit Hr Hfit Hl
                (selective_body_value (variant_accepts v dim)
                   (variant_limits v dim) R resolution dim Hr Hfit HR
                   (fun q => variant_accepts_total v resolution dim q Hshape)
                   (variant_limits_ok v dim))
                (fun it2 k2 H1 H2 a =>
                   selective_value_ext (variant_accepts v dim)
                     (variant_limits v dim) R resolution dim Hr HR
                     (variant_limits_ok v dim) it2 k2 H1 H2 a)
                n it H0 (jumpFrom it'))
      as [_ Hent]; try assumption; try lia.
    rewrite Hent. unfold selective_value. cbn [iterator_at nextPos].
    rewrite Hrej. apply entry_cleared; try assumption.
    - rewrite Hjl, Hlen. exact Hl.
    - rewrite Hjl, Hlen. lia. }
  unfold after_accepted, after_accepted_from_predecessor.
  rewrite Hnext, Hfrom, Hmul. reflexivity.
Qed.

Lemma accepted_step_base_term_witness :
  1 <= 2 < int_max /\ variant_shape Interferometer (dim_of [0; 1; 1; 0]) /\
  2 ^ Z.of_nat (dim_of [0; 1; 1; 0]) <= exact_double_max /\
  Z.of_nat 3 <= 2 ^ Z.of_nat (dim_of [0; 1; 1; 0]) - 1 /\
  (Interferometer = TwoModeSqueezer \/
   (forall i : nat, (1 <= i)%nat -> (fun _ : nat => 0) i = tzero)) /\
  tmul (T:=Z) tzero tone = tzero /\
  starts_from_predecessor
    (variant_start Interferometer (fun _ : nat => 0) [0; 1; 1; 0] 2)
    (variant_run Interferometer (fun _ : nat => 0) [0; 1; 1; 0] 2)
    (variant_accepts Interferometer (dim_of [0; 1; 1; 0]))
    (variant_limits Interferometer (dim_of [0; 1; 1; 0]))
    [0; 1; 1; 0] 2 (dim_of [0; 1; 1; 0]) 2.
Proof.
  assert (H1 : 1 <= 2 < int_max) by (split; [lia | reflexivity]).
  assert (H2 : variant_shape Interferometer (dim_of [0; 1; 1; 0]))
    by reflexivity.
  assert (H3 : 2 ^ Z.of_nat (dim_of [0; 1; 1; 0]) <= exact_double_max)
    by (vm_compute; discriminate).
  assert (H4 : Z.of_nat 3 <= 2 ^ Z.of_nat (dim_of [0; 1; 1; 0]) - 1)
    by (vm_compute; discriminate).
  assert (H5 : Interferometer = TwoModeSqueezer \/
               (forall i : nat, (1 <= i)%nat -> (fun _ : nat => 0) i = tzero))
    by (right; intros i _; reflexivity).
  assert (H6 : tmul (T:=Z) tzero tone = tzero) by reflexivity.
  split; [exact H1 | split; [exact H2 | split; [exact H3 | split; [exact H4 |
    split; [exact H5 | split; [exact H6|]]]]]].
  exact (accepted_step_base_term Interferometer (fun _ : nat => 0)
           [0; 1; 1; 0] 2 2 H1 H2 H3 H4 H5 H6).
Defined.

(** C4 fails on the code.  [memset(H, sizeof(val), sizeof(H))] does not
    clear the tensor, so the entries a fill never writes hold what the
    allocator handed out: on a 2x2 [R] with [resolution = 2] the
    interferometer and the single-mode squeezer return the block's own
    content at offsets [1] and [2], the two entries their selection rules
    reject. *)
Theorem rejected_entries_keep_block_content {T : Type} `{Scalar T}
    (mem : nat -> T) (r0 r1 r2 r3 : T) :
  interferometer_cpp mem [r0; r1; r2; r3] 2
  = Some [tone; mem 1%nat; mem 2%nat;
          tsub (mem 3%nat)
               (tmul (tmul (tdiv (sqrt_of_int 1) (sqrt_of_int 1)) r1) tone)] /\
  squeezing_cpp mem [r0; r1; r2; r3] 2
  = Some [tsqrt (topp r1); mem 1%nat; mem 2%nat;
          tsub (mem 3%nat)
               (tmul (tmul (tdiv (sqrt_of_int 1) (sqrt_of_int 1)) r1)
                     (tsqrt (topp r1)))].
Proof.
  assert (Hfit : machine_fits 2 2) by (split; vm_compute; discriminate).
  pose proof (allocate_spec mem 2 2 ltac:(lia) Hfit) as Halloc.
  split.
  - unfold interferometer_cpp, interferometer_run, interferometer_start.
    change (dim_of [r0; r1; r2; r3]) with 2%nat. rewrite Halloc. reflexivity.
  - unfold squeezing_cpp, squeezing_run, squeezing_start.
    change (dim_of [r0; r1; r2; r3]) with 2%nat. rewrite Halloc. reflexivity.
Qed.

(** C9 fails on the code.  [two_mode_squeezing_cpp] writes every cell of
    the tensor to [std::cout] while it clears it: with [resolution = 1]
    and any 4x4 [R] it prints one zero before it returns the one-entry
    tensor [-R[2]]. *)
Theorem two_mode_squeezing_prints {T : Type} `{Scalar T} (mem : nat -> T)
    (r0 r1 r2 r3 r4 r5 r6 r7 r8 r9 r10 r11 r12 r13 r14 r15 : T) :
  two_mode_squeezing_cpp mem
    [r0; r1; r2; r3; r4; r5; r6; r7; r8; r9; r10; r11; r12; r13; r14; r15] 1
  = Some ([tzero], [topp r2]).
Proof.
  assert (Hfit : machine_fits 1 4) by (split; vm_compute; discriminate).
  pose proof (allocate_spec mem 1 4 ltac:(lia) Hfit) as Halloc.
  unfold two_mode_squeezing_cpp, two_mode_run, two_mode_start.
  match goal with
  | |- context [dim_of ?l] => change (dim_of l) with 4%nat
  end.
  rewrite Halloc. reflexivity.
Qed.
(** X1.  The all-ones multi-index, where the fills put their seed, has
    offset [0] for every number of axes and every [resolution]; nothing
    wraps on the way. *)
Theorem vec2index_all_ones (d : nat) (resolution : Z) :
  vec2index (replicate (S d) 1) resolution = Some 0.
Proof. exact (vec2index_seed d resolution). Qed.

(** X2.  Row-major strides: inside the box, and as long as
    [resolution^dim] fits in an [ullint], lowering coordinate [i] by one
    lowers the offset by [resolution^(dim-1-i)]. *)
Theorem vec2index_stride (resolution : Z) (pos : list Z) (i : nat) :
  1 <= resolution -> in_box resolution pos ->
  resolution ^ Z.of_nat (length pos) <= ullint_modulus ->
  (i < length pos)%nat -> coordinate pos i > 1 ->
  exists offset : Z,
    vec2index pos resolution = Some offset /\
    vec2index (decrement pos i) resolution
    = Some (offset - resolution ^ Z.of_nat (length pos - 1 - i)).
Proof.
  intros Hr Hb Hfit Hi Hc. exists (mixed_radix resolution pos). split.
  - apply vec2index_mixed_radix; try assumption.
    destruct pos; [simpl in Hi; lia | discriminate].
  - rewrite <- mixed_radix_decrement by exact Hi.
    apply vec2index_mixed_radix; try assumption.
    + pose proof (length_decrement pos i) as Hl.
      destruct (decrement pos i); [simpl in Hl; lia | discriminate].
    + apply in_box_decrement; assumption.
    + rewrite length_decrement. exact Hfit.
Qed.

Lemma vec2index_stride_witness :
  1 <= 3 /\ in_box 3 [2; 3; 1] /\
  3 ^ Z.of_nat (length [2; 3; 1]) <= ullint_modulus /\
  (1 < length [2; 3; 1])%nat /\ coordinate [2; 3; 1] 1 > 1 /\
  exists offset : Z,
    vec2index [2; 3; 1] 3 = Some offset /\
    vec2index (decrement [2; 3; 1] 1) 3
    = Some (offset - 3 ^ Z.of_nat (length [2; 3; 1] - 1 - 1)).
Proof.
  assert (H1 : 1 <= 3) by lia.
  assert (H2 : in_box 3 [2; 3; 1]) by (repeat constructor; lia).
  assert (H3 : 3 ^ Z.of_nat (length [2; 3; 1]) <= ullint_modulus)
    by (vm_compute; discriminate).
  assert (H4 : (1 < length [2; 3; 1])%nat) by (simpl; lia).
  assert (H5 : coordinate [2; 3; 1] 1 > 1) by (vm_compute; reflexivity).
  split; [exact H1 | split; [exact H2 | split; [exact H3 |
    split; [exact H4 | split; [exact H5|]]]]].
  exact (vec2index_stride 3 [2; 3; 1] 1 H1 H2 H3 H4 H5).
Defined.

(** X3.  No two states of a fill have the same offset: for
    [1 <= resolution < INT_MAX], [resolution^dim <= 2^64] and
    [m < n <= resolution^dim - 1] the positions after [m] and after [n]
    calls flatten to different offsets inside the tensor ([m = 0] is the
    start, which holds the seed).  So every entry is written at most once
    and the seed is never written over. *)
Theorem fill_offsets_distinct (resolution : Z) (dim m n : nat) :
  1 <= resolution < int_max ->
  resolution ^ Z.of_nat dim <= ullint_modulus ->
  (m < n)%nat -> Z.of_nat n <= resolution ^ Z.of_nat dim - 1 ->
  exists (itm itn : iterator) (om on : Z),
    iterator_run resolution dim m = Some itm /\
    iterator_run resolution dim n = Some itn /\
    vec2index (nextPos itm) resolution = Some om /\
    vec2index (nextPos itn) resolution = Some on /\
    0 <= om < resolution ^ Z.of_nat dim /\
    0 <= on < resolution ^ Z.of_nat dim /\
    om <> on.
Proof.
  intros [Hr Hlt] Hfit Hmn Hn.
  destruct (iterator_run_inv resolution dim m Hr ltac:(split; [lia | left; exact Hlt])) as
    (itm & Hrm & Hlm & Hbm & Hvm & _); [lia|].
  destruct (iterator_run_inv resolution dim n Hr ltac:(split; [lia | left; exact Hlt])) as
    (itn & Hrn & Hln & Hbn & Hvn & _); [lia|].
  assert (Hdim : (1 <= dim)%nat).
  { destruct dim; [|lia]. change (Z.of_nat 0) with 0 in Hn.
    rewrite Z.pow_0_r in Hn. lia. }
  assert (Hflat : forall q : list Z,
             length q = dim -> in_box resolution q ->
             vec2index q resolution = Some (mixed_radix resolution q)).
  { intros q Hq Hb. apply vec2index_mixed_radix; try assumption.
    - destruct q; [simpl in Hq; lia | discriminate].
    - rewrite Hq. exact Hfit. }
  exists itm, itn, (mixed_radix resolution (nextPos itm)),
    (mixed_radix resolution (nextPos itn)).
  pose proof (mixed_radix_range resolution _ Hr Hbm) as Hm1.
  pose proof (mixed_radix_range resolution _ Hr Hbn) as Hn1.
  rewrite Hlm in Hm1. rewrite Hln in Hn1.
  repeat split; try assumption; try (apply Hflat; assumption); try lia.
  apply offsets_differ; try assumption; lia.
Qed.

Lemma fill_offsets_distinct_witness :
  1 <= 3 < int_max /\ 3 ^ Z.of_nat 2 <= ullint_modulus /\
  (2 < 7)%nat /\ Z.of_nat 7 <= 3 ^ Z.of_nat 2 - 1 /\
  exists (itm itn : iterator) (om on : Z),
    iterator_run 3 2 2 = Some itm /\
    iterator_run 3 2 7 = Some itn /\
    vec2index (nextPos itm) 3 = Some om /\
    vec2index (nextPos itn) 3 = Some on /\
    0 <= om < 3 ^ Z.of_nat 2 /\
    0 <= on < 3 ^ Z.of_nat 2 /\
    om <> on.
Proof.
  assert (H1 : 1 <= 3 < int_max) by (split; [lia | reflexivity]).
  assert (H2 : 3 ^ Z.of_nat 2 <= ullint_modulus) by (vm_compute; discriminate).
  assert (H3 : (2 < 7)%nat) by lia.
  assert (H4 : Z.of_nat 7 <= 3 ^ Z.of_nat 2 - 1) by (vm_compute; discriminate).
  split; [exact H1 | split; [exact H2 | split; [exact H3 | split; [exact H4|]]]].
  exact (fill_offsets_distinct 3 2 2 7 H1 H2 H3 H4).
Defined.

(** X4.  Why the fill loops stop after [resolution^dim - 1] calls, for
    [1 <= resolution < INT_MAX]: the state then sits on the last position
    (every coordinate equal to [resolution]); one more call resets both
    vectors to all ones and returns [k = dim], which names no axis,
    leaving [jump = dim]; the call after that subscripts [jumpFrom[dim]],
    outside the vector. *)
Theorem update_iterator_past_the_end (resolution : Z) (dim : nat) :
  1 <= resolution < int_max -> (1 <= dim)%nat ->
  exists it : iterator,
    iterator_run resolution dim (Z.to_nat (resolution ^ Z.of_nat dim - 1))
    = Some it /\
    nextPos it = replicate dim resolution /\
    update_iterator it resolution dim
    = Some (Iterator (replicate dim 1) (replicate dim 1) dim, dim) /\
    update_iterator (Iterator (replicate dim 1) (replicate dim 1) dim)
                    resolution dim
    = None.
Proof.
  intros Hres Hdim. pose proof Hres as [Hr Hlt].
  pose proof (pow_nat_pos resolution dim Hr) as Hpos.
  destruct (iterator_run_inv resolution dim
              (Z.to_nat (resolution ^ Z.of_nat dim - 1)) Hr
              ltac:(split; [lia | left; exact Hlt]))
    as (it & Hrun & Hlen & Hbox & Hval & Hst); [lia|].
  assert (Hfull : nextPos it = replicate dim resolution).
  { apply (odometer_value_inj resolution); try assumption.
    - apply in_box_replicate. lia.
    - rewrite length_replicate. exact Hlen.
    - rewrite odometer_value_full. lia. }
  exists it. split; [exact Hrun|]. split; [exact Hfull|]. split.
  - destruct (deferred_adjustment resolution dim it ltac:(lia)) as
      (it1 & Hfix & Hnp & Hj & Hlen1 & _).
    { destruct Hst as [[_ ->] | Hk]; [left; reflexivity | right; exact Hk]. }
    unfold update_iterator. rewrite Hfix. cbn [mbind option_bind].
    destruct it1 as [np jf j]. cbn [nextPos jumpFrom jump] in *. subst np j.
    rewrite Hfull in Hlen1 |- *. rewrite length_replicate in Hlen1.
    pose proof (carry_loop_full resolution dim Hres [] [] jf 0%nat eq_refl
                  Hlen1) as Hc.
    cbn [app length Nat.add] in Hc. rewrite Hc. cbn [mbind option_bind nextPos jumpFrom].
    rewrite (first_difference_equal (replicate dim 1) dim 0)
      by (rewrite length_replicate; lia).
    cbn [mbind option_bind Nat.add]. destruct dim; [lia | reflexivity].
  - unfold update_iterator, deferred_jump. cbn [jump jumpFrom nextPos].
    rewrite bool_decide_eq_true_2 by lia.
    rewrite (proj1 (lookup_replicate_None dim 1 dim)) by lia.
    reflexivity.
Qed.

Lemma update_iterator_past_the_end_witness :
  1 <= 2 < int_max /\ (1 <= 3)%nat /\
  exists it : iterator,
    iterator_run 2 3 (Z.to_nat (2 ^ Z.of_nat 3 - 1)) = Some it /\
    nextPos it = replicate 3 2 /\
    update_iterator it 2 3
    = Some (Iterator (replicate 3 1) (replicate 3 1) 3, 3%nat) /\
    update_iterator (Iterator (replicate 3 1) (replicate 3 1) 3) 2 3 = None.
Proof.
  assert (H1 : 1 <= 2 < int_max) by (split; [lia | reflexivity]).
  assert (H2 : (1 <= 3)%nat) by lia.
  split; [exact H1 | split; [exact H2|]].
  exact (update_iterator_past_the_end 2 3 H1 H2).
Defined.

(** X5.  For [1 <= resolution < INT_MAX], the axis [update_iterator]
    returns on its [n]-th call of a fill is the number of trailing zeros
    of [n] written in base [resolution]: [resolution^k] divides [n] and
    [resolution^(k+1)] does not. *)
Theorem update_iterator_axis_valuation (resolution : Z) (dim n : nat) :
  1 <= resolution < int_max ->
  Z.of_nat (S n) <= resolution ^ Z.of_nat dim - 1 ->
  exists (it it' : iterator) (k : nat),
    iterator_run resolution dim n = Some it /\
    update_iterator it resolution dim = Some (it', k) /\
    (resolution ^ Z.of_nat k | Z.of_nat (S n)) /\
    ~ (resolution ^ Z.of_nat (S k) | Z.of_nat (S n)).
Proof.
  intros [Hr Hlt] Hn.
  destruct (iterator_call resolution dim n Hr ltac:(split; [lia | left; exact Hlt])) as
    (it & it' & k & Hrun & Hcall & _ & Hstep & _ & Hval); [lia|].
  exists it, it', k. split; [exact Hrun|]. split; [exact Hcall|].
  destruct Hstep as (p & rest & Hnp & _ & _ & Hp & _).
  rewrite Hnp, odometer_value_app_ones in Hval.
  cbn [odometer_value] in Hval.
  pose proof (pow_nat_pos resolution k Hr) as Hpk.
  split.
  - exists (p + 1 - 1 + resolution * odometer_value resolution rest). lia.
  - intros [z Hz]. rewrite pow_succ_nat in Hz.
    assert (Heq : resolution * z
                  = p + resolution * odometer_value resolution rest) by nia.
    assert (Hp' : p = resolution * (z - odometer_value resolution rest)) by lia.
    destruct (Z.le_gt_cases (z - odometer_value resolution rest) 0); nia.
Qed.

Lemma update_iterator_axis_valuation_witness :
  1 <= 3 < int_max /\ Z.of_nat 6 <= 3 ^ Z.of_nat 2 - 1 /\
  exists (it it' : iterator) (k : nat),
    iterator_run 3 2 5 = Some it /\
    update_iterator it 3 2 = Some (it', k) /\
    (3 ^ Z.of_nat k | Z.of_nat 6) /\
    ~ (3 ^ Z.of_nat (S k) | Z.of_nat 6).
Proof.
  assert (H1 : 1 <= 3 < int_max) by (split; [lia | reflexivity]).
  assert (H2 : Z.of_nat 6 <= 3 ^ Z.of_nat 2 - 1) by (vm_compute; discriminate).
  split; [exact H1 | split; [exact H2|]].
  exact (update_iterator_axis_valuation 3 2 5 H1 H2).
Defined.

(** X6. For [1 <= resolution <= INT_MAX], [resolution^dim] at most [2^53] (so
    that [pow] returns the exact number of cells and the byte count
    [sizeof(T)*Hdim] fits [size_t]) and a [y] of [dim] entries, in a run whose
    allocations succeed, [hermite_multidimensional_cpp] runs to its end
    without a signed overflow or an out-of-range subscript and returns a
    tensor of [resolution^dim] entries whose entry [0] is the seed [1]. *)
Theorem hermite_tensor_shape {T : Type} `{Scalar T} (mem : nat -> T)
    (R y : list T) (resolution : Z) :
  1 <= resolution <= int_max ->
  resolution ^ Z.of_nat (dim_of R) <= exact_double_max ->
  length y = dim_of R ->
  exists Hout : list T,
    hermite_multidimensional_cpp mem R y resolution = Some Hout /\
    Z.of_nat (length Hout) = resolution ^ Z.of_nat (dim_of R) /\
    Hout !! 0%nat = Some tone.
Proof.
  intros [Hr Hmax] Hexact Hy.
  assert (Hfit : machine_fits resolution (dim_of R)) by (split; assumption).
  pose proof (machine_representable resolution (dim_of R) Hfit) as Hfit64.
  destruct (hermite_fill_run mem R y resolution Hr Hfit Hy) as
    (it & HN & Hrun & Hcpp & HH).
  exists HN. split; [exact Hcpp|]. split; [exact HH|].
  pose proof (pow_nat_pos resolution (dim_of R) Hr) as Hpos.
  rewrite (fill_seed_kept (hermite_body R y resolution (dim_of R))
             (fun it k H0 _ => hermite_value R y resolution (dim_of R) it k H0)
             resolution (dim_of R) _ Hr Hfit
             (length_seeded mem R resolution Hr tone)
             (hermite_body_spec R y resolution Hr Hfit Hy)
             (Z.to_nat (resolution ^ Z.of_nat (dim_of R) - 1)) it HN)
    by (assumption || lia).
  apply list_lookup_insert_eq. rewrite length_block. lia.
Qed.

Lemma hermite_tensor_shape_witness :
  1 <= 3 <= int_max /\ 3 ^ Z.of_nat (dim_of [0; 1; 1; 0]) <= exact_double_max /\
  length [2; 5] = dim_of [0; 1; 1; 0] /\
  exists Hout : list Z,
    hermite_multidimensional_cpp (fun _ => 7) [0; 1; 1; 0] [2; 5] 3
    = Some Hout /\
    Z.of_nat (length Hout) = 3 ^ Z.of_nat (dim_of [0; 1; 1; 0]) /\
    Hout !! 0%nat = Some tone.
Proof.
  assert (H1 : 1 <= 3 <= int_max) by (split; [lia | discriminate]).
  assert (H2 : 3 ^ Z.of_nat (dim_of [0; 1; 1; 0]) <= exact_double_max)
    by (vm_compute; discriminate).
  assert (H3 : length [2; 5] = dim_of [0; 1; 1; 0]) by reflexivity.
  split; [exact H1 | split; [exact H2 | split; [exact H3|]]].
  exact (hermite_tensor_shape (fun _ => 7) [0; 1; 1; 0] [2; 5] 3 H1 H2 H3).
Defined.

(** X7.  With [resolution = 1] the loop of the two Hermite fills does not
    run: whatever [R], [y] and the allocated block are, the result is the
    one-entry tensor holding the seed [1]. *)
Theorem hermite_resolution_one {T : Type} `{Scalar T} (mem : nat -> T)
    (R y : list T) :
  hermite_multidimensional_cpp mem R y 1 = Some [tone] /\
  renorm_hermite_multidimensional_cpp mem R y 1 = Some [tone].
Proof.
  assert (Hpow : pow_to_ullint 1 (dim_of R) = Some 1).
  { unfold pow_to_ullint. rewrite Z.pow_1_l by lia. reflexivity. }
  split.
  - unfold hermite_multidimensional_cpp, hermite_run, hermite_start.
    rewrite allocate_cells, Hpow. reflexivity.
  - unfold renorm_hermite_multidimensional_cpp, renorm_run, renorm_start.
    rewrite allocate_cells, Hpow. reflexivity.
Qed.

(** X8. Over scalars whose subtraction is exact ([(a-b)-c = a-(b+c)] and
    [a-0 = a], which [double] does not satisfy), for [1 <= resolution <= INT_MAX], [resolution^dim] at most
    [2^53] and a [y] of [dim] entries, in a run whose allocations succeed, the
    tensor [hermite_multidimensional_cpp] returns satisfies the recurrence
    everywhere: for every multi-index [q] of the box other than the all-ones
    one, with [k] the lowest axis on which [q] exceeds one and [p = q - e_k],
    [H[q] = H[p] * y[k]] minus the sum over the axes [i] with [p[i] > 1] of
    [(p[i]-1) * R[k*dim+i] * H[p - e_i]], all read from the returned tensor. *)
Theorem hermite_tensor_recurrence {T : Type} {ST : Scalar T}
    {SL : ScalarLaws T} (mem : nat -> T) (R y : list T) (resolution : Z) :
  1 <= resolution <= int_max ->
  resolution ^ Z.of_nat (dim_of R) <= exact_double_max ->
  length y = dim_of R ->
  exists Hout : list T,
    hermite_multidimensional_cpp mem R y resolution = Some Hout /\
    forall q : list Z,
      length q = dim_of R -> in_box resolution q ->
      q <> replicate (dim_of R) 1 ->
      entry Hout resolution q
      = hermite_rhs R y resolution (dim_of R) (leading_ones q) Hout
                    (decrement q (leading_ones q)).
Proof.
  intros [Hr Hmax] Hexact Hy.
  assert (Hfit : machine_fits resolution (dim_of R)) by (split; assumption).
  pose proof (machine_representable resolution (dim_of R) Hfit) as Hfit64.
  destruct (hermite_fill_run mem R y resolution Hr Hfit Hy) as
    (it & HN & Hrun & Hcpp & HH).
  exists HN. split; [exact Hcpp|]. intros q Hq Hqb Hne.
  pose proof (pow_nat_pos resolution (dim_of R) Hr) as Hpos.
  pose proof (odometer_value_range resolution q Hr Hqb) as Hrng.
  rewrite Hq in Hrng. rewrite <- Hq in Hne.
  pose proof (not_all_ones resolution q Hr Hqb Hne) as Hq1.
  destruct (fill_final (hermite_body R y resolution (dim_of R))
              (fun it k H0 _ => hermite_value R y resolution (dim_of R) it k H0)
              resolution (dim_of R) _ Hr Hfit
              (length_seeded mem R resolution Hr tone)
              (hermite_body_spec R y resolution Hr Hfit Hy)
              (fun it' k H1 H2 _ =>
                 hermite_value_ext R y resolution Hr Hy it' k H1 H2)
              (Z.to_nat (resolution ^ Z.of_nat (dim_of R) - 1)) it HN q)
    as [_ Hent]; try assumption; try lia.
  rewrite Hent. unfold hermite_value, subtract_corrections.
  cbn [iterator_at jumpFrom]. rewrite fold_left_tsub. reflexivity.
Qed.

Lemma hermite_tensor_recurrence_witness :
  1 <= 3 <= int_max /\ 3 ^ Z.of_nat (dim_of [0; 1; 1; 0]) <= exact_double_max /\
  length [2; 5] = dim_of [0; 1; 1; 0] /\
  exists Hout : list Z,
    hermite_multidimensional_cpp (fun _ => 7) [0; 1; 1; 0] [2; 5] 3
    = Some Hout /\
    forall q : list Z,
      length q = dim_of [0; 1; 1; 0] -> in_box 3 q ->
      q <> replicate (dim_of [0; 1; 1; 0]) 1 ->
      entry Hout 3 q
      = hermite_rhs [0; 1; 1; 0] [2; 5] 3 (dim_of [0; 1; 1; 0])
                    (leading_ones q) Hout (decrement q (leading_ones q)).
Proof.
  assert (H1 : 1 <= 3 <= int_max) by (split; [lia | discriminate]).
  assert (H2 : 3 ^ Z.of_nat (dim_of [0; 1; 1; 0]) <= exact_double_max)
    by (vm_compute; discriminate).
  assert (H3 : length [2; 5] = dim_of [0; 1; 1; 0]) by reflexivity.
  split; [exact H1 | split; [exact H2 | split; [exact H3|]]].
  exact (hermite_tensor_recurrence (fun _ => 7) [0; 1; 1; 0] [2; 5] 3
           H1 H2 H3).
Defined.

(** X9.  The missing zero-fill does not show in the unnormalized fill:
    every entry is stored before it is read, so the tensor returned does
    not depend on what the allocated block held. *)
Theorem hermite_ignores_block {T : Type} `{Scalar T} (mem mem' : nat -> T)
    (R y : list T) (resolution : Z) :
  1 <= resolution ->
  resolution ^ Z.of_nat (dim_of R) < ullint_modulus ->
  length y = dim_of R ->
  hermite_multidimensional_cpp mem R y resolution
  = hermite_multidimensional_cpp mem' R y resolution.
Proof.
  intros Hr Hfit Hy.
  destruct (decide (resolution <= int_max /\
                    resolution ^ Z.of_nat (dim_of R) <= exact_double_max))
    as [Hm|Hbad].
  - exact (hermite_block_independent mem mem' R y resolution Hr Hm Hy).
  - rewrite !hermite_unsized by exact Hbad. reflexivity.
Qed.

Lemma hermite_ignores_block_witness :
  1 <= 3 /\ 3 ^ Z.of_nat (dim_of [0; 1; 1; 0]) < ullint_modulus /\
  length [2; 5] = dim_of [0; 1; 1; 0] /\
  hermite_multidimensional_cpp (fun _ => 7) [0; 1; 1; 0] [2; 5] 3
  = hermite_multidimensional_cpp Z.of_nat [0; 1; 1; 0] [2; 5] 3.
Proof.
  assert (H1 : 1 <= 3) by lia.
  assert (H2 : 3 ^ Z.of_nat (dim_of [0; 1; 1; 0]) < ullint_modulus)
    by (vm_compute; reflexivity).
  assert (H3 : length [2; 5] = dim_of [0; 1; 1; 0]) by reflexivity.
  split; [exact H1 | split; [exact H2 | split; [exact H3|]]].
  exact (hermite_ignores_block (fun _ => 7) Z.of_nat [0; 1; 1; 0] [2; 5] 3
           H1 H2 H3).
Defined.

(** X10. For [1 <= resolution < INT_MAX] (the table of square roots has
    [resolution+1] entries), [resolution^dim] at most [2^53] and a [y] of
    [dim] entries, in a run whose allocations succeed,
    [renorm_hermite_multidimensional_cpp] runs to its end without a signed
    overflow or an out-of-range subscript and returns a tensor [H] of
    [resolution^dim] entries with [H[0] = 1] that satisfies the normalized
    recurrence at every other multi-index [q] of the box: with [k] the lowest
    axis on which [q] exceeds one and [p = q - e_k], [H[q] = H[p] * y[k] /
    sqrt(q[k]-1)] from which are subtracted, axis after axis,
    [sqrt(p[i]-1)/sqrt(q[k]-1) * R[k*dim+i] * H[p - e_i]] for the axes with
    [p[i] > 1]. *)
Theorem renorm_tensor_recurrence {T : Type} `{Scalar T} (mem : nat -> T)
    (R y : list T) (resolution : Z) :
  1 <= resolution < int_max ->
  resolution ^ Z.of_nat (dim_of R) <= exact_double_max ->
  length y = dim_of R ->
  exists Hout : list T,
    renorm_hermite_multidimensional_cpp mem R y resolution = Some Hout /\
    Z.of_nat (length Hout) = resolution ^ Z.of_nat (dim_of R) /\
    Hout !! 0%nat = Some tone /\
    forall q : list Z,
      length q = dim_of R -> in_box resolution q ->
      q <> replicate (dim_of R) 1 ->
      entry Hout resolution q
      = renorm_value R y resolution (dim_of R) (iterator_at q)
                     (leading_ones q) Hout.
Proof.
  intros [Hr Hlt] Hexact Hy.
  pose proof (machine_fits_lt resolution (dim_of R) Hlt Hexact) as Hfit.
  pose proof (machine_representable resolution (dim_of R) Hfit) as Hfit64.
  destruct (renorm_fill_run mem R y resolution Hr Hfit Hy Hlt) as
    (it & HN & Hrun & Hcpp & HH).
  exists HN. split; [exact Hcpp|]. split; [exact HH|].
  pose proof (pow_nat_pos resolution (dim_of R) Hr) as Hpos.
  split.
  - rewrite (fill_seed_kept
               (renorm_body R y (intsqrt_table resolution) resolution
                            (dim_of R))
               (fun it k H0 _ => renorm_value R y resolution (dim_of R) it k H0)
               resolution (dim_of R) _ Hr Hfit
               (length_seeded mem R resolution Hr tone)
               (renorm_body_spec R y resolution Hr Hfit Hy)
               (Z.to_nat (resolution ^ Z.of_nat (dim_of R) - 1)) it HN)
      by (assumption || lia).
    apply list_lookup_insert_eq. rewrite length_block. lia.
  - intros q Hq Hqb Hne.
    pose proof (odometer_value_range resolution q Hr Hqb) as Hrng.
    rewrite Hq in Hrng. rewrite <- Hq in Hne.
    pose proof (not_all_ones resolution q Hr Hqb Hne) as Hq1.
    destruct (fill_final
                (renorm_body R y (intsqrt_table resolution) resolution
                             (dim_of R))
                (fun it k H0 _ => renorm_value R y resolution (dim_of R) it k H0)
                resolution (dim_of R) _ Hr Hfit
                (length_seeded mem R resolution Hr tone)
                (renorm_body_spec R y resolution Hr Hfit Hy)
                (fun it' k H1 H2 _ =>
                   renorm_value_ext R y resolution Hr Hy it' k H1 H2)
                (Z.to_nat (resolution ^ Z.of_nat (dim_of R) - 1)) it HN q)
      as [_ Hent]; try assumption; try lia.
Qed.

Lemma renorm_tensor_recurrence_witness :
  1 <= 3 < int_max /\
  3 ^ Z.of_nat (dim_of [Lit 0; Lit 1; Lit 1; Lit 0]) <= exact_double_max /\
  length [Lit 2; Lit 5] = dim_of [Lit 0; Lit 1; Lit 1; Lit 0] /\
  exists Hout : list term,
    renorm_hermite_multidimensional_cpp Cell [Lit 0; Lit 1; Lit 1; Lit 0]
                                        [Lit 2; Lit 5] 3 = Some Hout /\
    Z.of_nat (length Hout)
    = 3 ^ Z.of_nat (dim_of [Lit 0; Lit 1; Lit 1; Lit 0]) /\
    Hout !! 0%nat = Some tone /\
    forall q : list Z,
      length q = dim_of [Lit 0; Lit 1; Lit 1; Lit 0] -> in_box 3 q ->
      q <> replicate (dim_of [Lit 0; Lit 1; Lit 1; Lit 0]) 1 ->
      entry Hout 3 q
      = renorm_value [Lit 0; Lit 1; Lit 1; Lit 0] [Lit 2; Lit 5] 3
                     (dim_of [Lit 0; Lit 1; Lit 1; Lit 0]) (iterator_at q)
                     (leading_ones q) Hout.
Proof.
  assert (H1 : 1 <= 3 < int_max) by (split; [lia | reflexivity]).
  assert (H2 : 3 ^ Z.of_nat (dim_of [Lit 0; Lit 1; Lit 1; Lit 0])
               <= exact_double_max) by (vm_compute; discriminate).
  assert (H3 : length [Lit 2; Lit 5] = dim_of [Lit 0; Lit 1; Lit 1; Lit 0])
    by reflexivity.
  split; [exact H1 | split; [exact H2 | split; [exact H3|]]].
  exact (renorm_tensor_recurrence Cell [Lit 0; Lit 1; Lit 1; Lit 0]
           [Lit 2; Lit 5] 3 H1 H2 H3).
Defined.

(** X11.  The normalized fill, too, stores every entry before it reads it:
    the tensor returned does not depend on what the allocated block
    held. *)
Theorem renorm_ignores_block {T : Type} `{Scalar T} (mem mem' : nat -> T)
    (R y : list T) (resolution : Z) :
  1 <= resolution ->
  resolution ^ Z.of_nat (dim_of R) < ullint_modulus ->
  length y = dim_of R ->
  renorm_hermite_multidimensional_cpp mem R y resolution
  = renorm_hermite_multidimensional_cpp mem' R y resolution.
Proof.
  intros Hr Hfit Hy.
  destruct (decide ((resolution <= int_max /\
                     resolution ^ Z.of_nat (dim_of R) <= exact_double_max) /\
                    resolution < int_max)) as [[Hm Hlt]|Hbad].
  - exact (renorm_block_independent mem mem' R y resolution Hr Hm Hy Hlt).
  - rewrite !renorm_unsized by exact Hbad. reflexivity.
Qed.

Lemma renorm_ignores_block_witness :
  1 <= 3 /\ 3 ^ Z.of_nat (dim_of [Lit 0; Lit 1; Lit 1; Lit 0])
            < ullint_modulus /\
  length [Lit 2; Lit 5] = dim_of [Lit 0; Lit 1; Lit 1; Lit 0] /\
  renorm_hermite_multidimensional_cpp Cell [Lit 0; Lit 1; Lit 1; Lit 0]
                                      [Lit 2; Lit 5] 3
  = renorm_hermite_multidimensional_cpp (fun _ => Lit 0)
      [Lit 0; Lit 1; Lit 1; Lit 0] [Lit 2; Lit 5] 3.
Proof.
  assert (H1 : 1 <= 3) by lia.
  assert (H2 : 3 ^ Z.of_nat (dim_of [Lit 0; Lit 1; Lit 1; Lit 0])
               < ullint_modulus) by (vm_compute; reflexivity).
  assert (H3 : length [Lit 2; Lit 5] = dim_of [Lit 0; Lit 1; Lit 1; Lit 0])
    by reflexivity.
  split; [exact H1 | split; [exact H2 | split; [exact H3|]]].
  exact (renorm_ignores_block Cell (fun _ => Lit 0)
           [Lit 0; Lit 1; Lit 1; Lit 0] [Lit 2; Lit 5] 3 H1 H2 H3).
Defined.

(** X12. For [1 <= resolution < INT_MAX], [resolution^2] at most [2^53] and a
    [y] with entries [y0], [y1], in a run whose allocations succeed,
    [displacement_cpp] runs to its end without a signed overflow or an
    out-of-range subscript and returns a [resolution x resolution] tensor [H]
    with [H[0] = exp(0.5*y0*y1)] that satisfies, at every other position [q]
    (with [k] the lowest axis on which [q] exceeds one, [p = q - e_k] and [j]
    the other axis), [H[q] = H[p] * y[k] / sqrt(q[k]-1)], minus
    [sqrt(p[j]-1)/sqrt(q[k]-1) * H[p - e_j]] when [p[j] > 1]. *)
Theorem displacement_tensor_recurrence {T : Type} {ST : Scalar T}
    {SE : ScalarExp T} (mem : nat -> T) (y : list T) (y0 y1 : T)
    (resolution : Z) :
  1 <= resolution < int_max -> resolution ^ Z.of_nat 2 <= exact_double_max ->
  y !! 0%nat = Some y0 -> y !! 1%nat = Some y1 ->
  exists Hout : list T,
    displacement_cpp mem y resolution = Some Hout /\
    Z.of_nat (length Hout) = resolution ^ Z.of_nat 2 /\
    Hout !! 0%nat = Some (texp (tmul (tmul thalf y0) y1)) /\
    forall q : list Z,
      length q = 2%nat -> in_box resolution q -> q <> [1; 1] ->
      entry Hout resolution q
      = displacement_value y resolution (iterator_at q) (leading_ones q) Hout.
Proof.
  intros [Hr Hlt] Hexact Hy0 Hy1.
  pose proof (machine_fits_lt resolution 2 Hlt Hexact) as Hfit.
  pose proof (machine_representable resolution 2 Hfit) as Hfit64.
  destruct (displacement_fill_run mem y y0 y1 resolution Hr Hfit Hy0 Hy1 Hlt)
    as (it & HN & Hrun & Hcpp & HH).
  exists HN. split; [exact Hcpp|]. split; [exact HH|].
  pose proof (pow_nat_pos resolution 2 Hr) as Hpos.
  split.
  - rewrite (fill_seed_kept
               (displacement_body y (intsqrt_table resolution) resolution)
               (fun it k H0 _ => displacement_value y resolution it k H0)
               resolution 2 _ Hr Hfit
               (displacement_seeded_length mem y0 y1 resolution Hr Hfit)
               (displacement_body_spec y y0 y1 resolution Hr Hfit Hy0 Hy1)
               (Z.to_nat (resolution ^ Z.of_nat 2 - 1)) it HN)
      by (assumption || lia).
    apply list_lookup_insert_eq. rewrite length_block. lia.
  - intros q Hq Hqb Hne.
    pose proof (odometer_value_range resolution q Hr Hqb) as Hrng.
    rewrite Hq in Hrng.
    assert (Hne' : q <> replicate (length q) 1) by (rewrite Hq; exact Hne).
    pose proof (not_all_ones resolution q Hr Hqb Hne') as Hq1.
    destruct (fill_final
                (displacement_body y (intsqrt_table resolution) resolution)
                (fun it k H0 _ => displacement_value y resolution it k H0)
                resolution 2 _ Hr Hfit
                (displacement_seeded_length mem y0 y1 resolution Hr Hfit)
                (displacement_body_spec y y0 y1 resolution Hr Hfit Hy0 Hy1)
                (fun it' k H1 H2 _ =>
                   displacement_value_ext y resolution Hr Hfit it' k H1 H2)
                (Z.to_nat (resolution ^ Z.of_nat 2 - 1)) it HN q)
      as [_ Hent]; try assumption; try lia.
Qed.

Lemma displacement_tensor_recurrence_witness :
  1 <= 3 < int_max /\ 3 ^ Z.of_nat 2 <= exact_double_max /\
  [Lit 2; Lit 5] !! 0%nat = Some (Lit 2) /\
  [Lit 2; Lit 5] !! 1%nat = Some (Lit 5) /\
  exists Hout : list term,
    displacement_cpp Cell [Lit 2; Lit 5] 3 = Some Hout /\
    Z.of_nat (length Hout) = 3 ^ Z.of_nat 2 /\
    Hout !! 0%nat = Some (texp (tmul (tmul thalf (Lit 2)) (Lit 5))) /\
    forall q : list Z,
      length q = 2%nat -> in_box 3 q -> q <> [1; 1] ->
      entry Hout 3 q
      = displacement_value [Lit 2; Lit 5] 3 (iterator_at q) (leading_ones q)
                           Hout.
Proof.
  assert (H1 : 1 <= 3 < int_max) by (split; [lia | reflexivity]).
  assert (H2 : 3 ^ Z.of_nat 2 <= exact_double_max)
    by (vm_compute; discriminate).
  assert (H3 : [Lit 2; Lit 5] !! 0%nat = Some (Lit 2)) by reflexivity.
  assert (H4 : [Lit 2; Lit 5] !! 1%nat = Some (Lit 5)) by reflexivity.
  split; [exact H1 | split; [exact H2 | split; [exact H3 | split; [exact H4|]]]].
  exact (displacement_tensor_recurrence Cell [Lit 2; Lit 5] (Lit 2) (Lit 5) 3
           H1 H2 H3 H4).
Defined.

(** X13.  [displacement_cpp] stores every entry before it reads it: the
    tensor returned does not depend on what the allocated block held. *)
Theorem displacement_ignores_block {T : Type} {ST : Scalar T}
    {SE : ScalarExp T} (mem mem' : nat -> T) (y : list T) (y0 y1 : T)
    (resolution : Z) :
  1 <= resolution -> resolution ^ Z.of_nat 2 < ullint_modulus ->
  y !! 0%nat = Some y0 -> y !! 1%nat = Some y1 ->
  displacement_cpp mem y resolution = displacement_cpp mem' y resolution.
Proof.
  intros Hr Hfit Hy0 Hy1.
  destruct (decide ((resolution <= int_max /\
                     resolution ^ Z.of_nat 2 <= exact_double_max) /\
                    resolution < int_max)) as [[Hm Hlt]|Hbad].
  - exact (displacement_block_independent mem mem' y y0 y1 resolution Hr Hm
             Hy0 Hy1 Hlt).
  - rewrite !displacement_unsized by exact Hbad. reflexivity.
Qed.

Lemma displacement_ignores_block_witness :
  1 <= 3 /\ 3 ^ Z.of_nat 2 < ullint_modulus /\
  [Lit 2; Lit 5] !! 0%nat = Some (Lit 2) /\
  [Lit 2; Lit 5] !! 1%nat = Some (Lit 5) /\
  displacement_cpp Cell [Lit 2; Lit 5] 3
  = displacement_cpp (fun _ => Lit 0) [Lit 2; Lit 5] 3.
Proof.
  assert (H1 : 1 <= 3) by lia.
  assert (H2 : 3 ^ Z.of_nat 2 < ullint_modulus) by (vm_compute; reflexivity).
  assert (H3 : [Lit 2; Lit 5] !! 0%nat = Some (Lit 2)) by reflexivity.
  assert (H4 : [Lit 2; Lit 5] !! 1%nat = Some (Lit 5)) by reflexivity.
  split; [exact H1 | split; [exact H2 | split; [exact H3 | split; [exact H4|]]]].
  exact (displacement_ignores_block Cell (fun _ => Lit 0) [Lit 2; Lit 5]
           (Lit 2) (Lit 5) 3 H1 H2 H3 H4).
Defined.

(** X14. For each fill without a source vector (interferometer, single-mode
    squeezer, two-mode squeezer), over a scalar type at least as wide as a
    pointer (so that the [memset] of [sizeof(H)] bytes stays inside cell [0]),
    on an [R] of the shape the fill asserts, with [1 <= resolution < INT_MAX]
    and [resolution^dim] at most [2^53], in a run whose allocations succeed:
    the fill runs to its end without a signed overflow or an out-of-range
    subscript and returns a tensor of [resolution^dim] entries whose entry [0]
    is the seed; at every other position of the box, a rejected entry is what
    the tensor held there at the head of the loop, and an accepted entry is
    that same initial content minus the corrections over the fill's axis
    range, computed from the returned tensor. *)
Theorem selection_rule_tensor {T : Type} `{Scalar T} (v : variant)
    (mem : nat -> T) (R : list T) (resolution : Z) :
  1 <= resolution < int_max -> variant_shape v (dim_of R) ->
  resolution ^ Z.of_nat (dim_of R) <= exact_double_max ->
  exists Hinit Hout : list T,
    variant_start v mem R resolution = Some Hinit /\
    variant_result v mem R resolution = Some Hout /\
    Z.of_nat (length Hout) = resolution ^ Z.of_nat (dim_of R) /\
    Hout !! 0%nat = Hinit !! 0%nat /\
    forall q : list Z,
      length q = dim_of R -> in_box resolution q ->
      q <> replicate (dim_of R) 1 ->
      entry Hout resolution q
      = selective_value (variant_accepts v (dim_of R))
                        (variant_limits v (dim_of R)) R resolution (dim_of R)
                        (iterator_at q) (leading_ones q) Hout
                        (entry Hinit resolution q).
Proof.
  intros [Hr Hlt] Hshape Hexact.
  exact (selective_fill_result v mem R resolution Hr Hshape
           (machine_fits_lt resolution (dim_of R) Hlt Hexact) Hlt).
Qed.

Lemma selection_rule_tensor_witness :
  1 <= 2 < int_max /\ variant_shape Interferometer (dim_of [0; 1; 1; 0]) /\
  2 ^ Z.of_nat (dim_of [0; 1; 1; 0]) <= exact_double_max /\
  exists Hinit Hout : list Z,
    variant_start Interferometer Z.of_nat [0; 1; 1; 0] 2 = Some Hinit /\
    variant_result Interferometer Z.of_nat [0; 1; 1; 0] 2 = Some Hout /\
    Z.of_nat (length Hout) = 2 ^ Z.of_nat (dim_of [0; 1; 1; 0]) /\
    Hout !! 0%nat = Hinit !! 0%nat /\
    forall q : list Z,
      length q = dim_of [0; 1; 1; 0] -> in_box 2 q ->
      q <> replicate (dim_of [0; 1; 1; 0]) 1 ->
      entry Hout 2 q
      = selective_value (variant_accepts Interferometer (dim_of [0; 1; 1; 0]))
                        (variant_limits Interferometer (dim_of [0; 1; 1; 0]))
                        [0; 1; 1; 0] 2 (dim_of [0; 1; 1; 0])
                        (iterator_at q) (leading_ones q) Hout
                        (entry Hinit 2 q).
Proof.
  assert (H1 : 1 <= 2 < int_max) by (split; [lia | reflexivity]).
  assert (H2 : variant_shape Interferometer (dim_of [0; 1; 1; 0]))
    by reflexivity.
  assert (H3 : 2 ^ Z.of_nat (dim_of [0; 1; 1; 0]) <= exact_double_max)
    by (vm_compute; discriminate).
  split; [exact H1 | split; [exact H2 | split; [exact H3|]]].
  exact (selection_rule_tensor Interferometer Z.of_nat [0; 1; 1; 0] 2
           H1 H2 H3).
Defined.

(** X15. [two_mode_squeezing_cpp], which clears its tensor itself, on a 4x4
    [R] with [1 <= resolution < INT_MAX] and [resolution^4] at most [2^53], in
    a run whose allocations succeed: it runs to its end without a signed
    overflow or an out-of-range subscript, writes [resolution^4] zeros to
    [std::cout] and returns a tensor with [H[0] = -R[2]] in which every entry
    rejected by the selection rule ([nextPos[0]-nextPos[1] <>
    nextPos[2]-nextPos[3]]) is exactly zero and every accepted entry other
    than the seed is zero minus the corrections over all four axes, computed
    from the returned tensor. *)
Theorem two_mode_squeezing_tensor {T : Type} `{Scalar T} (mem : nat -> T)
    (R : list T) (resolution : Z) :
  1 <= resolution < int_max -> dim_of R = 4%nat ->
  resolution ^ Z.of_nat (dim_of R) <= exact_double_max ->
  exists (r2 : T) (Hout : list T),
    R !! 2%nat = Some r2 /\
    two_mode_squeezing_cpp mem R resolution
    = Some (replicate (Z.to_nat (resolution ^ Z.of_nat (dim_of R))) tzero,
            Hout) /\
    Hout !! 0%nat = Some (topp r2) /\
    forall q : list Z,
      length q = 4%nat -> in_box resolution q -> q <> [1; 1; 1; 1] ->
      entry Hout resolution q
      = selective_value two_mode_accepts (all_axes 4) R resolution 4
                        (iterator_at q) (leading_ones q) Hout tzero /\
      (two_mode_accepts q = Some false -> entry Hout resolution q = tzero).
Proof.
  intros [Hr Hlt] Hdim Hexact.
  pose proof (machine_fits_lt resolution (dim_of R) Hlt Hexact) as Hfit.
  pose proof (machine_representable resolution (dim_of R) Hfit) as Hfit64.
  destruct (selective_fill_result TwoModeSqueezer mem R resolution Hr Hdim
              Hfit Hlt) as (Hinit & Hout & Hstart & Hres & _ & Hseed & Hent).
  destruct (two_mode_start_spec mem R resolution Hr Hfit Hdim)
    as (r2 & Hr2 & Hspec).
  pose proof (pow_nat_pos resolution (dim_of R) Hr) as Hpos.
  cbn [variant_start variant_result variant_accepts variant_limits] in *.
  rewrite Hspec in Hstart. cbn in Hstart. injection Hstart as <-.
  exists r2, Hout. split; [exact Hr2|]. split.
  { unfold two_mode_squeezing_cpp in *. rewrite Hspec in *.
    cbn [mbind option_bind] in *.
    destruct (two_mode_run mem R resolution
                (Z.to_nat (wrap64 (resolution ^ Z.of_nat (dim_of R) - 1))))
      as [[it HN]|]; [|discriminate].
    cbn in Hres |- *. injection Hres as ->. reflexivity. }
  split.
  { rewrite Hseed. apply list_lookup_insert_eq. rewrite length_replicate. lia. }
  intros q Hq Hqb Hne.
  assert (Hzero : entry (<[0%nat := topp r2]>
                    (replicate (Z.to_nat (resolution ^ Z.of_nat (dim_of R)))
                               tzero)) resolution q = tzero).
  { assert (Hne' : q <> replicate (length q) 1) by (rewrite Hq; exact Hne).
    pose proof (mixed_radix_positive resolution q Hr Hqb Hne') as Hm.
    pose proof (mixed_radix_range resolution q Hr Hqb) as Hrng.
    rewrite Hq, <- Hdim in Hrng.
    unfold entry. rewrite vec2index_mixed_radix; try assumption.
    - cbn [mbind option_bind]. unfold vec_at.
      rewrite bool_decide_eq_true_2 by lia.
      rewrite list_lookup_insert_ne by lia.
      rewrite lookup_replicate_2 by lia. reflexivity.
    - destruct q; [discriminate | discriminate].
    - rewrite Hq, <- Hdim. lia. }
  specialize (Hent q ltac:(rewrite Hdim; exact Hq) Hqb
                ltac:(rewrite Hdim; exact Hne)).
  rewrite Hzero in Hent. rewrite Hdim in Hent.
  split; [exact Hent|].
  intros Hrej. rewrite Hent. unfold selective_value.
  cbn [iterator_at nextPos]. rewrite Hrej. reflexivity.
Qed.

Lemma two_mode_squeezing_tensor_witness :
  1 <= 2 < int_max /\ dim_of (replicate 16 (Lit 3)) = 4%nat /\
  2 ^ Z.of_nat (dim_of (replicate 16 (Lit 3))) <= exact_double_max /\
  exists (r2 : term) (Hout : list term),
    replicate 16 (Lit 3) !! 2%nat = Some r2 /\
    two_mode_squeezing_cpp Cell (replicate 16 (Lit 3)) 2
    = Some (replicate (Z.to_nat (2 ^ Z.of_nat (dim_of (replicate 16 (Lit 3)))))
                      tzero, Hout) /\
    Hout !! 0%nat = Some (topp r2) /\
    forall q : list Z,
      length q = 4%nat -> in_box 2 q -> q <> [1; 1; 1; 1] ->
      entry Hout 2 q
      = selective_value two_mode_accepts (all_axes 4) (replicate 16 (Lit 3))
                        2 4 (iterator_at q) (leading_ones q) Hout tzero /\
      (two_mode_accepts q = Some false -> entry Hout 2 q = tzero).
Proof.
  assert (H1 : 1 <= 2 < int_max) by (split; [lia | reflexivity]).
  assert (H2 : dim_of (replicate 16 (Lit 3)) = 4%nat) by reflexivity.
  assert (H3 : 2 ^ Z.of_nat (dim_of (replicate 16 (Lit 3)))
               <= exact_double_max) by (vm_compute; discriminate).
  split; [exact H1 | split; [exact H2 | split; [exact H3|]]].
  exact (two_mode_squeezing_tensor Cell (replicate 16 (Lit 3)) 2 H1 H2 H3).
Defined.

(** X16. [interferometer_cpp] and [squeezing_cpp] never clear their tensor:
    over a scalar type at least as wide as a pointer, [memset(H, sizeof(val),
    sizeof(H))] stays inside the first cell. On an [R] of the asserted shape,
    with [1 <= resolution < INT_MAX] and [resolution^dim] at most [2^53], in a
    run whose allocations succeed, the fill runs to its end and every entry
    the selection rule rejects is returned with exactly what the allocated
    block held at that offset. *)
Theorem unwritten_entries_are_allocator_content {T : Type} `{Scalar T}
    (v : variant) (mem : nat -> T) (R : list T) (resolution : Z) :
  1 <= resolution < int_max -> v <> TwoModeSqueezer ->
  variant_shape v (dim_of R) ->
  resolution ^ Z.of_nat (dim_of R) <= exact_double_max ->
  exists Hout : list T,
    variant_result v mem R resolution = Some Hout /\
    forall q : list Z,
      length q = dim_of R -> in_box resolution q ->
      variant_accepts v (dim_of R) q = Some false ->
      entry Hout resolution q = mem (Z.to_nat (mixed_radix resolution q)).
Proof.
  intros [Hr Hlt] Hv Hshape Hexact.
  pose proof (machine_fits_lt resolution (dim_of R) Hlt Hexact) as Hfit.
  pose proof (machine_representable resolution (dim_of R) Hfit) as Hfit64.
  destruct (selective_fill_result v mem R resolution Hr Hshape Hfit Hlt)
    as (Hinit & Hout & Hstart & Hres & _ & _ & Hent).
  pose proof (pow_nat_pos resolution (dim_of R) Hr) as Hpos.
  assert (Hblock : exists seed : T,
             Hinit = <[0%nat := seed]>
                       (block mem (Z.to_nat (resolution ^ Z.of_nat (dim_of R))))).
  { destruct v; [| |congruence]; cbn [variant_start variant_shape] in *.
    - rewrite (interferometer_start_spec mem R resolution Hr Hfit Hshape)
        in Hstart.
      cbn in Hstart. injection Hstart as <-. eexists. reflexivity.
    - destruct (squeezing_start_spec mem R resolution Hr Hfit Hshape)
        as (r1 & _ & Hspec).
      rewrite Hspec in Hstart. cbn in Hstart. injection Hstart as <-.
      eexists. reflexivity. }
  destruct Hblock as (seed & ->).
  exists Hout. split; [exact Hres|].
  intros q Hq Hqb Hrej.
  assert (Hne : q <> replicate (dim_of R) 1).
  { intros ->. rewrite (variant_accepts_ones v (dim_of R) Hshape) in Hrej.
    discriminate. }
  rewrite (Hent q Hq Hqb Hne). unfold selective_value.
  cbn [iterator_at nextPos]. rewrite Hrej.
  assert (Hne' : q <> replicate (length q) 1) by (rewrite Hq; exact Hne).
  pose proof (mixed_radix_positive resolution q Hr Hqb Hne') as Hm.
  pose proof (mixed_radix_range resolution q Hr Hqb) as Hrng.
  rewrite Hq in Hrng.
  assert (Hd : (1 <= dim_of R)%nat).
  { destruct (dim_of R); [|lia]. destruct q; [|discriminate].
    exfalso. apply Hne. reflexivity. }
  unfold entry. rewrite vec2index_mixed_radix; try assumption; try lia.
  - cbn [mbind option_bind]. unfold vec_at.
    rewrite bool_decide_eq_true_2 by lia.
    rewrite list_lookup_insert_ne by lia.
    unfold block. rewrite list_lookup_fmap.
    rewrite lookup_seq_lt by lia. reflexivity.
  - intros ->. cbn [length] in Hq. lia.
  - rewrite Hq. lia.
Qed.

Lemma unwritten_entries_are_allocator_content_witness :
  1 <= 2 < int_max /\ Squeezer <> TwoModeSqueezer /\
  variant_shape Squeezer (dim_of (replicate 4 (Lit 3))) /\
  2 ^ Z.of_nat (dim_of (replicate 4 (Lit 3))) <= exact_double_max /\
  exists Hout : list term,
    variant_result Squeezer Cell (replicate 4 (Lit 3)) 2 = Some Hout /\
    forall q : list Z,
      length q = dim_of (replicate 4 (Lit 3)) -> in_box 2 q ->
      variant_accepts Squeezer (dim_of (replicate 4 (Lit 3))) q = Some false ->
      entry Hout 2 q = Cell (Z.to_nat (mixed_radix 2 q)).
Proof.
  assert (H1 : 1 <= 2 < int_max) by (split; [lia | reflexivity]).
  assert (H2 : Squeezer <> TwoModeSqueezer) by discriminate.
  assert (H3 : variant_shape Squeezer (dim_of (replicate 4 (Lit 3))))
    by reflexivity.
  assert (H4 : 2 ^ Z.of_nat (dim_of (replicate 4 (Lit 3)))
               <= exact_double_max) by (vm_compute; discriminate).
  split; [exact H1 | split; [exact H2 | split; [exact H3 | split; [exact H4|]]]].
  exact (unwritten_entries_are_allocator_content Squeezer Cell
           (replicate 4 (Lit 3)) 2 H1 H2 H3 H4).
Defined.

(** X17.  Unlike the other fills, [two_mode_squeezing_cpp] overwrites every
    cell of its block before the loop, so what it prints and what it
    returns never depend on what the allocator handed out, for any [R] and
    any [resolution] (including those on which an assertion or a subscript
    fails). *)
Theorem two_mode_squeezing_ignores_block {T : Type} `{Scalar T}
    (mem mem' : nat -> T) (R : list T) (resolution : Z) :
  two_mode_squeezing_cpp mem R resolution
  = two_mode_squeezing_cpp mem' R resolution.
Proof.
  unfold two_mode_squeezing_cpp, two_mode_run.
  rewrite (two_mode_start_block mem mem' R resolution). reflexivity.
Qed.


(** X18. The fills without a source vector never assign a base term: on an [R]
    of the asserted shape, with [1 <= resolution < INT_MAX] and
    [resolution^dim] at most [2^53], in a run whose allocations succeed,
    iteration [n+1] of the loop (for [n+1 <= resolution^dim - 1]) runs, and
    when the selection rule accepts the new position the entry written is the
    value stored at [nextCoordinate] minus the corrections - a value no
    earlier iteration has touched, so still what the tensor held there at the
    head of the loop; when the rule rejects the position the tensor is left as
    it is. *)
Theorem accepted_step_starts_from_stored {T : Type} `{Scalar T}
    (v : variant) (mem : nat -> T) (R : list T) (resolution : Z) (n : nat) :
  1 <= resolution < int_max -> variant_shape v (dim_of R) ->
  resolution ^ Z.of_nat (dim_of R) <= exact_double_max ->
  Z.of_nat (S n) <= resolution ^ Z.of_nat (dim_of R) - 1 ->
  subtracts_from_stored (variant_start v mem R resolution)
                        (variant_run v mem R resolution)
                        (variant_accepts v (dim_of R))
                        (variant_limits v (dim_of R))
                        R resolution (dim_of R) n.
Proof.
  intros Hres Hshape Hexact Hn.
  destruct (variant_step v mem R resolution n Hres Hshape Hexact Hn) as
    (Hinit & it & it' & k & H0 & b & Hstart & _ & _ & Hrun & Hcall
     & _ & _ & Hb & Hrun' & Hst & _).
  exists Hinit, it, it', k, H0,
    (if b then after_accepted (variant_limits v (dim_of R)) R resolution
                              (dim_of R) it' k H0
     else H0), b.
  split; [exact Hstart|]. split; [exact Hrun|]. split; [exact Hcall|].
  split; [exact Hrun'|]. split; [exact Hb|].
  destruct b; [split; [reflexivity | exact Hst] | reflexivity].
Qed.

Lemma accepted_step_starts_from_stored_witness :
  1 <= 2 < int_max /\ variant_shape Squeezer (dim_of (replicate 4 (Lit 3))) /\
  2 ^ Z.of_nat (dim_of (replicate 4 (Lit 3))) <= exact_double_max /\
  Z.of_nat 3 <= 2 ^ Z.of_nat (dim_of (replicate 4 (Lit 3))) - 1 /\
  subtracts_from_stored
    (variant_start Squeezer Cell (replicate 4 (Lit 3)) 2)
    (variant_run Squeezer Cell (replicate 4 (Lit 3)) 2)
    (variant_accepts Squeezer (dim_of (replicate 4 (Lit 3))))
    (variant_limits Squeezer (dim_of (replicate 4 (Lit 3))))
    (replicate 4 (Lit 3)) 2 (dim_of (replicate 4 (Lit 3))) 2.
Proof.
  assert (H1 : 1 <= 2 < int_max) by (split; [lia | reflexivity]).
  assert (H2 : variant_shape Squeezer (dim_of (replicate 4 (Lit 3))))
    by reflexivity.
  assert (H3 : 2 ^ Z.of_nat (dim_of (replicate 4 (Lit 3)))
               <= exact_double_max) by (vm_compute; discriminate).
  assert (H4 : Z.of_nat 3 <= 2 ^ Z.of_nat (dim_of (replicate 4 (Lit 3))) - 1)
    by (vm_compute; discriminate).
  split; [exact H1 | split; [exact H2 | split; [exact H3 | split; [exact H4|]]]].
  exact (accepted_step_starts_from_stored Squeezer Cell (replicate 4 (Lit 3))
           2 2 H1 H2 H3 H4).
Defined.
